(** * api-gateway: registry, round-robin load balancer, circuit breaker,
      reverse proxy and token-bucket rate limiter

    A shallow embedding of the request-routing core of the gateway
    (packages [service], [circuit], [handler], [middleware] and [config])
    together with the properties its specification states about it and
    further properties of the code.

    Conventions.
    - A Go [int]/[int64] is a [Z]; the places where the source could leave
      the 64-bit range say so ([wrap64]).  Go's [%] truncates towards zero
      and is [Z.rem].
    - A Go [map[string]T] is a [gmap string T]; a slice is a [list].
    - A Go [(T, error)] result, of which the callers read the value only
      when the error is nil, is a [result T]: [Ok v] for [(v, nil)] and
      [Err e] for [(zero, e)]; a lone [error] result is an [option error].
    - A run-time panic (index out of range) is the [Panic] outcome.
    - A Go [float64] is an IEEE 754 binary64 value: a [spec_float] with
      the operations of [SpecFloat] at precision 53 and maximal exponent
      1024 (round to nearest, ties to even).
    - The mutexes of the source serialise the operations; every operation
      below is one atomic step on an explicit state. *)

From Stdlib Require Import ZArith String Ascii List Bool Lia DecimalString DecimalPos
  SpecFloat.
From stdpp Require Import base option list gmap strings fin_maps.

Local Open Scope Z_scope.

(* ===================================================================== *)
(** * Part I: definitions                                                 *)
(* ===================================================================== *)

(** ** Go basics *)

(** [errors.New(msg)]. *)
Inductive error : Type :=
| errors_New (msg : string).

Definition error_Error (e : error) : string :=
  match e with errors_New m => m end.

#[global] Instance error_eq_dec : EqDecision error.
Proof. solve_decision. Defined.

(** A [(T, error)] result. *)
Inductive result (A : Type) : Type :=
| Ok (a : A)
| Err (e : error).
Arguments Ok {A} a.
Arguments Err {A} e.

(** What a Go call does: it returns, or it panics. *)
Inductive outcome (A : Type) : Type :=
| Return (a : A)
| Panic.
Arguments Return {A} a.
Arguments Panic {A}.

Definition max_int : Z := 2 ^ 63 - 1.
Definition min_int : Z := - 2 ^ 63.

(** Two's-complement wrap-around of a 64-bit signed integer. *)
Definition wrap64 (z : Z) : Z := (z + 2 ^ 63) mod 2 ^ 64 - 2 ^ 63.

(** [len(s)] of a slice. *)
Definition len {A} (s : list A) : Z := Z.of_nat (length s).

(** [s[i]]: panics when [i] is out of range. *)
Definition index {A} (s : list A) (i : Z) : outcome A :=
  if (0 <=? i) && (i <? len s) then
    match s !! Z.to_nat i with
    | Some x => Return x
    | None => Panic
    end
  else Panic.

(** ** Package service: the registry *)

Record Service : Type := mkService {
  Name : string;
  URLs : list string;
  HealthURL : string;
  Active : bool
}.

(** [Registry.services]; the lock is not modelled. *)
Record Registry : Type := mkRegistry {
  services : gmap string Service
}.

(** [config.ServiceConfig]. *)
Record ServiceConfig : Type := mkServiceConfig {
  cfg_Name : string;
  cfg_URLs : list string;
  cfg_HealthURL : string
}.

Definition Register (r : Registry) (name : string) (urls : list string)
    (healthURL : string) : Registry :=
  mkRegistry
    (<[name := mkService name urls healthURL true]> (services r)).

Definition NewRegistry (svcs : list ServiceConfig) : Registry :=
  foldl (fun r svc => Register r (cfg_Name svc) (cfg_URLs svc) (cfg_HealthURL svc))
        (mkRegistry ∅) svcs.

Definition Unregister (r : Registry) (name : string) : option error * Registry :=
  match services r !! name with
  | None => (Some (errors_New "service not found"), r)
  | Some _ => (None, mkRegistry (delete name (services r)))
  end.

Definition Get (r : Registry) (name : string) : result Service :=
  match services r !! name with
  | None => Err (errors_New "service not found")
  | Some svc =>
      if negb (Active svc) then Err (errors_New "service is inactive")
      else Ok svc
  end.

(** The map holds pointers and [SetActive] updates the entry in place;
    here the entry is replaced by the updated one.  (No caller of
    [SetActive] is among the sources.) *)
Definition SetActive (r : Registry) (name : string) (active : bool)
    : option error * Registry :=
  match services r !! name with
  | None => (Some (errors_New "service not found"), r)
  | Some svc =>
      (None,
       mkRegistry (<[name := mkService (Name svc) (URLs svc) (HealthURL svc) active]>
                     (services r)))
  end.

(** ** Package service: the load balancer *)

Record LoadBalancer : Type := mkLoadBalancer {
  counters : gmap string Z
}.

Definition NewLoadBalancer : LoadBalancer := mkLoadBalancer ∅.

(** [lb.counters[name]]: the zero value when the key is absent. *)
Definition counter_of (lb : LoadBalancer) (name : string) : Z :=
  default 0 (counters lb !! name).

(** [RoundRobin]: the URL at [counter % len], then the cursor is set to
    [(counter + 1) % len].  An empty list is an error and leaves the
    cursor map untouched.  The index expression panics before the store
    when it is out of range. *)
Definition RoundRobin (lb : LoadBalancer) (service : Service)
    : outcome (result string) * LoadBalancer :=
  if len (URLs service) =? 0 then
    (Return (Err (errors_New "no URLs available for service")), lb)
  else
    let counter := counter_of lb (Name service) in
    match index (URLs service) (Z.rem counter (len (URLs service))) with
    | Panic => (Panic, lb)
    | Return url =>
        (Return (Ok url),
         mkLoadBalancer
           (<[Name service := Z.rem (wrap64 (counter + 1)) (len (URLs service))]>
              (counters lb)))
    end.

(** [n] consecutive calls for the same (unmodified) service entry: the
    values returned, in call order, and the final balancer. *)
Fixpoint RoundRobin_calls (n : nat) (lb : LoadBalancer) (service : Service)
    : list (outcome (result string)) * LoadBalancer :=
  match n with
  | O => ([], lb)
  | S n' =>
      let '(r, lb1) := RoundRobin lb service in
      let '(rs, lb2) := RoundRobin_calls n' lb1 service in
      (r :: rs, lb2)
  end.

(** What the [i]-th of a run of calls returns when the run starts at
    cursor [c]: the URL at index [(c + i) mod len]. *)
Definition selected (service : Service) (c : Z) (i : nat)
    : outcome (result string) :=
  match index (URLs service) ((c + Z.of_nat i) mod len (URLs service)) with
  | Return url => Return (Ok url)
  | Panic => Panic
  end.

(** The balancer states the program can be in: the fresh one, and what
    [RoundRobin] makes of a reachable one.  A slice has at most [max_int]
    elements. *)
Inductive lb_reachable : LoadBalancer -> Prop :=
| lb_reach_new : lb_reachable NewLoadBalancer
| lb_reach_call lb service :
    lb_reachable lb ->
    len (URLs service) <= max_int ->
    lb_reachable (snd (RoundRobin lb service)).

(** ** Registry and balancer together

    The operations that touch the cursor map and the URL lists, as the
    handlers issue them: [RegisterService] calls [Register];
    [ProxyRequest] calls [Get] and, on success, [RoundRobin] on the entry
    it got.  The two calls of [ProxyRequest] are separate critical
    sections: [op_RoundRobin] is a selection on the current entry,
    [op_RoundRobin_entry] a selection on an entry that was read before
    other operations took place. *)
Inductive routing_op : Type :=
| op_Register (name : string) (urls : list string) (healthURL : string)
| op_Unregister (name : string)
| op_SetActive (name : string) (active : bool)
| op_RoundRobin (name : string)
| op_RoundRobin_entry (svc : Service).

Definition routing_step (st : Registry * LoadBalancer) (o : routing_op)
    : Registry * LoadBalancer :=
  let '(r, lb) := st in
  match o with
  | op_Register name urls healthURL => (Register r name urls healthURL, lb)
  | op_Unregister name => (snd (Unregister r name), lb)
  | op_SetActive name active => (snd (SetActive r name active), lb)
  | op_RoundRobin name =>
      match Get r name with
      | Ok svc => (r, snd (RoundRobin lb svc))
      | Err _ => (r, lb)
      end
  | op_RoundRobin_entry svc => (r, snd (RoundRobin lb svc))
  end.

Definition routing_run (svcs : list ServiceConfig) (ops : list routing_op)
    : Registry * LoadBalancer :=
  foldl routing_step (NewRegistry svcs, NewLoadBalancer) ops.

(** Every URL list handed to the registry is a slice. *)
Definition op_fits (o : routing_op) : Prop :=
  match o with
  | op_Register _ urls _ => len urls <= max_int
  | op_RoundRobin_entry svc => len (URLs svc) <= max_int
  | _ => True
  end.

(** The invariant the data model states for the cursor map: the cursor
    stored for a registered name indexes that service's current list. *)
Definition cursor_in_range (st : Registry * LoadBalancer) : Prop :=
  forall name svc c,
    services (fst st) !! name = Some svc ->
    counters (snd st) !! name = Some c ->
    0 <= c < len (URLs svc).

(** Entries are stored under their own name, and their URL lists are
    slices. *)
Definition registry_ok (r : Registry) : Prop :=
  forall name svc,
    services r !! name = Some svc ->
    Name svc = name /\ len (URLs svc) <= max_int.

(** A service with three instances, two selections, then a
    re-registration with a single instance. *)
Definition shrink_trace : list routing_op :=
  [ op_Register "users" ["http://u0"; "http://u1"; "http://u2"] "/health";
    op_RoundRobin "users";
    op_RoundRobin "users";
    op_Register "users" ["http://u0"] "/health" ]%string.

(** ** Package strings (Go standard library)

    A Go string is a sequence of bytes: [string] with [ascii] as the
    byte. *)

Definition byte_val (c : ascii) : Z := Z.of_N (N_of_ascii c).

Definition is_upper (c : ascii) : bool := (65 <=? byte_val c) && (byte_val c <=? 90).
Definition is_lower (c : ascii) : bool := (97 <=? byte_val c) && (byte_val c <=? 122).

(** A byte below [utf8.RuneSelf]. *)
Definition is_ascii (c : ascii) : bool := byte_val c <? 128.

(** [c + 'a' - 'A'] and [c - ('a' - 'A')] on a byte. *)
Definition to_lower (c : ascii) : ascii :=
  if is_upper c then ascii_of_N (N_of_ascii c + 32) else c.
Definition to_upper (c : ascii) : ascii :=
  if is_lower c then ascii_of_N (N_of_ascii c - 32) else c.

(** [strings.TrimPrefix]. *)
Definition TrimPrefix (s prefix : string) : string :=
  if String.prefix prefix s
  then String.substring (String.length prefix)
         (String.length s - String.length prefix) s
  else s.

(** The loop of [strings.genSplit]: at most [cuts] cuts at the first
    occurrence of [sep], the rest of the string being the last piece. *)
Fixpoint split_loop (cuts : nat) (s sep : string) : list string :=
  match cuts with
  | O => [s]
  | S cuts' =>
      match String.index 0 sep s with
      | None => [s]
      | Some m =>
          String.substring 0 m s
          :: split_loop cuts'
               (String.substring (m + String.length sep)
                  (String.length s - (m + String.length sep)) s)
               sep
      end
  end.

(** [strings.SplitN(s, sep, n)] for a non-empty separator (the proxy
    splits on "/"): no piece for [n = 0], every piece for [n < 0], at most
    [n] pieces otherwise.  The result is empty only when [n = 0]. *)
Definition SplitN (s sep : string) (n : Z) : list string :=
  if n =? 0 then []
  else if n <? 0 then split_loop (String.length s) s sep
  else split_loop (Z.to_nat (Z.min n (Z.of_nat (String.length s) + 1) - 1)) s sep.

(** [strings.EqualFold].  The source of the function has two parts: a
    byte loop that handles ASCII, left as soon as either byte is not
    ASCII, and a rune loop over the rest that needs the Unicode folding
    tables.  The byte loop is embedded as it is written; what the rune
    loop answers on the two remaining suffixes is the parameter
    [fold_runes]. *)
Section EqualFold.
Variable fold_runes : string -> string -> bool.

(** The comparison of two ASCII bytes in the byte loop: equal, or the
    smaller one is an upper-case letter and the larger one is its
    lower-case form. *)
Definition ascii_fold_eq (sr tr : ascii) : bool :=
  if Ascii.eqb tr sr then true
  else
    let lo := if byte_val tr <? byte_val sr then tr else sr in
    let hi := if byte_val tr <? byte_val sr then sr else tr in
    is_upper lo && (byte_val hi =? byte_val lo + 32).

Fixpoint EqualFold (s t : string) : bool :=
  match s, t with
  | EmptyString, EmptyString => true
  | EmptyString, String _ _ => false
  | String _ _, EmptyString => false
  | String sr s', String tr t' =>
      if (128 <=? byte_val sr) || (128 <=? byte_val tr) then fold_runes s t
      else if ascii_fold_eq sr tr then EqualFold s' t'
      else false
  end.

(** ** Package handler: hop-by-hop headers (proxy.go) *)

Definition hopByHopHeaders : list string :=
  [ "Connection"; "Keep-Alive"; "Proxy-Authenticate"; "Proxy-Authorization";
    "Te"; "Trailers"; "Transfer-Encoding"; "Upgrade" ]%string.

Definition isHopByHopHeader (header : string) : bool :=
  existsb (fun h => EqualFold header h) hopByHopHeaders.

End EqualFold.

(** ** Package net/http: headers (Go standard library) *)

(** [textproto.validHeaderFieldByte]: the token characters of RFC 7230. *)
Definition validHeaderFieldByte (c : ascii) : bool :=
  let v := byte_val c in
  ((48 <=? v) && (v <=? 57)) || is_upper c || is_lower c
  || existsb (Z.eqb v) [33; 35; 36; 37; 38; 39; 42; 43; 45; 46; 94; 95; 96; 124; 126].

(** The casing loop of [textproto.canonicalMIMEHeaderKey]: upper case at
    the start and after each '-', lower case elsewhere. *)
Fixpoint canon_loop (upper : bool) (s : string) : string :=
  match s with
  | EmptyString => EmptyString
  | String c s' =>
      let c' := if upper then to_upper c else to_lower c in
      String c' (canon_loop (byte_val c' =? 45) s')
  end.

Fixpoint string_forallb (f : ascii -> bool) (s : string) : bool :=
  match s with
  | EmptyString => true
  | String c s' => f c && string_forallb f s'
  end.

(** [textproto.CanonicalMIMEHeaderKey]: a key with a byte that is not a
    token character (a space included) is returned unchanged. *)
Definition CanonicalMIMEHeaderKey (s : string) : string :=
  if string_forallb validHeaderFieldByte s then canon_loop true s else s.

(** [http.Header] is [map[string][]string]. *)
Abbreviation Header := (gmap string (list string)).

(** [h[key]]: nil when absent. *)
Definition Header_values (h : Header) (key : string) : list string :=
  default [] (h !! key).

Definition Header_Add (h : Header) (key value : string) : Header :=
  let k := CanonicalMIMEHeaderKey key in
  <[k := Header_values h k ++ [value]]> h.

Definition Header_Set (h : Header) (key value : string) : Header :=
  <[CanonicalMIMEHeaderKey key := [value]]> h.

Definition Header_Del (h : Header) (key : string) : Header :=
  delete (CanonicalMIMEHeaderKey key) h.

Definition Header_Values (h : Header) (key : string) : list string :=
  Header_values h (CanonicalMIMEHeaderKey key).

Definition Header_Get (h : Header) (key : string) : string :=
  match Header_Values h key with
  | [] => ""%string
  | v :: _ => v
  end.

(** ** Package time (Go standard library)

    A [time.Time] is the number of nanoseconds since the zero [Time]
    (so [IsZero] is [= 0]); a [time.Duration] is a number of
    nanoseconds. *)
Definition Second : Z := 1000000000.
Definition Minute : Z := 60 * Second.

(** ** The circuit breaker (github.com/sony/gobreaker)

    The breaker is a dependency of the repository and not among its
    sources.  The definitions of this section follow section 4.3 of the
    specification (the states Closed, Open and Half-Open, the
    consecutive-failure counter, the time-based transitions) for the
    [Settings] that breaker.go passes: [MaxRequests] trial calls while
    Half-Open, counts cleared every [Interval] while Closed, [Timeout] of
    cool-down while Open, [ReadyToTrip] deciding when a Closed breaker
    opens.  breaker.go sets no [IsSuccessful]: an operation has failed
    when it returns an error. *)

(** Modelled from the spec: the three states of section 4.3. *)
Inductive State : Type := StateClosed | StateHalfOpen | StateOpen.

#[global] Instance State_eq_dec : EqDecision State.
Proof. solve_decision. Defined.

Definition wrap_u32 (z : Z) : Z := z mod 2 ^ 32.
Definition wrap_u64 (z : Z) : Z := z mod 2 ^ 64.

(** Modelled from the spec: the counters of a breaker (32-bit unsigned);
    section 4.3 names the consecutive failures. *)
Record Counts : Type := mkCounts {
  Requests : Z;
  TotalSuccesses : Z;
  TotalFailures : Z;
  ConsecutiveSuccesses : Z;
  ConsecutiveFailures : Z
}.

(** Modelled from the spec: the cleared counters. *)
Definition Counts_zero : Counts := mkCounts 0 0 0 0 0.

(** Modelled from the spec: an admitted call is counted. *)
Definition Counts_onRequest (c : Counts) : Counts :=
  mkCounts (wrap_u32 (Requests c + 1)) (TotalSuccesses c) (TotalFailures c)
           (ConsecutiveSuccesses c) (ConsecutiveFailures c).

(** Modelled from the spec: "each success resets it to zero". *)
Definition Counts_onSuccess (c : Counts) : Counts :=
  mkCounts (Requests c) (wrap_u32 (TotalSuccesses c + 1)) (TotalFailures c)
           (wrap_u32 (ConsecutiveSuccesses c + 1)) 0.

(** Modelled from the spec: "each failure increments a
    consecutive-failure counter". *)
Definition Counts_onFailure (c : Counts) : Counts :=
  mkCounts (Requests c) (TotalSuccesses c) (wrap_u32 (TotalFailures c + 1))
           0 (wrap_u32 (ConsecutiveFailures c + 1)).

(** Modelled from the spec: the configuration of a breaker, with the
    fields that breaker.go fills in; an absent callback is [None]. *)
Record Settings : Type := mkSettings {
  st_Name : string;
  st_MaxRequests : Z;
  st_Interval : Z;
  st_Timeout : Z;
  st_ReadyToTrip : option (Counts -> bool);
  st_IsSuccessful : option (option error -> bool)
}.

(** Modelled from the spec: a breaker is its settings, its state, the
    generation of its counts, the counts, and the time at which the
    current interval or cool-down ends ([0] for none). *)
Record CircuitBreaker : Type := mkCircuitBreaker {
  cb_name : string;
  cb_maxRequests : Z;
  cb_interval : Z;
  cb_timeout : Z;
  cb_readyToTrip : Counts -> bool;
  cb_isSuccessful : option error -> bool;
  cb_state : State;
  cb_generation : Z;
  cb_counts : Counts;
  cb_expiry : Z
}.

(** Modelled from the spec: the two rejections of the breaker, which are
    not errors of the operation. *)
Definition ErrOpenState : error := errors_New "circuit breaker is open".
Definition ErrTooManyRequests : error := errors_New "too many requests".

(** Modelled from the spec: the library's default trip rule (breaker.go
    passes its own). *)
Definition defaultReadyToTrip (counts : Counts) : bool :=
  5 <? ConsecutiveFailures counts.

(** Modelled from the spec: an operation has succeeded when it reports no
    error. *)
Definition defaultIsSuccessful (err : option error) : bool :=
  match err with None => true | Some _ => false end.

(** Modelled from the spec: field updates of a breaker. *)
Definition with_state (cb : CircuitBreaker) (st : State) : CircuitBreaker :=
  mkCircuitBreaker (cb_name cb) (cb_maxRequests cb) (cb_interval cb) (cb_timeout cb)
    (cb_readyToTrip cb) (cb_isSuccessful cb) st (cb_generation cb) (cb_counts cb)
    (cb_expiry cb).

Definition with_counts (cb : CircuitBreaker) (c : Counts) : CircuitBreaker :=
  mkCircuitBreaker (cb_name cb) (cb_maxRequests cb) (cb_interval cb) (cb_timeout cb)
    (cb_readyToTrip cb) (cb_isSuccessful cb) (cb_state cb) (cb_generation cb) c
    (cb_expiry cb).

(** Modelled from the spec: a new generation.  The counts are cleared
    and the expiry is set from the state (end of the counting interval
    when Closed, end of the cool-down when Open, none when Half-Open). *)
Definition toNewGeneration (cb : CircuitBreaker) (now : Z) : CircuitBreaker :=
  mkCircuitBreaker (cb_name cb) (cb_maxRequests cb) (cb_interval cb) (cb_timeout cb)
    (cb_readyToTrip cb) (cb_isSuccessful cb) (cb_state cb)
    (wrap_u64 (cb_generation cb + 1)) Counts_zero
    (match cb_state cb with
     | StateClosed => if cb_interval cb =? 0 then 0 else now + cb_interval cb
     | StateOpen => now + cb_timeout cb
     | StateHalfOpen => 0
     end).

(** Modelled from the spec: a transition records its time and resets
    the counts. *)
Definition setState (cb : CircuitBreaker) (st : State) (now : Z) : CircuitBreaker :=
  if decide (cb_state cb = st) then cb
  else toNewGeneration (with_state cb st) now.

(** Modelled from the spec: a breaker starts Closed; unset settings take
    the library defaults. *)
Definition NewCircuitBreaker (st : Settings) (now : Z) : CircuitBreaker :=
  toNewGeneration
    (mkCircuitBreaker (st_Name st)
       (if st_MaxRequests st =? 0 then 1 else st_MaxRequests st)
       (if st_Interval st <=? 0 then 0 else st_Interval st)
       (if st_Timeout st <=? 0 then 60 * Second else st_Timeout st)
       (default defaultReadyToTrip (st_ReadyToTrip st))
       (default defaultIsSuccessful (st_IsSuccessful st))
       StateClosed 0 Counts_zero 0)
    now.

(** Modelled from the spec: the state at [now].  A Closed breaker whose
    interval has expired starts a new generation; an Open breaker whose
    cool-down has expired becomes Half-Open. *)
Definition currentState (cb : CircuitBreaker) (now : Z) : CircuitBreaker :=
  match cb_state cb with
  | StateClosed =>
      if negb (cb_expiry cb =? 0) && (cb_expiry cb <? now)
      then toNewGeneration cb now else cb
  | StateOpen =>
      if cb_expiry cb <? now then setState cb StateHalfOpen now else cb
  | StateHalfOpen => cb
  end.

(** Modelled from the spec: the admission rule.  An Open breaker
    rejects; a Half-Open breaker rejects beyond [MaxRequests] trial
    calls; an admitted call is counted. *)
Definition beforeRequest (cb : CircuitBreaker) (now : Z) : result Z * CircuitBreaker :=
  let cb1 := currentState cb now in
  match cb_state cb1 with
  | StateOpen => (Err ErrOpenState, cb1)
  | StateHalfOpen =>
      if cb_maxRequests cb1 <=? Requests (cb_counts cb1)
      then (Err ErrTooManyRequests, cb1)
      else (Ok (cb_generation cb1), with_counts cb1 (Counts_onRequest (cb_counts cb1)))
  | StateClosed =>
      (Ok (cb_generation cb1), with_counts cb1 (Counts_onRequest (cb_counts cb1)))
  end.

(** Modelled from the spec: a success resets the consecutive failures;
    [MaxRequests] consecutive trial successes close a Half-Open breaker. *)
Definition onSuccess (cb : CircuitBreaker) (now : Z) : CircuitBreaker :=
  match cb_state cb with
  | StateClosed => with_counts cb (Counts_onSuccess (cb_counts cb))
  | StateHalfOpen =>
      let cb1 := with_counts cb (Counts_onSuccess (cb_counts cb)) in
      if cb_maxRequests cb1 <=? ConsecutiveSuccesses (cb_counts cb1)
      then setState cb1 StateClosed now else cb1
  | StateOpen => cb
  end.

(** Modelled from the spec: a failure is counted and opens a Closed
    breaker that is ready to trip; any trial failure re-opens a Half-Open
    breaker. *)
Definition onFailure (cb : CircuitBreaker) (now : Z) : CircuitBreaker :=
  match cb_state cb with
  | StateClosed =>
      let cb1 := with_counts cb (Counts_onFailure (cb_counts cb)) in
      if cb_readyToTrip cb1 (cb_counts cb1) then setState cb1 StateOpen now else cb1
  | StateHalfOpen => setState cb StateOpen now
  | StateOpen => cb
  end.

(** Modelled from the spec: the outcome of a call is recorded in the
    generation that admitted it, and dropped when that generation is
    over. *)
Definition afterRequest (cb : CircuitBreaker) (now : Z) (before : Z) (success : bool)
    : CircuitBreaker :=
  let cb1 := currentState cb now in
  if negb (cb_generation cb1 =? before) then cb1
  else if success then onSuccess cb1 now else onFailure cb1 now.

Definition result_err {A} (r : result A) : option error :=
  match r with Ok _ => None | Err e => Some e end.

(** Modelled from the spec: [Execute] applies the admission rule at
    [now_before]; when admitted, the operation runs and its outcome is
    recorded at [now_after], as a success or a failure "based on whether
    the operation reports failure"; the operation's own result is
    returned. *)
Definition Execute {A} (cb : CircuitBreaker) (now_before now_after : Z)
    (req : unit -> result A) : result A * CircuitBreaker :=
  match beforeRequest cb now_before with
  | (Err e, cb1) => (Err e, cb1)
  | (Ok generation, cb1) =>
      let r := req tt in
      (r, afterRequest cb1 now_after generation (cb_isSuccessful cb1 (result_err r)))
  end.

(** ** Package circuit: the breaker manager (breaker.go) *)

Record CircuitBreakerConfig : Type := mkCircuitBreakerConfig {
  Threshold : Z;
  Timeout : Z
}.

Record BreakerManager : Type := mkBreakerManager {
  breakers : gmap string CircuitBreaker;
  config : CircuitBreakerConfig
}.

Definition NewBreakerManager (cfg : CircuitBreakerConfig) : BreakerManager :=
  mkBreakerManager ∅ cfg.

(** The [Settings] of [GetBreaker]: no [IsSuccessful]; the [OnStateChange]
    callback has an empty body. *)
Definition breaker_settings (bm : BreakerManager) (serviceName : string) : Settings :=
  mkSettings serviceName 3 Minute (Timeout (config bm))
    (Some (fun counts => wrap_u32 (Threshold (config bm)) <=? ConsecutiveFailures counts))
    None.

Definition GetBreaker (bm : BreakerManager) (serviceName : string) (now : Z)
    : CircuitBreaker * BreakerManager :=
  match breakers bm !! serviceName with
  | Some breaker => (breaker, bm)
  | None =>
      let breaker := NewCircuitBreaker (breaker_settings bm serviceName) now in
      (breaker, mkBreakerManager (<[serviceName := breaker]> (breakers bm)) (config bm))
  end.

(** ** Package handler: the proxy (proxy.go) *)

(** The inbound request as the handler reads it off [*gin.Context]:
    route parameters, [c.Request], what [io.ReadAll(c.Request.Body)]
    returns, what [c.RemoteIP()] returns (the address part of
    [c.Request.RemoteAddr], the peer of the connection; the empty string
    when the address does not split), and the headers already set on the
    response writer by the middleware. *)
Record Context : Type := mkContext {
  Param : string -> string;
  Method : string;
  RawQuery : string;
  Body : result string;
  Headers : Header;
  Proto : string;
  Host : string;
  RemoteIP : string;
  Writer_Header : Header
}.

(** What [c.ClientIP()] calls in the Go standard library:
    - [ParseIP]: [net.ParseIP], [None] for the nil address;
    - [IP_String]: [net.IP.String];
    - [TrimSpace]: [strings.TrimSpace] (its white space is Unicode's). *)
Class NetIP : Type := {
  IP : Type;
  ParseIP : string -> option IP;
  IP_String : IP -> string;
  TrimSpace : string -> string
}.

Section ClientIP.
Context `{NetIP}.

(** [engine.isTrustedProxy(ip)].  The engine is built with [gin.New()]
    and its trusted proxies are never set, so they are gin's default,
    the blocks 0.0.0.0/0 and ::/0, which contain every address. *)
Definition isTrustedProxy (ip : IP) : bool := true.

(** The loop of [engine.validateHeader], which visits the items from the
    last to the first: [items_rev] is the list of items reversed.  An
    item that is no address ends it; the first item, or an item that
    is no trusted proxy, is the client. *)
Fixpoint validate_items (items_rev : list string) : string * bool :=
  match items_rev with
  | [] => (""%string, false)
  | item :: before =>
      let ipStr := TrimSpace item in
      match ParseIP ipStr with
      | None => (""%string, false)
      | Some ip =>
          if (len before =? 0) || negb (isTrustedProxy ip) then (ipStr, true)
          else validate_items before
      end
  end.

(** [engine.validateHeader(header)]. *)
Definition validateHeader (header : string) : string * bool :=
  if String.eqb header "" then (""%string, false)
  else validate_items (reverse (SplitN header "," (-1))).

(** [c.ClientIP()] of gin for that engine: no trusted platform,
    [ForwardedByClientIP] set and the remote IP headers X-Forwarded-For
    and X-Real-IP, of each of which [c.requestHeader] reads the first
    value. *)
Definition ClientIP (c : Context) : string :=
  match ParseIP (RemoteIP c) with
  | None => ""%string
  | Some remoteIP =>
      let trusted := isTrustedProxy remoteIP in
      if trusted then
        let '(ip, valid) := validateHeader (Header_Get (Headers c) "X-Forwarded-For") in
        if valid then ip
        else
          let '(ip, valid) := validateHeader (Header_Get (Headers c) "X-Real-IP") in
          if valid then ip else IP_String remoteIP
      else IP_String remoteIP
  end.

End ClientIP.

(** The outbound [*http.Request]. *)
Record Request : Type := mkRequest {
  req_Method : string;
  req_URL : string;
  req_Body : string;
  req_Header : Header
}.

(** The backend's [*http.Response]; [resp_Body] is what
    [io.ReadAll(resp.Body)] returns. *)
Record BackendResponse : Type := mkBackendResponse {
  resp_StatusCode : Z;
  resp_Header : Header;
  resp_Body : result string
}.

Record ProxyResponse : Type := mkProxyResponse {
  StatusCode : Z;
  pr_Headers : Header;
  pr_Body : string;
  ContentType : string
}.

(** Modelled from the spec: package pkg/utils is not among the sources.
    [utils.ErrorResponse(c, status, message)] and
    [utils.SuccessResponse(c, status, message, data)] answer with the given
    status and the JSON envelope of section 6; the handlers below pass
    the status and the message themselves.  [Data] is gin's [c.Data]: the
    relayed backend response. *)
Inductive Response : Type :=
| ErrorResponse (status : Z) (message : string)
| SuccessResponse (status : Z) (message : string)
| Data (status : Z) (headers : Header) (contentType : string) (body : string).

Definition Response_status (r : Response) : Z :=
  match r with
  | ErrorResponse status _ => status
  | SuccessResponse status _ => status
  | Data status _ _ _ => status
  end.

Definition StatusOK : Z := 200.
Definition StatusBadRequest : Z := 400.
Definition StatusNotFound : Z := 404.
Definition StatusTooManyRequests : Z := 429.
Definition StatusInternalServerError : Z := 500.
Definition StatusServiceUnavailable : Z := 503.

(** What the handler calls outside the repository and the Go semantics it
    depends on:
    - [fold_runes]: the rune loop of [strings.EqualFold];
    - [url_Parse], [URL_with_RawQuery], [URL_String]: package net/url;
    - [NewRequest_err]: the error [http.NewRequest] returns for a method
      and URL it rejects;
    - [client_Do]: the backend's answer to an outbound request (an error
      for a transport failure or the 30 s timeout);
    - [range_Header]: the order in which [range] visits a header map;
    - [External_NetIP]: package net and [strings.TrimSpace], for
      [c.ClientIP()]. *)
Class External : Type := {
  External_NetIP :: NetIP;
  fold_runes : string -> string -> bool;
  URL : Type;
  url_Parse : string -> result URL;
  URL_with_RawQuery : URL -> string -> URL;
  URL_String : URL -> string;
  NewRequest_err : string -> string -> option error;
  client_Do : Request -> result BackendResponse;
  range_Header : Header -> list (string * list string)
}.

Section Proxy.
Context `{External}.

(** [for key, values := range h { if !isHopByHopHeader(key) { for each
    value: out.Add(key, value) } }]. *)
Definition copy_headers (entries : list (string * list string)) (out : Header)
    : Header :=
  foldl (fun out kv =>
           if negb (isHopByHopHeader fold_runes (fst kv)) then
             foldl (fun out value => Header_Add out (fst kv) value) out (snd kv)
           else out)
        out entries.

(** No key of the header map is a hop-by-hop name. *)
Definition no_hop_by_hop (h : Header) : Prop :=
  forall k, is_Some (h !! k) -> isHopByHopHeader fold_runes k = false.

(** The headers that [forwardRequest] sets itself. *)
Definition forwarding_headers : list string :=
  [ "X-Forwarded-For"; "X-Forwarded-Proto"; "X-Forwarded-Host" ]%string.

(** The request that [forwardRequest] hands to [client.Do], or the error
    that ends it before. *)
Definition outbound_request (c : Context) (targetURL path : string) : result Request :=
  match url_Parse (targetURL ++ path) with
  | Err err => Err err
  | Ok fullURL =>
      let fullURL := URL_with_RawQuery fullURL (RawQuery c) in
      match Body c with
      | Err err => Err err
      | Ok body =>
          match NewRequest_err (Method c) (URL_String fullURL) with
          | Some err => Err err
          | None =>
              let header := copy_headers (range_Header (Headers c)) ∅ in
              let header := Header_Set header "X-Forwarded-For" (ClientIP c) in
              let header := Header_Set header "X-Forwarded-Proto" (Proto c) in
              let header := Header_Set header "X-Forwarded-Host" (Host c) in
              Ok (mkRequest (Method c) (URL_String fullURL) body header)
          end
      end
  end.

Definition forwardRequest (c : Context) (targetURL path : string)
    : result ProxyResponse :=
  match outbound_request c targetURL path with
  | Err err => Err err
  | Ok req =>
      match client_Do req with
      | Err err => Err err
      | Ok resp =>
          match resp_Body resp with
          | Err err => Err err
          | Ok respBody =>
              Ok (mkProxyResponse (resp_StatusCode resp) (resp_Header resp) respBody
                    (Header_Get (resp_Header resp) "Content-Type"))
          end
      end
  end.

(** [c.Header(key, value)] of gin: an empty value deletes the key. *)
Definition gin_Header (w : Header) (key value : string) : Header :=
  if String.eqb value "" then Header_Del w key else Header_Set w key value.

(** [writeContentType(w, value)] of gin's package render, which every
    renderer calls before the body: the Content-Type of the response is
    set unless the header map holds one already.  [c.JSON] passes
    [jsonContentType], [c.Data] its [contentType] argument. *)
Definition writeContentType (w : Header) (value : list string) : Header :=
  if len (default [] (w !! "Content-Type"%string)) =? 0
  then <["Content-Type"%string := value]> w
  else w.

Definition jsonContentType : list string := [ "application/json; charset=utf-8"%string ].

Definition relay_headers (entries : list (string * list string)) (w : Header) : Header :=
  foldl (fun w kv => foldl (fun w value => gin_Header w (fst kv) value) w (snd kv))
        w entries.

Record ProxyHandler : Type := mkProxyHandler {
  registry : Registry;
  loadBalancer : LoadBalancer;
  breakerManager : BreakerManager
}.

(** The three readings of the clock during one request: when the breaker
    is created, when the call is admitted, when its outcome is recorded. *)
Record Clock : Type := mkClock {
  now_create : Z;
  now_before : Z;
  now_after : Z
}.

Definition ProxyRequest (p : ProxyHandler) (c : Context) (clk : Clock)
    : outcome Response * ProxyHandler :=
  let path := Param c "path" in
  let parts := SplitN (TrimPrefix path "/") "/" 2 in
  if len parts =? 0 then
    (Return (ErrorResponse StatusBadRequest "Invalid request path"), p)
  else
    match index parts 0 with
    | Panic => (Panic, p)
    | Return serviceName =>
        match (if 1 <? len parts then
                 match index parts 1 with
                 | Return rest => Return ("/" ++ rest)%string
                 | Panic => Panic
                 end
               else Return ""%string) with
        | Panic => (Panic, p)
        | Return remainingPath =>
            match Get (registry p) serviceName with
            | Err _ => (Return (ErrorResponse StatusNotFound "Service not found"), p)
            | Ok svc =>
                match RoundRobin (loadBalancer p) svc with
                | (Panic, lb) => (Panic, mkProxyHandler (registry p) lb (breakerManager p))
                | (Return (Err _), lb) =>
                    (Return (ErrorResponse StatusServiceUnavailable "No available instances"),
                     mkProxyHandler (registry p) lb (breakerManager p))
                | (Return (Ok targetURL), lb) =>
                    let '(breaker, bm) :=
                      GetBreaker (breakerManager p) serviceName (now_create clk) in
                    let '(result, breaker) :=
                      Execute breaker (now_before clk) (now_after clk)
                        (fun _ => forwardRequest c targetURL remainingPath) in
                    let p' :=
                      mkProxyHandler (registry p) lb
                        (mkBreakerManager (<[serviceName := breaker]> (breakers bm))
                           (config bm)) in
                    match result with
                    | Err _ =>
                        (Return (ErrorResponse StatusServiceUnavailable
                                   "Service temporarily unavailable"), p')
                    | Ok response =>
                        (Return (Data (StatusCode response)
                                   (relay_headers (range_Header (pr_Headers response))
                                      (Writer_Header c))
                                   (ContentType response) (pr_Body response)), p')
                    end
                end
            end
        end
    end.

(** [UnregisterService]: [DELETE /services/:name]. *)
Definition UnregisterService (p : ProxyHandler) (c : Context)
    : Response * ProxyHandler :=
  match Unregister (registry p) (Param c "name") with
  | (Some err, r) =>
      (ErrorResponse StatusNotFound (error_Error err),
       mkProxyHandler r (loadBalancer p) (breakerManager p))
  | (None, r) =>
      (SuccessResponse StatusOK "Service unregistered successfully",
       mkProxyHandler r (loadBalancer p) (breakerManager p))
  end.

End Proxy.

(** A concrete [NetIP] for the examples.  Its addresses are the IPv4
    addresses in dotted decimal, four fields from 0 to 255 without a
    leading zero, which [net.ParseIP] accepts and [IP.String] prints as
    they were written; its white space is ASCII's.  (The IPv6 text that
    [net.ParseIP] accepts as well is none of the examples'.) *)
Definition is_space (c : ascii) : bool :=
  (byte_val c =? 32) || ((9 <=? byte_val c) && (byte_val c <=? 13)).

Fixpoint trim_left (s : string) : string :=
  match s with
  | String c s' => if is_space c then trim_left s' else s
  | EmptyString => EmptyString
  end.

Fixpoint decimal_value (acc : Z) (s : string) : option Z :=
  match s with
  | EmptyString => Some acc
  | String c s' =>
      if (48 <=? byte_val c) && (byte_val c <=? 57)
      then decimal_value (10 * acc + (byte_val c - 48)) s'
      else None
  end.

Definition ipv4_field (s : string) : bool :=
  match s with
  | EmptyString => false
  | String c s' =>
      negb ((byte_val c =? 48) && negb (String.eqb s' ""))
      && match decimal_value 0 s with
         | Some n => n <=? 255
         | None => false
         end
  end.

Definition ipv4_text : NetIP :=
  {| IP := string;
     ParseIP := fun s =>
       let fields := SplitN s "." (-1) in
       if (len fields =? 4) && forallb ipv4_field fields then Some s else None;
     IP_String := fun ip => ip;
     TrimSpace := fun s => String.rev (trim_left (String.rev (trim_left s))) |}.

(** A concrete environment for the examples: a URL is kept as its text
    and its query, every method and URL is accepted, a header map is
    visited in the order of [map_to_list], and the backend gives the same
    answer to every request.  (The rune loop of [EqualFold] is not
    reached on ASCII header names.) *)
Definition fixed_backend (answer : result BackendResponse) : External :=
  {| External_NetIP := ipv4_text;
     fold_runes := fun _ _ => false;
     URL := string * string;
     url_Parse := fun raw => Ok (raw, ""%string);
     URL_with_RawQuery := fun u q => (fst u, q);
     URL_String := fun u =>
       if String.eqb (snd u) "" then fst u else (fst u ++ "?" ++ snd u)%string;
     NewRequest_err := fun _ _ => None;
     client_Do := fun _ => answer;
     range_Header := map_to_list |}.

(** [GET /api/v1/users/users/1] from the peer 10.0.0.7; the route
    [/users/*path] binds [path]. *)
Definition example_context : Context :=
  mkContext (fun key => if String.eqb key "path" then "/users/1" else "")%string
    "GET" "page=2" (Ok ""%string)
    (<["Accept" := ["*/*"]]> (<["Connection" := ["keep-alive"]]> ∅))%string
    "HTTP/1.1" "gateway.local" "10.0.0.7" ∅.

(** The same request with two headers of the client's own making:
    [X-Forwarded-For: 9.9.9.9] and [X-Forwarded-Proto: https]. *)
Definition forwarded_context : Context :=
  mkContext (fun key => if String.eqb key "path" then "/users/1" else "")%string
    "GET" "page=2" (Ok ""%string)
    (<["X-Forwarded-For" := ["9.9.9.9"]]>
       (<["X-Forwarded-Proto" := ["https"]]>
          (<["Accept" := ["*/*"]]> (<["Connection" := ["keep-alive"]]> ∅))))%string
    "HTTP/1.1" "gateway.local" "10.0.0.7" ∅.

(** A backend that answers every request with status 500. *)
Definition failing_backend : External :=
  fixed_backend
    (Ok (mkBackendResponse 500 (<["Content-Type" := ["text/plain"]]> ∅)
           (Ok "internal error")))%string.

(** A backend that cannot be reached. *)
Definition unreachable_backend : External :=
  fixed_backend (Err (errors_New "connection refused")).

(** The outbound request for [example_context] towards "http://u0". *)
Definition example_request : Request :=
  mkRequest "GET" "http://u0/1?page=2" ""
    (<["X-Forwarded-Host" := ["gateway.local"]]>
       (<["X-Forwarded-Proto" := ["HTTP/1.1"]]>
          (<["X-Forwarded-For" := ["10.0.0.7"]]>
             (<["Accept" := ["*/*"]]> ∅))))%string.

(** The outbound request for [forwarded_context] towards "http://u0". *)
Definition forwarded_request : Request :=
  mkRequest "GET" "http://u0/1?page=2" ""
    (<["X-Forwarded-Host" := ["gateway.local"]]>
       (<["X-Forwarded-Proto" := ["HTTP/1.1"]]>
          (<["X-Forwarded-For" := ["9.9.9.9"]]>
             (<["Accept" := ["*/*"]]> ∅))))%string.

(** The service name [ProxyRequest] reads off the [path] parameter:
    [parts[0]]. *)
Definition path_parts (c : Context) : list string :=
  SplitN (TrimPrefix (Param c "path") "/") "/" 2.

Definition request_serviceName (c : Context) : string :=
  default ""%string (head (path_parts c)).

(** Handler states for the examples: "users" registered with an
    instance, then deactivated. *)
Definition example_handler : ProxyHandler :=
  mkProxyHandler
    (NewRegistry [mkServiceConfig "users" ["http://u0"] "/health"])%string
    NewLoadBalancer
    (NewBreakerManager (mkCircuitBreakerConfig 5 (30 * Second))).

Definition inactive_handler : ProxyHandler :=
  mkProxyHandler
    (snd (SetActive (registry example_handler) "users" false))
    NewLoadBalancer
    (NewBreakerManager (mkCircuitBreakerConfig 5 (30 * Second))).

Definition example_clock : Clock := mkClock 1000 1000 2000.

(** [GET /api/v1/users/]: the [path] parameter is "/". *)
Definition slash_context : Context :=
  mkContext (fun key => if String.eqb key "path" then "/" else "")%string
    "GET" "" (Ok ""%string) ∅ "HTTP/1.1" "gateway.local" "10.0.0.7" ∅.

(** Every breaker of the manager uses the default success test, as the
    breakers [GetBreaker] creates do. *)
Definition breakers_default (bm : BreakerManager) : Prop :=
  forall name cb, breakers bm !! name = Some cb ->
    cb_isSuccessful cb = defaultIsSuccessful.

(** ** float64 and package math (Go language and standard library)

    Every operation is rounded on its own, as on amd64 (no fused
    multiply-add). *)

Abbreviation float64 := spec_float.

Definition f64_add : float64 -> float64 -> float64 := SFadd 53 1024.
Definition f64_sub : float64 -> float64 -> float64 := SFsub 53 1024.
Definition f64_mul : float64 -> float64 -> float64 := SFmul 53 1024.
Definition f64_div : float64 -> float64 -> float64 := SFdiv 53 1024.
Definition f64_lt : float64 -> float64 -> bool := SFltb.
Definition f64_eq : float64 -> float64 -> bool := SFeqb.

(** The conversion [float64(n)] of an integer. *)
Definition float64_of_int (n : Z) : float64 := binary_normalize 53 1024 n 0 false.

Definition f64_zero : float64 := S754_zero false.
Definition f64_one : float64 := float64_of_int 1.

Definition f64_is_nan (x : float64) : bool :=
  match x with S754_nan => true | _ => false end.

Definition f64_is_inf (x : float64) (negative : bool) : bool :=
  match x with S754_infinity s => Bool.eqb s negative | _ => false end.

Definition f64_signbit (x : float64) : bool :=
  match x with
  | S754_zero s | S754_infinity s | S754_finite s _ _ => s
  | S754_nan => false
  end.

(** [math.Min]. *)
Definition math_Min (x y : float64) : float64 :=
  if f64_is_inf x true || f64_is_inf y true then S754_infinity true
  else if f64_is_nan x || f64_is_nan y then S754_nan
  else if f64_eq x f64_zero && f64_eq x y then (if f64_signbit x then x else y)
  else if f64_lt x y then x else y.

(** The mathematical floor of a float that has one. *)
Definition f64_floor (x : float64) : option Z :=
  match x with
  | S754_zero _ => Some 0
  | S754_finite s m e =>
      Some (if 0 <=? e then cond_Zopp s (Zpos m) * 2 ^ e
            else cond_Zopp s (Zpos m) / 2 ^ (- e))
  | _ => None
  end.

(** The integer toward zero from a float that has one. *)
Definition f64_trunc (x : float64) : option Z :=
  match x with
  | S754_zero _ => Some 0
  | S754_finite s m e =>
      Some (if 0 <=? e then cond_Zopp s (Zpos m) * 2 ^ e
            else Z.quot (cond_Zopp s (Zpos m)) (2 ^ (- e)))
  | _ => None
  end.

(** [math.Floor]: zeros, infinities and NaN are returned as they are;
    a float with a non-negative exponent is an integer already. *)
Definition math_Floor (x : float64) : float64 :=
  match x with
  | S754_finite s m e =>
      if 0 <=? e then x else float64_of_int (cond_Zopp s (Zpos m) / 2 ^ (- e))
  | _ => x
  end.

(** [math.Ceil(x)] is [-Floor(-x)]. *)
Definition math_Ceil (x : float64) : float64 := SFopp (math_Floor (SFopp x)).

(** ** Package strconv (Go standard library) *)

(** What a [Parse] function returns: the value; a syntax error, with the
    zero value; or a range error, with the nearest bound. *)
Inductive parsed (A : Type) : Type :=
| Parsed (v : A)
| ErrSyntax
| ErrRange (v : A).
Arguments Parsed {A} v.
Arguments ErrSyntax {A}.
Arguments ErrRange {A} v.

(** The value of [v, _ := Parse...]: the error is dropped. *)
Definition parsed_value {A} (zero : A) (p : parsed A) : A :=
  match p with
  | Parsed v => v
  | ErrSyntax => zero
  | ErrRange v => v
  end.

Definition digit_val (c : ascii) : option Z :=
  if (48 <=? byte_val c) && (byte_val c <=? 57) then Some (byte_val c - 48) else None.

(** The digit loop of [strconv.ParseUint(s, 10, 64)]. *)
Fixpoint ParseUint_loop (s : string) (n : Z) : parsed Z :=
  match s with
  | EmptyString => Parsed n
  | String c s' =>
      match digit_val c with
      | None => ErrSyntax
      | Some d =>
          if (2 ^ 64 - 1) / 10 + 1 <=? n then ErrRange (2 ^ 64 - 1)
          else if 2 ^ 64 - 1 <? n * 10 + d then ErrRange (2 ^ 64 - 1)
          else ParseUint_loop s' (n * 10 + d)
      end
  end.

Definition ParseUint (s : string) : parsed Z :=
  match s with
  | EmptyString => ErrSyntax
  | _ => ParseUint_loop s 0
  end.

(** [strconv.ParseInt(s, 10, 64)]. *)
Definition ParseInt (s : string) : parsed Z :=
  match s with
  | EmptyString => ErrSyntax
  | String c s' =>
      let neg := Ascii.eqb c "-" in
      let digits := if Ascii.eqb c "+" || neg then s' else s in
      match ParseUint digits with
      | ErrSyntax => ErrSyntax
      | ErrRange un | Parsed un =>
          if negb neg && (2 ^ 63 <=? un) then ErrRange max_int
          else if neg && (2 ^ 63 <? un) then ErrRange min_int
          else Parsed (if neg then - un else un)
      end
  end.

(** [strconv.Itoa] and [strconv.FormatInt(n, 10)]. *)
Definition Itoa (n : Z) : string := NilZero.string_of_int (Z.to_int n).

(** The parts of the Go runtime and of package strconv that the rate
    limiter depends on and that are not modelled further:
    - [ParseFloat]: [strconv.ParseFloat(s, 64)];
    - [FormatFloat]: [strconv.FormatFloat(x, 'f', -1, 64)], the text
      under which the Redis client stores a [float64];
    - [int_of_invalid]: what the conversion [int(x)] yields for a float
      that no [int] represents (the language leaves it to the
      implementation). *)
Class FloatText : Type := {
  ParseFloat : string -> parsed float64;
  FormatFloat : float64 -> string;
  int_of_invalid : float64 -> Z
}.

(** The conversion [int(x)] and [int64(x)]: toward zero. *)
Definition int_of_float64 `{FloatText} (x : float64) : Z :=
  match f64_trunc x with
  | Some n => if (min_int <=? n) && (n <=? max_int) then n else int_of_invalid x
  | None => int_of_invalid x
  end.

(** [time.Duration.Seconds]. *)
Definition Duration_Seconds (d : Z) : float64 :=
  f64_add (float64_of_int (Z.quot d Second))
          (f64_div (float64_of_int (Z.rem d Second)) (float64_of_int 1000000000)).

(** ** The Redis store

    A key holds a hash and, once [EXPIRE] was issued with a positive
    number of seconds, a time to live ([ttl] is the number of seconds
    last set; the later removal of the key by the server, when that time
    has passed, is not modelled).  [EXPIRE] with zero or a negative
    number of seconds deletes the key.  The commands of a transaction
    pipeline take effect together when [Exec] succeeds; a failed [Exec]
    stands for a connection that did not deliver them. *)
Record RedisEntry : Type := mkRedisEntry {
  fields : gmap string string;
  ttl : option Z
}.

Abbreviation Redis := (gmap string RedisEntry).

Inductive RedisCmd : Type :=
| HSet (key field value : string)
| Expire (key : string) (expiration : Z).

Definition HGetAll (db : Redis) (key : string) : gmap string string :=
  match db !! key with
  | Some entry => fields entry
  | None => ∅
  end.

(** [formatSec] of the Redis client: the duration that [Expire] is given,
    as the whole seconds that the [EXPIRE] command carries. *)
Definition formatSec (dur : Z) : Z :=
  if (0 <? dur) && (dur <? Second) then 1 else Z.quot dur Second.

Definition redis_apply (db : Redis) (cmd : RedisCmd) : Redis :=
  match cmd with
  | HSet key field value =>
      <[key := mkRedisEntry (<[field := value]> (HGetAll db key))
                 (db !! key ≫= ttl)]> db
  | Expire key expiration =>
      match db !! key with
      | Some entry =>
          let seconds := formatSec expiration in
          if seconds <=? 0 then delete key db
          else <[key := mkRedisEntry (fields entry) (Some seconds)]> db
      | None => db
      end
  end.

Definition Exec (db : Redis) (cmds : list RedisCmd) (err : option error)
    : option error * Redis :=
  match err with
  | Some e => (Some e, db)
  | None => (None, foldl redis_apply db cmds)
  end.

(** What the two [Exec] calls of one request return: the read of the
    bucket, and the write. *)
Record RedisLink : Type := mkRedisLink {
  read_err : option error;
  write_err : option error
}.

(** ** Package middleware: the rate limiter (ratelimit.go) *)

Record RateLimitConfig : Type := mkRateLimitConfig {
  cfg_Requests : Z;
  cfg_Window : Z
}.

(** How the middleware leaves the chain: [c.Next()], or [c.JSON(status,
    {"error": message})] and [c.Abort()]; [written] is the header map of
    the response writer then. *)
Inductive Verdict : Type :=
| Next
| Abort (status : Z) (message : string).

Record Limited : Type := mkLimited {
  verdict : Verdict;
  written : Header
}.

Section RateLimiter.
Context `{FloatText} `{NetIP}.

(** The token count after the refill (lines 51 to 59). *)
Definition refilled_tokens (cfg : RateLimitConfig) (bucketData : gmap string string)
    (now : Z) : float64 :=
  let tokensStr := default ""%string (bucketData !! "tokens"%string) in
  let timestampStr := default ""%string (bucketData !! "timestamp"%string) in
  let tokens := parsed_value f64_zero (ParseFloat tokensStr) in
  let lastTimestamp := parsed_value 0 (ParseInt timestampStr) in
  let elapsed := wrap64 (now - lastTimestamp) in
  let refillRate :=
    f64_div (float64_of_int (cfg_Requests cfg)) (Duration_Seconds (cfg_Window cfg)) in
  let tokensToAdd := f64_mul (float64_of_int elapsed) refillRate in
  math_Min (float64_of_int (cfg_Requests cfg)) (f64_add tokens tokensToAdd).

Definition RateLimiter (redis : Redis) (cfg : RateLimitConfig) (c : Context)
    (now : Z) (link : RedisLink) : Limited * Redis :=
  let ip := ClientIP c in
  let key := ("ratelimit:" ++ ip)%string in
  let bucketData := HGetAll redis key in
  if bool_decide (is_Some (read_err link)) || (Z.of_nat (size bucketData) =? 0) then
    let initialTokens := wrap64 (cfg_Requests cfg - 1) in
    match Exec redis
            [ HSet key "tokens" (Itoa initialTokens);
              HSet key "timestamp" (Itoa now);
              Expire key (wrap64 (cfg_Window cfg * 2)) ]
            (write_err link) with
    | (Some _, redis') =>
        (mkLimited (Abort StatusInternalServerError "Rate limiter error")
           (writeContentType (Writer_Header c) jsonContentType), redis')
    | (None, redis') => (mkLimited Next (Writer_Header c), redis')
    end
  else
    let refillRate :=
      f64_div (float64_of_int (cfg_Requests cfg)) (Duration_Seconds (cfg_Window cfg)) in
    let tokens := refilled_tokens cfg bucketData now in
    if f64_lt tokens f64_one then
      let retryAfter :=
        int_of_float64 (math_Ceil (f64_div (f64_sub f64_one tokens) refillRate)) in
      let w := gin_Header (Writer_Header c) "X-RateLimit-Limit" (Itoa (cfg_Requests cfg)) in
      let w := gin_Header w "X-RateLimit-Remaining" "0" in
      let w := gin_Header w "X-RateLimit-Reset" (Itoa (wrap64 (now + retryAfter))) in
      let w := gin_Header w "Retry-After" (Itoa retryAfter) in
      let w := writeContentType w jsonContentType in
      (mkLimited
         (Abort StatusTooManyRequests "Rate limit exceeded. Please try again later.")
         w, redis)
    else
      let tokens := f64_sub tokens f64_one in
      match Exec redis
              [ HSet key "tokens" (FormatFloat tokens);
                HSet key "timestamp" (Itoa now) ]
              (write_err link) with
      | (Some _, redis') =>
          (mkLimited (Abort StatusInternalServerError "Rate limiter error")
             (writeContentType (Writer_Header c) jsonContentType), redis')
      | (None, redis') =>
          let w := gin_Header (Writer_Header c) "X-RateLimit-Limit"
                     (Itoa (cfg_Requests cfg)) in
          let w := gin_Header w "X-RateLimit-Remaining" (Itoa (int_of_float64 tokens)) in
          let w := gin_Header w "X-RateLimit-Reset"
                     (Itoa (wrap64 (now + int_of_float64 (Duration_Seconds (cfg_Window cfg))))) in
          (mkLimited Next w, redis')
      end.

End RateLimiter.

(** A concrete [FloatText] for the examples.  It agrees with Go on
    what the examples give it: [ParseFloat] on decimal integer literals
    within the [int64] range and on "abc" and "xyz", which are no
    numbers; [FormatFloat] on integer-valued floats.  [int_of_invalid] is
    the result on amd64. *)
Definition integer_text : FloatText :=
  {| ParseFloat := fun s =>
       match ParseInt s with
       | Parsed n => Parsed (float64_of_int n)
       | _ => ErrSyntax
       end;
     FormatFloat := fun x =>
       match x with
       | S754_zero true => "-0"%string
       | _ => Itoa (default 0 (f64_trunc x))
       end;
     int_of_invalid := fun _ => min_int |}.

(** 100 requests per minute; a client at 10.0.0.7. *)
Definition example_limits : RateLimitConfig := mkRateLimitConfig 100 (60 * Second).

Definition bucket_of (tokens timestamp : string) : Redis :=
  {[ "ratelimit:10.0.0.7"%string :=
       mkRedisEntry (<["timestamp"%string := timestamp]> {[ "tokens"%string := tokens ]})
                    (Some 120) ]}.

Definition link_up : RedisLink := mkRedisLink None None.
Definition link_write_down : RedisLink :=
  mkRedisLink None (Some (errors_New "connection refused")).

(** ** Further definitions

    The rest of the packages: what the properties of the second half of
    Part II are about. *)

(** *** Package service *)

(** [Registry.List]: the entries, appended in the order in which [range]
    visits the map (which the language leaves open: [range_services]). *)
Definition List (range_services : gmap string Service -> list (string * Service))
    (r : Registry) : list Service :=
  foldl (fun services kv => services ++ [snd kv]) [] (range_services (services r)).

(** A sequence of [RoundRobin] calls, each for its own service entry: the
    values returned, in call order, and the final balancer. *)
Fixpoint RoundRobin_each (lb : LoadBalancer) (calls : list Service)
    : list (outcome (result string)) * LoadBalancer :=
  match calls with
  | [] => ([], lb)
  | service :: calls' =>
      let '(r, lb1) := RoundRobin lb service in
      let '(rs, lb2) := RoundRobin_each lb1 calls' in
      (r :: rs, lb2)
  end.

(** *** Package handler *)

(** The path [ProxyRequest] forwards: "/" and [parts[1]] when there is a
    second part, nothing otherwise. *)
Definition request_remainingPath (c : Context) : string :=
  match path_parts c with
  | _ :: rest :: _ => ("/" ++ rest)%string
  | _ => ""%string
  end.

(** A string without the byte '/'. *)
Definition no_slash (s : string) : bool :=
  string_forallb (fun b => negb (Ascii.eqb b "/")) s.

(** [strings.ToLower] on an ASCII string. *)
Fixpoint ToLower (s : string) : string :=
  match s with
  | EmptyString => EmptyString
  | String c s' => String (to_lower c) (ToLower s')
  end.

Section ProxyFor.
Context `{External}.

(** [ProxyRequest] from the registry lookup on (lines 56 to 95), for the
    service name and the remaining path read off the request. *)
Definition ProxyRequest_for (p : ProxyHandler) (c : Context) (clk : Clock)
    (serviceName remainingPath : string) : outcome Response * ProxyHandler :=
  match Get (registry p) serviceName with
  | Err _ => (Return (ErrorResponse StatusNotFound "Service not found"), p)
  | Ok svc =>
      match RoundRobin (loadBalancer p) svc with
      | (Panic, lb) => (Panic, mkProxyHandler (registry p) lb (breakerManager p))
      | (Return (Err _), lb) =>
          (Return (ErrorResponse StatusServiceUnavailable "No available instances"),
           mkProxyHandler (registry p) lb (breakerManager p))
      | (Return (Ok targetURL), lb) =>
          let '(breaker, bm) :=
            GetBreaker (breakerManager p) serviceName (now_create clk) in
          let '(result, breaker) :=
            Execute breaker (now_before clk) (now_after clk)
              (fun _ => forwardRequest c targetURL remainingPath) in
          let p' :=
            mkProxyHandler (registry p) lb
              (mkBreakerManager (<[serviceName := breaker]> (breakers bm))
                 (config bm)) in
          match result with
          | Err _ =>
              (Return (ErrorResponse StatusServiceUnavailable
                         "Service temporarily unavailable"), p')
          | Ok response =>
              (Return (Data (StatusCode response)
                         (relay_headers (range_Header (pr_Headers response))
                            (Writer_Header c))
                         (ContentType response) (pr_Body response)), p')
          end
      end
  end.

End ProxyFor.

(** The handler state as the program keeps it: entries stored under
    their own name with slices for URL lists, and a balancer reached by
    selections. *)
Definition handler_ok (p : ProxyHandler) : Prop :=
  registry_ok (registry p) /\ lb_reachable (loadBalancer p).

(** A backend response with a repeated header, an empty header and a
    hop-by-hop header. *)
Definition cookie_headers : Header :=
  (<["Set-Cookie" := ["a=1"; "b=2"]]>
     (<["X-Empty" := [""]]> (<["Connection" := ["close"]]> ∅)))%string.

(** The eight names of [hopByHopHeaders], in lower case. *)
Definition hopByHopHeaders_lower : list string :=
  [ "connection"; "keep-alive"; "proxy-authenticate"; "proxy-authorization";
    "te"; "trailers"; "transfer-encoding"; "upgrade" ]%string.

(** [DELETE /api/v1/admin/services/users]. *)
Definition delete_users_context : Context :=
  mkContext (fun key => if String.eqb key "name" then "users" else "")%string
    "DELETE" "" (Ok ""%string) ∅ "HTTP/1.1" "gateway.local" "10.0.0.7" ∅.

(** *** Package config *)

(** [strconv.Atoi] is [ParseInt(s, 10, 0)] with [int] of 64 bits. *)
Definition Atoi (s : string) : parsed Z := ParseInt s.

(** [getEnvAsInt]; [env] is what [os.Getenv] returns for each name (the
    empty string for a variable that is not set).  Every error of [Atoi]
    gives the default. *)
Definition getEnvAsInt (env : string -> string) (key : string) (defaultValue : Z) : Z :=
  match Atoi (env key) with
  | Parsed value => value
  | _ => defaultValue
  end.

(** A decimal digit. *)
Definition is_digit (c : ascii) : bool := (48 <=? byte_val c) && (byte_val c <=? 57).

(** The text after one leading sign. *)
Definition unsigned_part (s : string) : string :=
  match s with
  | EmptyString => EmptyString
  | String c s' => if Ascii.eqb c "+" || Ascii.eqb c "-" then s' else s
  end.

(** *** Package middleware: the rate limiter *)

(** The names under which the rate limiter's headers are stored on the
    response (the canonical forms of the names in the source). *)
Definition ratelimit_headers : list string :=
  [ "X-Ratelimit-Limit"; "X-Ratelimit-Remaining"; "X-Ratelimit-Reset";
    "Retry-After" ]%string.

(** [n] consecutive requests of one client, all at the Unix time [now]
    and with the store reachable: the verdicts, in order, and the final
    store. *)
Fixpoint RateLimiter_calls `{FloatText} `{NetIP} (n : nat) (redis : Redis)
    (cfg : RateLimitConfig) (c : Context) (now : Z) : list Verdict * Redis :=
  match n with
  | O => ([], redis)
  | S n' =>
      let '(l, redis1) := RateLimiter redis cfg c now link_up in
      let '(vs, redis2) := RateLimiter_calls n' redis1 cfg c now in
      (verdict l :: vs, redis2)
  end.

(** Two requests per window, the window set to minus one minute. *)
Definition negative_window_limits : RateLimitConfig :=
  mkRateLimitConfig 2 (- 60 * Second).

(** The largest capacity for which the arithmetic on token counts is
    checked value by value. *)
Definition checked_capacity : Z := 1000.

(** The float of a positive integer up to [checked_capacity]: a
    positive normal number whose value is the integer. *)
Definition is_small_int_float (n : Z) (x : float64) : bool :=
  match x with
  | S754_finite false m e =>
      (e <=? 0) && (Z.pos m =? n * 2 ^ (- e))
      && (2 ^ 52 <=? Z.pos m) && (Z.pos m <? 2 ^ 53)
  | _ => false
  end.

(** The bucket with [n] tokens stamped [now], as the limiter writes it. *)
Definition bucket_with (n now : Z) : gmap string string :=
  <["timestamp"%string := Itoa now]> {[ "tokens"%string := Itoa n ]}.

(** *** Package middleware: the request identifier *)

(** [s[i]] on a string: the byte, or a panic when [i] is out of range. *)
Definition string_index (s : string) (i : Z) : outcome ascii :=
  if (0 <=? i) && (i <? Z.of_nat (String.length s)) then
    match String.get (Z.to_nat i) s with
    | Some b => Return b
    | None => Panic
    end
  else Panic.

(** The alphabet of [randString]. *)
Definition letters : string := "abcdefghijklmnopqrstuvwxyz0123456789".

(** The loop of [randString] from index [i] on, [n] bytes to go;
    [UnixNano i] is what [time.Now().UnixNano()] returns in the iteration
    for index [i]. *)
Fixpoint randString_from (i n : nat) (UnixNano : nat -> Z) : outcome string :=
  match n with
  | O => Return ""%string
  | S n' =>
      match string_index letters
              (Z.rem (UnixNano i) (Z.of_nat (String.length letters))) with
      | Panic => Panic
      | Return b =>
          match randString_from (S i) n' UnixNano with
          | Panic => Panic
          | Return s => Return (String b s)
          end
      end
  end.

(** [randString(n)]; [make([]byte, n)] panics for a negative [n]. *)
Definition randString (n : Z) (UnixNano : nat -> Z) : outcome string :=
  if n <? 0 then Panic else randString_from 0 (Z.to_nat n) UnixNano.

(** [generateRequestID]; [formatted] is
    [time.Now().Format("20060102150405")]. *)
Definition generateRequestID (formatted : string) (UnixNano : nat -> Z)
    : outcome string :=
  match randString 8 UnixNano with
  | Panic => Panic
  | Return r => Return (formatted ++ "-" ++ r)%string
  end.

(** [RequestID]: the identifier stored under the context key
    "request_id", and the response headers, when the handler chain is
    entered. *)
Definition RequestID (c : Context) (formatted : string) (UnixNano : nat -> Z)
    : outcome (string * Header) :=
  let requestID := Header_Get (Headers c) "X-Request-ID" in
  match (if String.eqb requestID "" then generateRequestID formatted UnixNano
         else Return requestID) with
  | Panic => Panic
  | Return requestID =>
      Return (requestID, gin_Header (Writer_Header c) "X-Request-ID" requestID)
  end.

(** A clock for the examples. *)
Definition example_nanos (i : nat) : Z := 1700000000000000000 + 37 * Z.of_nat i.

(* ===================================================================== *)
(** * Part II: properties                                                 *)
(* ===================================================================== *)

(** ** The load balancer *)

Example RoundRobin_three :
  fst (RoundRobin_calls 4 NewLoadBalancer
         (mkService "users" ["u0"; "u1"; "u2"]%string "/health" true))
  = [Return (Ok "u0"); Return (Ok "u1"); Return (Ok "u2");
     Return (Ok "u0")]%string.
Proof. vm_compute. reflexivity. Qed.

Lemma wrap64_small z : min_int <= z <= max_int -> wrap64 z = z.
Proof.
  unfold wrap64, min_int, max_int. intros Hz.
  rewrite Z.mod_small by lia. lia.
Qed.

Lemma index_Return {A} (s : list A) (i : Z) :
  0 <= i < len s -> exists x, index s i = Return x /\ s !! Z.to_nat i = Some x.
Proof.
  intros Hi. unfold index, len in *.
  destruct (lookup_lt_is_Some_2 s (Z.to_nat i)) as [x Hx]; [lia|].
  exists x. rewrite Hx.
  replace ((0 <=? i) && (i <? Z.of_nat (length s))) with true; [done|].
  symmetry. apply andb_true_iff. split; [apply Z.leb_le | apply Z.ltb_lt]; lia.
Qed.

Lemma counter_of_insert lb name c name' :
  counter_of (mkLoadBalancer (<[name := c]> (counters lb))) name'
  = if decide (name = name') then c else counter_of lb name'.
Proof.
  unfold counter_of. simpl. rewrite lookup_insert.
  by destruct (decide (name = name')).
Qed.

(** One call on a non-empty list whose cursor is a non-negative value
    below [max_int]: no panic, the URL at [counter mod len], and the
    cursor advanced modulo [len]. *)
Lemma RoundRobin_step lb service :
  0 <= counter_of lb (Name service) < max_int ->
  1 <= len (URLs service) ->
  exists url,
    URLs service !! Z.to_nat (counter_of lb (Name service) mod len (URLs service))
      = Some url
    /\ RoundRobin lb service
       = (Return (Ok url),
          mkLoadBalancer
            (<[Name service := (counter_of lb (Name service) + 1) mod len (URLs service)]>
               (counters lb))).
Proof.
  intros Hc Hk. unfold RoundRobin.
  destruct (Z.eqb_spec (len (URLs service)) 0) as [E|_]; [lia|].
  rewrite Z.rem_mod_nonneg by lia.
  destruct (index_Return (URLs service)
              (counter_of lb (Name service) mod len (URLs service))) as (url & -> & Hurl).
  { apply Z.mod_pos_bound. lia. }
  exists url. split; [done|].
  rewrite wrap64_small by (unfold min_int, max_int in *; lia).
  rewrite Z.rem_mod_nonneg by lia. done.
Qed.

(** Every cursor of a reachable balancer is a non-negative [int] below
    [max_int]: the increment never overflows. *)
Lemma lb_reachable_counter lb name :
  lb_reachable lb -> 0 <= counter_of lb name < max_int.
Proof.
  induction 1 as [|lb service Hr IH Hlen] in name |- *.
  - unfold counter_of, NewLoadBalancer. simpl. rewrite lookup_empty. simpl.
    unfold max_int. lia.
  - unfold RoundRobin.
    destruct (Z.eqb_spec (len (URLs service)) 0) as [E|NE]; [apply IH|].
    assert (1 <= len (URLs service)) by (unfold len in *; lia).
    destruct (index _ _); [|apply IH]. simpl.
    rewrite counter_of_insert. destruct (decide _); [|apply IH].
    specialize (IH (Name service)).
    rewrite wrap64_small by (unfold min_int, max_int in *; lia).
    rewrite Z.rem_mod_nonneg by lia.
    pose proof (Z.mod_pos_bound (counter_of lb (Name service) + 1)
                  (len (URLs service))). lia.
Qed.

Lemma RoundRobin_calls_selected n lb service :
  0 <= counter_of lb (Name service) < max_int ->
  1 <= len (URLs service) <= max_int ->
  fst (RoundRobin_calls n lb service)
  = selected service (counter_of lb (Name service)) <$> seq 0 n
  /\ counter_of (snd (RoundRobin_calls n lb service)) (Name service)
     = (if n is O then counter_of lb (Name service)
        else (counter_of lb (Name service) + Z.of_nat n) mod len (URLs service)).
Proof.
  intros Hc Hk. revert lb Hc.
  induction n as [|n IH]; intros lb Hc; [done|].
  cbn [RoundRobin_calls].
  destruct (RoundRobin_step lb service) as (url & Hurl & ->); [done|lia|].
  set (lb1 := mkLoadBalancer _).
  assert (Hc1 : counter_of lb1 (Name service)
                = (counter_of lb (Name service) + 1) mod len (URLs service)).
  { unfold lb1. rewrite counter_of_insert. by rewrite decide_True. }
  assert (Hb1 : 0 <= counter_of lb1 (Name service) < max_int).
  { rewrite Hc1.
    pose proof (Z.mod_pos_bound (counter_of lb (Name service) + 1)
                  (len (URLs service))). lia. }
  destruct (IH lb1 Hb1) as [IH1 IH2].
  destruct (RoundRobin_calls n lb1 service) as [rs lb2]. simpl in *.
  split.
  - f_equal.
    + unfold selected. rewrite Z.add_0_r.
      destruct (index_Return (URLs service)
                  (counter_of lb (Name service) mod len (URLs service)))
        as (u & -> & Hu); [apply Z.mod_pos_bound; lia|]. congruence.
    + rewrite IH1, <- fmap_S_seq, <- list_fmap_compose.
      apply list_fmap_ext. intros _ i _. simpl. unfold selected.
      rewrite Hc1, Zplus_mod_idemp_l.
      by replace (counter_of lb (Name service) + 1 + Z.of_nat i)
        with (counter_of lb (Name service) + Z.of_nat (S i)) by lia.
  - rewrite IH2, Hc1. destruct n as [|n]; [f_equal; lia|].
    rewrite Zplus_mod_idemp_l. f_equal. lia.
Qed.

Lemma selected_rotate service c :
  0 <= c ->
  1 <= len (URLs service) ->
  selected service c <$> seq 0 (length (URLs service))
  = (fun url => Return (Ok url)) <$> rotate (Z.to_nat c) (URLs service).
Proof.
  intros Hc Hk. apply list_eq. intros i.
  rewrite !list_lookup_fmap.
  destruct (decide (i < length (URLs service))%nat) as [Hi|Hi].
  - rewrite lookup_seq_lt by done. rewrite lookup_rotate_r by done.
    simpl. unfold selected, rotate_nat_add. rewrite Z2Nat.id by done.
    fold (len (URLs service)).
    destruct (index_Return (URLs service)
                ((c + Z.of_nat i) mod len (URLs service)))
      as (u & -> & ->); [apply Z.mod_pos_bound; lia|]. done.
  - rewrite lookup_seq_ge by lia.
    rewrite (lookup_ge_None_2 (rotate _ _)); [done|].
    rewrite length_rotate. lia.
Qed.

Lemma rotate_Permutation {A} (n : nat) (l : list A) : rotate n l ≡ₚ l.
Proof.
  unfold rotate. rewrite Permutation_app_comm. by rewrite take_drop.
Qed.

(** C2.  For a service with [k >= 1] instances, [k] consecutive
    [RoundRobin] calls on a reachable balancer return each of the [k]
    URLs exactly once, in list order starting from the stored cursor
    (the list rotated by the cursor: the URLs from the cursor position to
    the end, then those before it), and the [(k+1)]-th call returns what
    the first of them returned. *)
Theorem C2_RoundRobin_cycle lb service :
  lb_reachable lb ->
  1 <= len (URLs service) <= max_int ->
  let k := length (URLs service) in
  let m := Z.to_nat (counter_of lb (Name service) mod len (URLs service)) in
  fst (RoundRobin_calls k lb service)
  = (fun url => Return (Ok url)) <$> (drop m (URLs service) ++ take m (URLs service))
  /\ drop m (URLs service) ++ take m (URLs service) ≡ₚ URLs service
  /\ fst (RoundRobin (snd (RoundRobin_calls k lb service)) service)
     = fst (RoundRobin lb service).
Proof.
  intros Hr Hk k m.
  pose proof (lb_reachable_counter lb (Name service) Hr) as Hc.
  destruct (RoundRobin_calls_selected k lb service Hc Hk) as [Hrets Hcur].
  assert (Hm : (drop m (URLs service) ++ take m (URLs service))
               = rotate (Z.to_nat (counter_of lb (Name service))) (URLs service)).
  { unfold rotate, m. do 2 f_equal; unfold len;
      rewrite <- (Nat2Z.id (_ `mod` _)%nat), Nat2Z.inj_mod, Z2Nat.id; lia. }
  split; [|split].
  - rewrite Hrets, Hm. apply selected_rotate; lia.
  - rewrite Hm. apply rotate_Permutation.
  - set (lb' := snd (RoundRobin_calls k lb service)) in *.
    assert (Hc' : counter_of lb' (Name service)
                  = counter_of lb (Name service) mod len (URLs service)).
    { rewrite Hcur. subst k. destruct (length (URLs service)) eqn:E.
      - unfold len in Hk. rewrite E in Hk. lia.
      - rewrite <- E. fold (len (URLs service)).
        rewrite <- Zplus_mod_idemp_r, Z_mod_same_full, Z.add_0_r. done. }
    pose proof (Z.mod_pos_bound (counter_of lb (Name service))
                  (len (URLs service))) as Hb.
    destruct (RoundRobin_step lb service) as (u & Hu & ->); [done|lia|].
    destruct (RoundRobin_step lb' service) as (u' & Hu' & ->); [lia|lia|].
    simpl. rewrite Hc', Z.mod_mod in Hu' by lia. congruence.
Qed.

Lemma C2_RoundRobin_cycle_witness :
  let service := mkService "users" ["u0"; "u1"; "u2"]%string "/health" true in
  let lb := snd (RoundRobin NewLoadBalancer service) in
  fst (RoundRobin_calls 3 lb service)
  = [Return (Ok "u1"); Return (Ok "u2"); Return (Ok "u0")]%string
  /\ fst (RoundRobin (snd (RoundRobin_calls 3 lb service)) service)
     = Return (Ok "u1"%string).
Proof.
  intros service lb.
  assert (Hr : lb_reachable lb).
  { apply lb_reach_call; [apply lb_reach_new | vm_compute; discriminate]. }
  assert (Hk : 1 <= len (URLs service) <= max_int).
  { vm_compute. split; discriminate. }
  destruct (C2_RoundRobin_cycle lb service Hr Hk) as (H1 & _ & H3).
  split; [exact H1 | exact H3].
Defined.

(** ** The registry *)

(** C9.  [Unregister] of an absent name fails with "service not found"
    and returns the registry unchanged; of a present name it succeeds,
    removes that entry and leaves every other entry as it was. *)
Theorem C9_Unregister_absent_or_exact (r : Registry) (name : string) :
  (services r !! name = None ->
     Unregister r name = (Some (errors_New "service not found"), r))
  /\ (is_Some (services r !! name) ->
     fst (Unregister r name) = None
     /\ services (snd (Unregister r name)) !! name = None
     /\ forall name', name' <> name ->
          services (snd (Unregister r name)) !! name' = services r !! name').
Proof.
  unfold Unregister. split.
  - by intros ->.
  - intros [svc ->]. simpl. split; [done|]. split.
    + apply lookup_delete_eq.
    + intros name' Hne. by apply lookup_delete_ne.
Qed.

(** [UnregisterService] answers 404 with the registry's message for a
    name that is not registered. *)
Lemma UnregisterService_absent p c :
  services (registry p) !! Param c "name" = None ->
  UnregisterService p c = (ErrorResponse StatusNotFound "service not found", p).
Proof.
  intros Hnone. unfold UnregisterService, Unregister. rewrite Hnone.
  by destruct p.
Qed.

(** ** Registry and balancer together *)

Lemma Register_ok r name urls healthURL :
  registry_ok r -> len urls <= max_int ->
  registry_ok (Register r name urls healthURL).
Proof.
  intros Hr Hu name' svc. unfold Register. simpl.
  rewrite lookup_insert. destruct (decide (name = name')) as [->|_].
  - intros [= <-]. done.
  - apply Hr.
Qed.

Lemma NewRegistry_ok svcs :
  Forall (fun c => len (cfg_URLs c) <= max_int) svcs ->
  registry_ok (NewRegistry svcs).
Proof.
  unfold NewRegistry.
  assert (Hnil : registry_ok (mkRegistry ∅)).
  { intros name svc. simpl. by rewrite lookup_empty. }
  revert Hnil. generalize (mkRegistry ∅).
  induction svcs as [|c svcs IH]; intros r Hr Hall; [done|].
  inversion Hall; subst. simpl. apply IH; [|done].
  by apply Register_ok.
Qed.

Lemma Get_Some r name svc :
  Get r name = Ok svc ->
  services r !! name = Some svc /\ Active svc = true.
Proof.
  unfold Get. destruct (services r !! name) as [s|]; [|done].
  destruct (Active s) eqn:E; simpl; [|done]. by intros [= <-].
Qed.

Lemma routing_step_ok st o :
  registry_ok (fst st) -> lb_reachable (snd st) -> op_fits o ->
  registry_ok (fst (routing_step st o)) /\ lb_reachable (snd (routing_step st o)).
Proof.
  destruct st as [r lb]. simpl. intros Hr Hlb Ho.
  destruct o as [name urls h|name|name active|name|svc]; simpl.
  - split; [by apply Register_ok | done].
  - split; [|done]. unfold Unregister.
    destruct (services r !! name) eqn:E; [|done]. simpl.
    intros name' svc. simpl. rewrite lookup_delete. case_decide; [done|]. apply Hr.
  - split; [|done]. unfold SetActive.
    destruct (services r !! name) as [s|] eqn:E; [|done]. simpl.
    intros name' svc. simpl. rewrite lookup_insert. case_decide; [|apply Hr].
    subst. intros [= <-]. simpl. by apply Hr.
  - destruct (Get r name) as [svc|e] eqn:E; simpl; [|done].
    split; [done|]. apply lb_reach_call; [done|].
    apply Get_Some in E as [E _]. by apply Hr in E as [_ ?].
  - split; [done|]. by apply lb_reach_call.
Qed.

Lemma routing_run_ok svcs ops :
  Forall (fun c => len (cfg_URLs c) <= max_int) svcs ->
  Forall op_fits ops ->
  registry_ok (fst (routing_run svcs ops))
  /\ lb_reachable (snd (routing_run svcs ops)).
Proof.
  intros Hs Hops. unfold routing_run.
  induction ops as [|o ops IH] using rev_ind.
  - simpl. split; [by apply NewRegistry_ok | constructor].
  - apply Forall_app in Hops as [Hops Ho]. inversion Ho; subst.
    rewrite foldl_app. simpl. destruct (IH Hops). by apply routing_step_ok.
Qed.

(** C6, as stated, fails: after [shrink_trace] the cursor stored for
    "users" is 2 while the current list has one URL. *)
Lemma C6_counterexample_shrink : ~ cursor_in_range (routing_run [] shrink_trace).
Proof.
  intros H.
  specialize (H "users"%string
                (mkService "users" ["http://u0"%string] "/health" true) 2).
  vm_compute in H. destruct H as [_ H]; [done|done|discriminate].
Qed.

(** C6 (amended).  In every state reached by registrations,
    unregistrations, activations and selections, in any order: a stored
    cursor is a non-negative [int]; a selection for an entry with
    [k >= 1] URLs never panics, returns the URL at [cursor mod k] and
    leaves the cursor in [[0, k)] for the list it used; [Register] does
    not touch the cursor map (so the cursor of a re-registered service
    is only brought back into range by the next selection). *)
Theorem C6_cursor_bounds svcs ops :
  Forall (fun c => len (cfg_URLs c) <= max_int) svcs ->
  Forall op_fits ops ->
  let st := routing_run svcs ops in
  (forall name c, counters (snd st) !! name = Some c -> 0 <= c < max_int)
  /\ (forall svc,
        1 <= len (URLs svc) <= max_int ->
        exists url,
          fst (RoundRobin (snd st) svc) = Return (Ok url)
          /\ URLs svc !! Z.to_nat (counter_of (snd st) (Name svc) mod len (URLs svc))
             = Some url
          /\ counters (snd (RoundRobin (snd st) svc)) !! Name svc
             = Some ((counter_of (snd st) (Name svc) + 1) mod len (URLs svc))
          /\ 0 <= (counter_of (snd st) (Name svc) + 1) mod len (URLs svc)
             < len (URLs svc))
  /\ (forall name svc,
        Get (fst st) name = Ok svc ->
        Name svc = name
        /\ routing_step st (op_RoundRobin name) = (fst st, snd (RoundRobin (snd st) svc)))
  /\ (forall name urls healthURL,
        snd (routing_step st (op_Register name urls healthURL)) = snd st).
Proof.
  intros Hs Hops st.
  destruct (routing_run_ok svcs ops Hs Hops) as [Hr Hlb]. fold st in Hr, Hlb.
  split; [|split; [|split]].
  - intros name c Hc.
    pose proof (lb_reachable_counter _ name Hlb) as Hb.
    unfold counter_of in Hb. by rewrite Hc in Hb.
  - intros svc Hk.
    pose proof (lb_reachable_counter _ (Name svc) Hlb) as Hb.
    destruct (RoundRobin_step (snd st) svc Hb) as (url & Hurl & HRR); [lia|].
    exists url. rewrite HRR. simpl.
    split; [done|]. split; [done|]. split; [apply lookup_insert_eq|].
    apply Z.mod_pos_bound. lia.
  - intros name svc HG.
    pose proof (Get_Some _ _ _ HG) as [Hsvc _].
    destruct (Hr _ _ Hsvc) as [Hname _]. split; [done|].
    destruct st as [r lb]. simpl in *. by rewrite HG.
  - intros name urls h. by destruct st.
Qed.

Lemma C6_cursor_bounds_witness :
  0 <= 2 < max_int
  /\ snd (routing_step (routing_run [] shrink_trace)
            (op_Register "users" ["http://u9"]%string "/health"))
     = snd (routing_run [] shrink_trace).
Proof.
  assert (Hs : Forall (fun c => len (cfg_URLs c) <= max_int) []) by constructor.
  assert (Hops : Forall op_fits shrink_trace).
  { repeat constructor; vm_compute; discriminate. }
  destruct (C6_cursor_bounds [] shrink_trace Hs Hops) as (H1 & _ & _ & H4).
  split.
  - apply (H1 "users"%string 2). reflexivity.
  - apply H4.
Defined.

(** ** Strings and headers *)

Example SplitN_examples :
  SplitN "" "/" 2 = [""%string]
  /\ SplitN "users" "/" 2 = ["users"%string]
  /\ SplitN "users/" "/" 2 = ["users"; ""]%string
  /\ SplitN "users/1/orders" "/" 2 = ["users"; "1/orders"]%string
  /\ SplitN "a/b/c" "/" (-1) = ["a"; "b"; "c"]%string
  /\ SplitN "a/b/c" "/" 0 = []
  /\ TrimPrefix "/users/1" "/" = "users/1"%string
  /\ TrimPrefix "users" "/" = "users"%string
  /\ TrimPrefix "//x" "/" = "/x"%string.
Proof. repeat split; reflexivity. Qed.

Example CanonicalMIMEHeaderKey_examples :
  CanonicalMIMEHeaderKey "content-type" = "Content-Type"%string
  /\ CanonicalMIMEHeaderKey "x-FORWARDED-for" = "X-Forwarded-For"%string
  /\ CanonicalMIMEHeaderKey "bad key" = "bad key"%string
  /\ CanonicalMIMEHeaderKey "X-Forwarded-For" = "X-Forwarded-For"%string.
Proof. repeat split; reflexivity. Qed.

Example isHopByHopHeader_examples fold_runes :
  isHopByHopHeader fold_runes "connection" = true
  /\ isHopByHopHeader fold_runes "KEEP-alive" = true
  /\ isHopByHopHeader fold_runes "Content-Type" = false
  /\ isHopByHopHeader fold_runes "X-Forwarded-For" = false
  /\ isHopByHopHeader fold_runes "T" = false.
Proof. repeat split; reflexivity. Qed.

(** *** Facts about bytes, checked on all of them *)

Lemma ascii_forall1 (f : ascii -> bool) :
  forallb (fun n => f (ascii_of_nat n)) (seq 0 256) = true ->
  forall c, f c = true.
Proof.
  intros Hall c. rewrite forallb_forall in Hall.
  rewrite <- (ascii_nat_embedding c). apply Hall.
  apply in_seq. pose proof (nat_ascii_bounded c). lia.
Qed.

Lemma ascii_forall2 (f : ascii -> ascii -> bool) :
  forallb (fun n => forallb (fun m => f (ascii_of_nat n) (ascii_of_nat m)) (seq 0 256))
          (seq 0 256) = true ->
  forall c d, f c d = true.
Proof.
  intros Hall c d.
  apply (ascii_forall1 (fun c => f c d)).
  rewrite forallb_forall in Hall |- *. intros n Hn.
  specialize (Hall n Hn). cbv beta in Hall.
  revert d. apply ascii_forall1. exact Hall.
Qed.

Lemma validHeaderFieldByte_ascii c :
  validHeaderFieldByte c = true -> is_ascii c = true.
Proof.
  revert c.
  assert (Hc : forall c, implb (validHeaderFieldByte c) (is_ascii c) = true).
  { apply ascii_forall1. vm_compute. reflexivity. }
  intros c Hv. specialize (Hc c). rewrite Hv in Hc. exact Hc.
Qed.

Lemma recase_facts c d :
  is_ascii c = true -> is_ascii d = true ->
  is_ascii (to_upper c) = true /\ is_ascii (to_lower c) = true
  /\ ascii_fold_eq (to_upper c) d = ascii_fold_eq c d
  /\ ascii_fold_eq (to_lower c) d = ascii_fold_eq c d.
Proof.
  revert c d.
  assert (Hc : forall c d,
             implb (is_ascii c && is_ascii d)
               (is_ascii (to_upper c) && is_ascii (to_lower c)
                && Bool.eqb (ascii_fold_eq (to_upper c) d) (ascii_fold_eq c d)
                && Bool.eqb (ascii_fold_eq (to_lower c) d) (ascii_fold_eq c d)) = true).
  { apply ascii_forall2. vm_compute. reflexivity. }
  intros c d Hc1 Hd1. specialize (Hc c d). rewrite Hc1, Hd1 in Hc. simpl in Hc.
  repeat (apply andb_true_iff in Hc as [Hc ?]).
  repeat split; try done; by apply Bool.eqb_prop.
Qed.

Lemma is_ascii_128 c : is_ascii c = true -> (128 <=? byte_val c) = false.
Proof. unfold is_ascii. intros Hc%Z.ltb_lt. apply Z.leb_gt. lia. Qed.

(** Recasing an ASCII string does not change how it compares, under
    [EqualFold], with an ASCII string: the rune loop is not reached. *)
Lemma EqualFold_canon_loop fr upper s t :
  string_forallb is_ascii s = true -> string_forallb is_ascii t = true ->
  EqualFold fr (canon_loop upper s) t = EqualFold fr s t.
Proof.
  revert upper t. induction s as [|c s IH]; intros upper t Hs Ht; [done|].
  simpl in Hs. apply andb_true_iff in Hs as [Hc Hs].
  destruct t as [|d t]; [done|].
  simpl in Ht. apply andb_true_iff in Ht as [Hd Ht].
  destruct (recase_facts c d Hc Hd) as (Hu & Hl & Hfu & Hfl).
  simpl. rewrite (is_ascii_128 c Hc), (is_ascii_128 d Hd). simpl.
  destruct upper.
  - rewrite (is_ascii_128 _ Hu). simpl. rewrite Hfu.
    destruct (ascii_fold_eq c d); [by apply IH | done].
  - rewrite (is_ascii_128 _ Hl). simpl. rewrite Hfl.
    destruct (ascii_fold_eq c d); [by apply IH | done].
Qed.

Lemma string_forallb_impl (f g : ascii -> bool) s :
  (forall c, f c = true -> g c = true) ->
  string_forallb f s = true -> string_forallb g s = true.
Proof.
  intros Hfg. induction s as [|c s IH]; [done|]. simpl.
  intros [Hc Hs]%andb_true_iff. rewrite (Hfg c Hc). by apply IH.
Qed.

(** A header name is hop-by-hop exactly when its canonical form is. *)
Lemma isHopByHopHeader_Canonical fr key :
  isHopByHopHeader fr (CanonicalMIMEHeaderKey key) = isHopByHopHeader fr key.
Proof.
  unfold CanonicalMIMEHeaderKey.
  destruct (string_forallb validHeaderFieldByte key) eqn:Hv; [|done].
  assert (Ha : string_forallb is_ascii key = true).
  { eapply string_forallb_impl; [apply validHeaderFieldByte_ascii | done]. }
  unfold isHopByHopHeader, hopByHopHeaders. simpl.
  rewrite !EqualFold_canon_loop by done. done.
Qed.

(** ** The proxy: outbound headers *)

Lemma Header_values_Add h key value k' :
  Header_values (Header_Add h key value) k'
  = if decide (CanonicalMIMEHeaderKey key = k')
    then Header_values h k' ++ [value] else Header_values h k'.
Proof.
  unfold Header_Add, Header_values. rewrite lookup_insert.
  destruct (decide (CanonicalMIMEHeaderKey key = k')) as [<-|]; done.
Qed.

Lemma Header_values_Set h key value k' :
  Header_values (Header_Set h key value) k'
  = if decide (CanonicalMIMEHeaderKey key = k') then [value] else Header_values h k'.
Proof.
  unfold Header_Set, Header_values. rewrite lookup_insert.
  destruct (decide (CanonicalMIMEHeaderKey key = k')); done.
Qed.

(** [writeContentType] leaves every other name alone, and a Content-Type
    that is set. *)
Lemma writeContentType_other w value k :
  k <> "Content-Type"%string -> writeContentType w value !! k = w !! k.
Proof.
  intros Hk. unfold writeContentType.
  destruct (len _ =? 0); [by rewrite lookup_insert_ne | done].
Qed.

Lemma Header_values_writeContentType w value k :
  k <> "Content-Type"%string ->
  Header_values (writeContentType w value) k = Header_values w k.
Proof. intros Hk. unfold Header_values. by rewrite writeContentType_other. Qed.

Lemma writeContentType_Content_Type w value :
  writeContentType w value !! "Content-Type"%string
  = match w !! "Content-Type"%string with
    | Some (v :: values) => Some (v :: values)
    | _ => Some value
    end.
Proof.
  unfold writeContentType.
  destruct (w !! "Content-Type"%string) as [[|v values]|] eqn:E; cbn [default from_option id].
  - change (len [] =? 0) with true. cbv iota. apply lookup_insert_eq.
  - replace (len (v :: values) =? 0) with false; [done|].
    symmetry. apply Z.eqb_neq. unfold len. simpl. lia.
  - change (len [] =? 0) with true. cbv iota. apply lookup_insert_eq.
Qed.

Lemma Header_values_Add_all h key values k' :
  Header_values (foldl (fun out value => Header_Add out key value) h values) k'
  = if decide (CanonicalMIMEHeaderKey key = k')
    then Header_values h k' ++ values else Header_values h k'.
Proof.
  revert h. induction values as [|v values IH]; intros h; simpl.
  - destruct (decide _); [by rewrite app_nil_r | done].
  - rewrite IH, Header_values_Add.
    destruct (decide _); [by rewrite <- app_assoc | done].
Qed.

Lemma Header_keys_Add_all h key values k' :
  is_Some (foldl (fun out value => Header_Add out key value) h values !! k') ->
  k' = CanonicalMIMEHeaderKey key \/ is_Some (h !! k').
Proof.
  revert h. induction values as [|v values IH]; intros h; simpl; [by right|].
  intros [Hk|Hk]%IH; [by left|].
  unfold Header_Add in Hk. rewrite lookup_insert in Hk.
  destruct (decide (CanonicalMIMEHeaderKey key = k')); [by left | by right].
Qed.

Section ProxyFacts.
Context `{External}.

Lemma copy_headers_no_hop entries out :
  no_hop_by_hop out -> no_hop_by_hop (copy_headers entries out).
Proof.
  revert out. induction entries as [|[key values] entries IH]; intros out Hout; [done|].
  unfold copy_headers. simpl. apply IH.
  destruct (isHopByHopHeader fold_runes key) eqn:Hkey; simpl; [done|].
  intros k' [->|Hk']%Header_keys_Add_all.
  - by rewrite isHopByHopHeader_Canonical.
  - by apply Hout.
Qed.

Lemma Header_Set_no_hop h key value :
  isHopByHopHeader fold_runes key = false ->
  no_hop_by_hop h -> no_hop_by_hop (Header_Set h key value).
Proof.
  intros Hkey Hh k'. unfold Header_Set. rewrite lookup_insert.
  destruct (decide _) as [<-|]; [|apply Hh].
  intros _. by rewrite isHopByHopHeader_Canonical.
Qed.

(** Copying only appends: what a key holds is a prefix of what it holds
    afterwards. *)
Lemma copy_headers_prefix entries out k' :
  Header_values out k' `prefix_of` Header_values (copy_headers entries out) k'.
Proof.
  revert out. induction entries as [|[key values] entries IH]; intros out; [done|].
  unfold copy_headers. simpl.
  etrans; [|apply IH].
  destruct (negb _); [|done]. simpl.
  rewrite Header_values_Add_all. destruct (decide _); [|done].
  by apply prefix_app_r.
Qed.

Lemma copy_headers_app l1 l2 out :
  copy_headers (l1 ++ l2) out = copy_headers l2 (copy_headers l1 out).
Proof. unfold copy_headers. apply foldl_app. Qed.

Lemma copy_headers_cons key values l out :
  copy_headers ((key, values) :: l) out
  = copy_headers l
      (if negb (isHopByHopHeader fold_runes key)
       then foldl (fun out value => Header_Add out key value) out values
       else out).
Proof. done. Qed.

Lemma copy_headers_values entries out key values :
  (key, values) ∈ entries ->
  isHopByHopHeader fold_runes key = false ->
  values `sublist_of` Header_values (copy_headers entries out) (CanonicalMIMEHeaderKey key).
Proof.
  intros (l1 & l2 & ->)%list_elem_of_split Hkey.
  rewrite copy_headers_app, copy_headers_cons, Hkey. simpl.
  match goal with |- _ `sublist_of` Header_values (copy_headers l2 ?o) ?k =>
    destruct (copy_headers_prefix l2 o k) as [rest ->] end.
  apply sublist_inserts_r.
  rewrite Header_values_Add_all, decide_True by done.
  apply sublist_inserts_l. done.
Qed.

Lemma copy_headers_other entries out k :
  (forall key values, (key, values) ∈ entries ->
     isHopByHopHeader fold_runes key = false -> CanonicalMIMEHeaderKey key <> k) ->
  Header_values (copy_headers entries out) k = Header_values out k.
Proof.
  revert out. induction entries as [|[key values] entries IH]; intros out Hother; [done|].
  rewrite copy_headers_cons, IH.
  - destruct (isHopByHopHeader fold_runes key) eqn:Hkey; simpl; [done|].
    rewrite Header_values_Add_all, decide_False; [done|].
    apply (Hother key values); [apply elem_of_cons; by left | done].
  - intros key' values' Hin. apply (Hother key' values').
    apply elem_of_cons. by right.
Qed.

(** When no other inbound name has the same canonical form, the outbound
    values of a copied header are exactly the inbound ones. *)
Lemma copy_headers_values_exact entries out key values :
  NoDup (entries.*1) ->
  (key, values) ∈ entries ->
  isHopByHopHeader fold_runes key = false ->
  (forall key' values', (key', values') ∈ entries ->
     CanonicalMIMEHeaderKey key' = CanonicalMIMEHeaderKey key -> key' = key) ->
  Header_values (copy_headers entries out) (CanonicalMIMEHeaderKey key)
  = Header_values out (CanonicalMIMEHeaderKey key) ++ values.
Proof.
  intros Hnodup (l1 & l2 & ->)%list_elem_of_split Hkey Huniq.
  rewrite fmap_app, fmap_cons in Hnodup. simpl in Hnodup.
  apply NoDup_app in Hnodup as (_ & Hl1 & [Hl2 _]%NoDup_cons).
  rewrite copy_headers_app, copy_headers_cons, Hkey. simpl.
  rewrite copy_headers_other.
  - rewrite Header_values_Add_all, decide_True by done.
    rewrite copy_headers_other; [done|].
    intros key' values' Hin _ Hcanon.
    apply (Hl1 key'); [by apply (list_elem_of_fmap_2 fst _ (key', values'))|].
    apply elem_of_cons. left. apply (Huniq key' values'); [|done].
    apply elem_of_app. by left.
  - intros key' values' Hin _ Hcanon. apply Hl2.
    replace key with key'.
    + by apply (list_elem_of_fmap_2 fst _ (key', values')).
    + apply (Huniq key' values'); [|done].
      apply elem_of_app. right. apply elem_of_cons. by right.
Qed.

End ProxyFacts.

Section ProxyHeaders.
Context `{External}.

Lemma outbound_request_header c targetURL path req :
  outbound_request c targetURL path = Ok req ->
  req_Header req
  = Header_Set
      (Header_Set
         (Header_Set (copy_headers (range_Header (Headers c)) ∅)
            "X-Forwarded-For" (ClientIP c))
         "X-Forwarded-Proto" (Proto c))
      "X-Forwarded-Host" (Host c).
Proof.
  unfold outbound_request.
  destruct (url_Parse _); [|done]. destruct (Body c); [|done].
  destruct (NewRequest_err _ _); [done|]. by intros [= <-].
Qed.


Lemma validate_items_all items_rev :
  items_rev <> [] ->
  Forall (fun item => is_Some (ParseIP (TrimSpace item))) items_rev ->
  validate_items items_rev = (TrimSpace (default ""%string (last items_rev)), true).
Proof.
  induction items_rev as [|item before IH]; [done|]. intros _ Hall.
  apply Forall_cons in Hall as [[ip Hip] Hbefore].
  cbn [validate_items]. rewrite Hip.
  destruct before as [|item' before]; [done|].
  rewrite IH by done. done.
Qed.


End ProxyHeaders.

Lemma example_request_built :
  @outbound_request failing_backend example_context "http://u0" "/1"
  = Ok example_request.
Proof. vm_compute. reflexivity. Qed.





(** ** The proxy: routing *)

Lemma SplitN_2 s :
  SplitN s "/" 2 = [s] \/ exists a b, SplitN s "/" 2 = [a; b].
Proof.
  unfold SplitN. simpl.
  destruct s as [|c s]; [by left|].
  replace (Z.to_nat (Z.min 2 (Z.of_nat (String.length (String c s)) + 1) - 1))
    with 1%nat by (simpl String.length; lia).
  cbn [split_loop]. destruct (String.index 0 "/" (String c s)); [right | left]; eauto.
Qed.

Section ProxyRouting.
Context `{External}.

Lemma ProxyRequest_lookup_failure p c clk e :
  Get (registry p) (request_serviceName c) = Err e ->
  ProxyRequest p c clk
  = (Return (ErrorResponse StatusNotFound "Service not found"), p).
Proof.
  unfold request_serviceName, path_parts, ProxyRequest.
  destruct (SplitN_2 (TrimPrefix (Param c "path") "/")) as [->|(a & b & ->)];
    simpl; by intros ->.
Qed.

(** C3 (amended).  When the lookup of the service name fails the proxy
    answers 404 "Service not found" and changes nothing, whether the name
    is absent from the registry or present but inactive; the two causes
    differ only in the error [Registry.Get] returns, which the handler
    drops. *)
Theorem C3_lookup_failure_is_NotFound p c clk :
  (services (registry p) !! request_serviceName c = None ->
     Get (registry p) (request_serviceName c) = Err (errors_New "service not found")
     /\ ProxyRequest p c clk
        = (Return (ErrorResponse StatusNotFound "Service not found"), p))
  /\ (forall svc,
        services (registry p) !! request_serviceName c = Some svc ->
        Active svc = false ->
        Get (registry p) (request_serviceName c) = Err (errors_New "service is inactive")
        /\ ProxyRequest p c clk
           = (Return (ErrorResponse StatusNotFound "Service not found"), p)).
Proof.
  split.
  - intros Hnone.
    assert (HG : Get (registry p) (request_serviceName c)
                 = Err (errors_New "service not found")).
    { unfold Get. by rewrite Hnone. }
    split; [done|]. by eapply ProxyRequest_lookup_failure.
  - intros svc Hsvc Hact.
    assert (HG : Get (registry p) (request_serviceName c)
                 = Err (errors_New "service is inactive")).
    { unfold Get. by rewrite Hsvc, Hact. }
    split; [done|]. by eapply ProxyRequest_lookup_failure.
Qed.

(** C5: the guard [len(parts) == 0] never holds, so no request is
    answered "Invalid request path"; with the path "/" or "" the service
    name is empty and the registry is consulted for it. *)
Theorem C5_empty_service_name_reaches_registry p c clk :
  fst (ProxyRequest p c clk)
  <> Return (ErrorResponse StatusBadRequest "Invalid request path")
  /\ (Param c "path" = "/"%string \/ Param c "path" = ""%string ->
      request_serviceName c = ""%string
      /\ (services (registry p) !! ""%string = None ->
          ProxyRequest p c clk
          = (Return (ErrorResponse StatusNotFound "Service not found"), p))).
Proof.
  split.
  - unfold ProxyRequest.
    destruct (SplitN_2 (TrimPrefix (Param c "path") "/")) as [->|(a & b & ->)];
      simpl.
    + destruct (Get _ _); [|done].
      destruct (RoundRobin _ _) as [[[?|?]|] ?]; try done.
      destruct (GetBreaker _ _ _), (Execute _ _ _ _) as [[?|?] ?]; done.
    + destruct (Get _ _); [|done].
      destruct (RoundRobin _ _) as [[[?|?]|] ?]; try done.
      destruct (GetBreaker _ _ _), (Execute _ _ _ _) as [[?|?] ?]; done.
  - intros Hpath.
    assert (Hname : request_serviceName c = ""%string).
    { unfold request_serviceName, path_parts. by destruct Hpath as [-> | ->]. }
    split; [done|]. intros Hnone.
    apply (ProxyRequest_lookup_failure p c clk (errors_New "service not found")).
    rewrite Hname. unfold Get. by rewrite Hnone.
Qed.

End ProxyRouting.

(** C3, as stated, fails: for a registered but inactive service the
    client sees 404, not 503. *)
Lemma C3_counterexample_inactive :
  Get (registry inactive_handler) "users" = Err (errors_New "service is inactive")
  /\ fst (@ProxyRequest failing_backend inactive_handler example_context example_clock)
     = Return (ErrorResponse 404 "Service not found")
  /\ 404 <> StatusServiceUnavailable.
Proof. repeat split; vm_compute; (reflexivity || discriminate). Qed.

(** C5 at the failing input: [GET /api/v1/users/] is answered 404 after
    the registry lookup of the empty name, not 400. *)
Example C5_slash_path :
  request_serviceName slash_context = ""%string
  /\ @ProxyRequest failing_backend example_handler slash_context example_clock
     = (Return (ErrorResponse 404 "Service not found"), example_handler).
Proof. split; vm_compute; reflexivity. Qed.

(** ** The circuit breaker around the proxied call *)

Lemma toNewGeneration_fields cb now :
  cb_counts (toNewGeneration cb now) = Counts_zero
  /\ cb_state (toNewGeneration cb now) = cb_state cb
  /\ cb_isSuccessful (toNewGeneration cb now) = cb_isSuccessful cb.
Proof. done. Qed.

Lemma setState_fields cb st now :
  cb_state (setState cb st now) = st
  /\ cb_isSuccessful (setState cb st now) = cb_isSuccessful cb
  /\ (cb_state cb <> st -> cb_counts (setState cb st now) = Counts_zero).
Proof. unfold setState. destruct (decide _); simpl; done. Qed.

Lemma currentState_fields cb now :
  cb_isSuccessful (currentState cb now) = cb_isSuccessful cb
  /\ (cb_state cb = StateClosed ->
      cb_state (currentState cb now) = StateClosed
      /\ (currentState cb now = cb
          \/ cb_counts (currentState cb now) = Counts_zero))
  /\ (cb_state cb = StateHalfOpen -> currentState cb now = cb).
Proof.
  unfold currentState. destruct (cb_state cb) eqn:E.
  - destruct (_ && _); simpl; repeat split; auto; done.
  - repeat split; auto; done.
  - destruct (_ <? _); [|done]. split; [apply setState_fields|done].
Qed.

Lemma beforeRequest_Ok cb now generation cb1 :
  beforeRequest cb now = (Ok generation, cb1) ->
  generation = cb_generation cb1
  /\ cb_state cb1 <> StateOpen
  /\ cb_isSuccessful cb1 = cb_isSuccessful cb.
Proof.
  unfold beforeRequest.
  pose proof (currentState_fields cb now) as (His & _ & _).
  destruct (cb_state (currentState cb now)) eqn:E.
  - intros [= <- <-]. simpl. by rewrite E.
  - destruct (_ <=? _); [done|]. intros [= <- <-]. simpl. by rewrite E.
  - done.
Qed.

(** Recording a success leaves no consecutive failure on the breaker. *)
Lemma afterRequest_success cb now :
  cb_state cb <> StateOpen ->
  ConsecutiveFailures (cb_counts (afterRequest cb now (cb_generation cb) true)) = 0.
Proof.
  intros Hst. unfold afterRequest.
  pose proof (currentState_fields cb now) as (_ & Hclosed & Hhalf).
  destruct (cb_state cb) eqn:E; [| |done].
  - destruct Hclosed as [Hs [Heq|Hzero]]; [done| |].
    + rewrite Heq, Z.eqb_refl. simpl. unfold onSuccess. by rewrite E.
    + destruct (negb _); [by rewrite Hzero|].
      unfold onSuccess. by rewrite Hs.
  - rewrite Hhalf, Z.eqb_refl by done. simpl. unfold onSuccess. rewrite E.
    destruct (_ <=? _); [|done].
    match goal with |- context [setState ?b _ _] =>
      destruct (setState_fields b StateClosed now) as (_ & _ & ->) end; [done|].
    simpl. by rewrite E.
Qed.

(** Recording a failure on a Closed breaker within its counting interval
    adds one to the consecutive failures (or trips the breaker). *)
Lemma afterRequest_failure_closed cb now :
  cb_state cb = StateClosed ->
  currentState cb now = cb ->
  afterRequest cb now (cb_generation cb) false
  = let cb1 := with_counts cb (Counts_onFailure (cb_counts cb)) in
    if cb_readyToTrip cb1 (cb_counts cb1) then setState cb1 StateOpen now else cb1.
Proof.
  intros Hst Hcur. unfold afterRequest. rewrite Hcur, Z.eqb_refl. simpl.
  unfold onFailure. by rewrite Hst.
Qed.

Lemma GetBreaker_default bm name now :
  breakers_default bm ->
  cb_isSuccessful (fst (GetBreaker bm name now)) = defaultIsSuccessful
  /\ breakers_default (snd (GetBreaker bm name now)).
Proof.
  intros Hbm. unfold GetBreaker.
  destruct (breakers bm !! name) as [cb|] eqn:E; simpl.
  - split; [by eapply Hbm | done].
  - split; [done|]. intros name' cb. simpl. rewrite lookup_insert.
    destruct (decide _); [by intros [= <-] | apply Hbm].
Qed.

Lemma onSuccess_isSuccessful cb now :
  cb_isSuccessful (onSuccess cb now) = cb_isSuccessful cb.
Proof.
  unfold onSuccess. destruct (cb_state cb); try done.
  destruct (_ <=? _); [|done].
  match goal with |- context [setState ?b ?st ?t] =>
    by destruct (setState_fields b st t) as (_ & -> & _) end.
Qed.

Lemma onFailure_isSuccessful cb now :
  cb_isSuccessful (onFailure cb now) = cb_isSuccessful cb.
Proof.
  unfold onFailure. destruct (cb_state cb); try done.
  - destruct (cb_readyToTrip _ _); [|done].
    match goal with |- context [setState ?b ?st ?t] =>
      by destruct (setState_fields b st t) as (_ & -> & _) end.
  - by destruct (setState_fields cb StateOpen now) as (_ & -> & _).
Qed.

Lemma Execute_isSuccessful {A} cb nb na (req : unit -> result A) :
  cb_isSuccessful (snd (Execute cb nb na req)) = cb_isSuccessful cb.
Proof.
  unfold Execute.
  assert (Hb : cb_isSuccessful (snd (beforeRequest cb nb)) = cb_isSuccessful cb).
  { unfold beforeRequest.
    pose proof (currentState_fields cb nb) as (His & _ & _).
    destruct (cb_state (currentState cb nb)); simpl; try done.
    by destruct (_ <=? _). }
  destruct (beforeRequest cb nb) as [[generation|e] cb1]; simpl in *; [|done].
  unfold afterRequest.
  pose proof (currentState_fields cb1 na) as (His & _ & _).
  destruct (negb _); [congruence|].
  destruct (cb_isSuccessful cb1 _).
  - rewrite onSuccess_isSuccessful. congruence.
  - rewrite onFailure_isSuccessful. congruence.
Qed.

Section ProxyBreaker.
Context `{External}.

(** The breakers that [ProxyRequest] leaves behind record outcomes by
    the default test. *)
Lemma ProxyRequest_breakers_default p c clk :
  breakers_default (breakerManager p) ->
  breakers_default (breakerManager (snd (ProxyRequest p c clk))).
Proof.
  intros Hbm. unfold ProxyRequest.
  destruct (len _ =? 0); [done|].
  destruct (index _ 0) as [serviceName|]; [|done].
  destruct (if 1 <? len _ then _ else _) as [remainingPath|]; [|done].
  destruct (Get _ _) as [svc|]; [|done].
  destruct (RoundRobin _ _) as [[[targetURL|?]|] lb]; try done.
  destruct (GetBreaker_default (breakerManager p) serviceName (now_create clk) Hbm)
    as [Hcb Hbm'].
  destruct (GetBreaker _ _ _) as [breaker bm]. simpl in Hcb, Hbm'.
  pose proof (Execute_isSuccessful breaker (now_before clk) (now_after clk)
                (fun _ => forwardRequest c targetURL remainingPath)) as HE.
  destruct (Execute _ _ _ _) as [result breaker']. simpl in HE.
  assert (Hnew : breakers_default
                   (mkBreakerManager (<[serviceName := breaker']> (breakers bm))
                      (config bm))).
  { intros name cb. simpl. rewrite lookup_insert.
    destruct (decide _); [intros [= <-]; congruence | apply Hbm']. }
  by destruct result.
Qed.

Lemma forwardRequest_answered c targetURL path req resp body :
  outbound_request c targetURL path = Ok req ->
  client_Do req = Ok resp ->
  resp_Body resp = Ok body ->
  forwardRequest c targetURL path
  = Ok (mkProxyResponse (resp_StatusCode resp) (resp_Header resp) body
          (Header_Get (resp_Header resp) "Content-Type")).
Proof. unfold forwardRequest. by intros -> -> ->. Qed.

(** C1 (amended).  An admitted call is recorded as a failure exactly
    when [forwardRequest] returns an error, and as a success otherwise.
    [forwardRequest] returns no error whenever the backend answered and
    the answer's body could be read, whatever the status; so a response
    with status 500 is recorded as a success and leaves the
    consecutive-failure count at zero. *)
Theorem C1_breaker_records_errors_only cb nb na c targetURL path generation cb1 :
  cb_isSuccessful cb = defaultIsSuccessful ->
  beforeRequest cb nb = (Ok generation, cb1) ->
  Execute cb nb na (fun _ => forwardRequest c targetURL path)
  = (forwardRequest c targetURL path,
     afterRequest cb1 na generation
       (if forwardRequest c targetURL path is Ok _ then true else false))
  /\ forall req resp body,
       outbound_request c targetURL path = Ok req ->
       client_Do req = Ok resp ->
       resp_Body resp = Ok body ->
       (exists response,
          forwardRequest c targetURL path = Ok response
          /\ StatusCode response = resp_StatusCode resp)
       /\ ConsecutiveFailures
            (cb_counts
               (snd (Execute cb nb na (fun _ => forwardRequest c targetURL path))))
          = 0.
Proof.
  intros Hdef Hbefore.
  destruct (beforeRequest_Ok _ _ _ _ Hbefore) as (-> & Hst & His).
  assert (HE : Execute cb nb na (fun _ => forwardRequest c targetURL path)
               = (forwardRequest c targetURL path,
                  afterRequest cb1 na (cb_generation cb1)
                    (if forwardRequest c targetURL path is Ok _ then true else false))).
  { unfold Execute. rewrite Hbefore, His, Hdef.
    by destruct (forwardRequest c targetURL path). }
  split; [done|].
  intros req resp body Hreq Hdo Hbody.
  pose proof (forwardRequest_answered _ _ _ _ _ _ Hreq Hdo Hbody) as Hfw.
  split; [eexists; split; [exact Hfw | done]|].
  rewrite HE, Hfw. simpl. by apply afterRequest_success.
Qed.

End ProxyBreaker.

Lemma C1_breaker_records_errors_only_witness :
  ConsecutiveFailures
    (cb_counts
       (snd (Execute
               (NewCircuitBreaker
                  (breaker_settings (breakerManager example_handler) "users") 1000)
               1000 2000
               (fun _ => @forwardRequest failing_backend example_context
                           "http://u0" "/1"))))
  = 0.
Proof.
  eapply (@C1_breaker_records_errors_only failing_backend
            (NewCircuitBreaker
               (breaker_settings (breakerManager example_handler) "users") 1000)
            1000 2000 example_context "http://u0" "/1").
  - reflexivity.
  - vm_compute. reflexivity.
  - exact example_request_built.
  - reflexivity.
  - reflexivity.
Defined.

(** C1, as stated, fails: the backend answers 500, the client is relayed
    the 500, and the breaker for "users" has counted one success and no
    consecutive failure. *)
Lemma C1_counterexample_status_500 :
  (exists headers,
     fst (@ProxyRequest failing_backend example_handler example_context example_clock)
     = Return (Data 500 headers "text/plain" "internal error"))
  /\ cb_counts
       <$> breakers
             (breakerManager
                (snd (@ProxyRequest failing_backend example_handler example_context
                        example_clock))) !! "users"%string
     = Some (mkCounts 1 1 0 1 0).
Proof. split; [eexists|]; vm_compute; reflexivity. Qed.

(** A transport error, by contrast, is recorded as a failure and the
    client is answered 503. *)
Example transport_error_is_a_failure :
  fst (@ProxyRequest unreachable_backend example_handler example_context example_clock)
  = Return (ErrorResponse 503 "Service temporarily unavailable")
  /\ cb_counts
       <$> breakers
             (breakerManager
                (snd (@ProxyRequest unreachable_backend example_handler
                        example_context example_clock))) !! "users"%string
     = Some (mkCounts 1 0 1 0 1).
Proof. split; vm_compute; reflexivity. Qed.

(** ** The rate limiter *)

Example ParseInt_examples :
  ParseInt "1700000000" = Parsed 1700000000
  /\ ParseInt "-12" = Parsed (-12)
  /\ ParseInt "+7" = Parsed 7
  /\ ParseInt "" = ErrSyntax
  /\ ParseInt "abc" = ErrSyntax
  /\ ParseInt "12a" = ErrSyntax
  /\ ParseInt "9223372036854775807" = Parsed max_int
  /\ ParseInt "9223372036854775808" = ErrRange max_int
  /\ ParseInt "-9223372036854775808" = Parsed min_int
  /\ ParseInt "-9223372036854775809" = ErrRange min_int
  /\ Itoa 0 = "0"%string
  /\ Itoa (-120) = "-120"%string.
Proof. repeat split; vm_compute; reflexivity. Qed.

(** One half, as a float. *)
Example math_examples :
  let half := f64_div f64_one (float64_of_int 2) in
  math_Ceil half = f64_one
  /\ math_Floor half = f64_zero
  /\ math_Ceil (SFopp half) = S754_zero true
  /\ math_Floor (SFopp half) = float64_of_int (-1)
  /\ math_Ceil (float64_of_int 3) = float64_of_int 3
  /\ math_Min (float64_of_int 100) (float64_of_int 5) = float64_of_int 5
  /\ math_Min (float64_of_int 100) S754_nan = S754_nan
  /\ math_Min (S754_zero false) (S754_zero true) = S754_zero true
  /\ f64_trunc (f64_div (float64_of_int (-7)) (float64_of_int 2)) = Some (-3)
  /\ f64_floor (f64_div (float64_of_int (-7)) (float64_of_int 2)) = Some (-4)
  /\ Duration_Seconds (60 * Second) = float64_of_int 60.
Proof. repeat split; vm_compute; reflexivity. Qed.

(** A full minute of use at 100 requests per minute: the first request
    creates the bucket; ten seconds after a bucket was left with 5 tokens
    it holds 5 + 10 * (100/60) tokens; an empty bucket read in the same
    second rejects with a retry after one second. *)
Example RateLimiter_examples :
  let run redis :=
    @RateLimiter integer_text ipv4_text redis example_limits example_context 1700000000
      link_up in
  (verdict (fst (run ∅)) = Next
   /\ snd (run ∅) = bucket_of "99" "1700000000")
  /\ @refilled_tokens integer_text example_limits
       (HGetAll (bucket_of "5" "1699999990") "ratelimit:10.0.0.7") 1700000000
     = f64_add (float64_of_int 5)
               (f64_mul (float64_of_int 10)
                        (f64_div (float64_of_int 100) (float64_of_int 60)))
  /\ verdict (fst (run (bucket_of "5" "1699999990"))) = Next
  /\ Header_Get (written (fst (run (bucket_of "5" "1699999990"))))
       "X-RateLimit-Remaining" = "20"%string
  /\ verdict (fst (run (bucket_of "0" "1700000000")))
     = Abort 429 "Rate limit exceeded. Please try again later."
  /\ Header_Get (written (fst (run (bucket_of "0" "1700000000")))) "Retry-After"
     = "1"%string.
Proof. repeat split; vm_compute; reflexivity. Qed.

Lemma Itoa_nonempty n : String.eqb (Itoa n) "" = false.
Proof.
  unfold Itoa. destruct (Z.to_int n) as [d|d]; [|done].
  destruct d; try done.
Qed.

Lemma gin_Header_Itoa w key n :
  gin_Header w key (Itoa n) = Header_Set w key (Itoa n).
Proof. unfold gin_Header. by rewrite Itoa_nonempty. Qed.

(** The bucket after the writes of a request. *)
Lemma HGetAll_HSet db key field value key' :
  HGetAll (redis_apply db (HSet key field value)) key'
  = if decide (key = key') then <[field := value]> (HGetAll db key)
    else HGetAll db key'.
Proof.
  unfold HGetAll at 1. simpl. rewrite lookup_insert.
  destruct (decide (key = key')); done.
Qed.

(** The seconds that [EXPIRE] carries are positive exactly when the
    duration is. *)
Lemma formatSec_nonpos dur : (formatSec dur <=? 0) = (dur <=? 0).
Proof.
  unfold formatSec, Second.
  destruct (Z.ltb_spec 0 dur) as [Hpos|Hneg]; simpl.
  - destruct (Z.ltb_spec dur 1000000000) as [Hlt|Hge].
    + symmetry. apply Z.leb_gt. lia.
    + assert (1 <= dur ÷ 1000000000); [|lia].
      apply Z.quot_le_lower_bound; lia.
  - assert (dur ÷ 1000000000 <= 0) by (apply Z.quot_le_upper_bound; lia).
    destruct (Z.leb_spec (dur ÷ 1000000000) 0), (Z.leb_spec dur 0); lia || done.
Qed.

Lemma HGetAll_Expire db key expiration key' :
  HGetAll (redis_apply db (Expire key expiration)) key'
  = if decide (key = key')
    then (if expiration <=? 0 then ∅ else HGetAll db key)
    else HGetAll db key'.
Proof.
  unfold HGetAll. simpl. rewrite formatSec_nonpos.
  destruct (db !! key) as [entry|] eqn:E.
  - destruct (expiration <=? 0).
    + rewrite lookup_delete. destruct (decide (key = key')); done.
    + rewrite lookup_insert. destruct (decide (key = key')); done.
  - destruct (decide (key = key')) as [<-|]; [|done].
    rewrite E. by destruct (expiration <=? 0).
Qed.

(** Truncation and floor agree on a float whose floor is not negative. *)
Lemma f64_trunc_floor x n :
  f64_floor x = Some n -> 0 <= n -> f64_trunc x = Some n.
Proof.
  destruct x as [s|s| |s m e]; simpl; try done.
  destruct (Z.leb_spec 0 e) as [He|He]; [done|]. intros [= <-] Hn. f_equal.
  assert (Hpow : 0 < 2 ^ (- e)) by (apply Z.pow_pos_nonneg; lia).
  destruct s; simpl in *.
  - assert (Z.neg m / 2 ^ (- e) < 0); [|lia].
    apply Z.div_lt_upper_bound; lia.
  - apply Z.quot_div_nonneg; lia.
Qed.

Section RateLimiterFacts.
Context `{FloatText} `{NetIP}.

Lemma int_of_float64_floor x n :
  f64_floor x = Some n -> 0 <= n <= max_int -> int_of_float64 x = n.
Proof.
  intros Hfloor Hn. unfold int_of_float64.
  rewrite (f64_trunc_floor x n Hfloor) by lia.
  replace ((min_int <=? n) && (n <=? max_int)) with true; [done|].
  symmetry. apply andb_true_iff. unfold min_int. split; apply Z.leb_le; lia.
Qed.

End RateLimiterFacts.

Section RateLimiterProperties.
Context `{FloatText} `{NetIP}.

Lemma first_observation_test (link : RedisLink) (bucket : gmap string string) :
  bool_decide (is_Some (read_err link)) || (Z.of_nat (size bucket) =? 0) = true
  <-> is_Some (read_err link) \/ bucket = ∅.
Proof.
  rewrite orb_true_iff, bool_decide_eq_true, Z.eqb_eq.
  rewrite <- (map_size_empty_iff bucket). intuition lia.
Qed.

Lemma later_observation_test (link : RedisLink) (bucket : gmap string string) :
  read_err link = None -> bucket <> ∅ ->
  bool_decide (is_Some (read_err link)) || (Z.of_nat (size bucket) =? 0) = false.
Proof.
  intros Hread Hne. apply not_true_is_false.
  intros [[? Hs]|?]%first_observation_test; congruence.
Qed.

(** C4 (amended).  One request of a client, keyed by its address.
    - First observation (the read failed or the bucket is empty): the
      limiter writes [capacity - 1] tokens and the current timestamp and
      sets the expiry of the key to twice the window; when the write
      succeeds the request goes on, and the store holds the bucket when
      that expiry is positive (with none that is positive, [EXPIRE]
      deletes the key at once); when the write fails the request is
      aborted with status 500.
    - Later observation: with
      [tokens = min(capacity, stored + elapsed * (capacity / windowSeconds))],
      the request is rejected with 429 and
      [Retry-After = ceil((1 - tokens) / refillRate)] exactly when
      [tokens < 1], the store being left as it was; otherwise
      [tokens - 1] and the timestamp are written and, when the write
      succeeds, the request goes on with [remaining = floor(tokens - 1)];
      when the write fails the request is aborted with status 500. *)
Theorem C4_RateLimiter_token_bucket redis cfg c now link :
  let key := ("ratelimit:" ++ ClientIP c)%string in
  let bucket := HGetAll redis key in
  let r := RateLimiter redis cfg c now link in
  let capacity := float64_of_int (cfg_Requests cfg) in
  let refillRate := f64_div capacity (Duration_Seconds (cfg_Window cfg)) in
  let stored :=
    parsed_value f64_zero (ParseFloat (default ""%string (bucket !! "tokens"%string))) in
  let elapsed :=
    wrap64 (now - parsed_value 0
                    (ParseInt (default ""%string (bucket !! "timestamp"%string)))) in
  let tokens :=
    math_Min capacity (f64_add stored (f64_mul (float64_of_int elapsed) refillRate)) in
  (is_Some (read_err link) \/ bucket = ∅ ->
     (write_err link = None ->
        verdict (fst r) = Next
        /\ (0 < wrap64 (cfg_Window cfg * 2) ->
            HGetAll (snd r) key
            = <["timestamp"%string := Itoa now]>
                (<["tokens"%string := Itoa (wrap64 (cfg_Requests cfg - 1))]> bucket))
        /\ (wrap64 (cfg_Window cfg * 2) <= 0 -> HGetAll (snd r) key = ∅))
     /\ (is_Some (write_err link) ->
        verdict (fst r) = Abort StatusInternalServerError "Rate limiter error"))
  /\ (read_err link = None -> bucket <> ∅ ->
     (f64_lt tokens f64_one = true ->
        verdict (fst r)
        = Abort StatusTooManyRequests "Rate limit exceeded. Please try again later."
        /\ Header_Get (written (fst r)) "Retry-After"
           = Itoa (int_of_float64
                     (math_Ceil (f64_div (f64_sub f64_one tokens) refillRate)))
        /\ Header_Get (written (fst r)) "X-RateLimit-Remaining" = "0"%string
        /\ snd r = redis)
     /\ (f64_lt tokens f64_one = false ->
        (write_err link = None ->
           verdict (fst r) = Next
           /\ HGetAll (snd r) key
              = <["timestamp"%string := Itoa now]>
                  (<["tokens"%string := FormatFloat (f64_sub tokens f64_one)]> bucket)
           /\ Header_Get (written (fst r)) "X-RateLimit-Remaining"
              = Itoa (int_of_float64 (f64_sub tokens f64_one))
           /\ (forall n,
                 f64_floor (f64_sub tokens f64_one) = Some n ->
                 0 <= n <= max_int ->
                 Header_Get (written (fst r)) "X-RateLimit-Remaining" = Itoa n))
        /\ (is_Some (write_err link) ->
           verdict (fst r) = Abort StatusInternalServerError "Rate limiter error"))).
Proof.
  intros key bucket r capacity refillRate stored elapsed tokens.
  assert (Hwrites : forall v,
             HGetAll (redis_apply (redis_apply redis (HSet key "tokens" v))
                        (HSet key "timestamp" (Itoa now))) key
             = <["timestamp"%string := Itoa now]> (<["tokens"%string := v]> bucket)).
  { intros v. rewrite !HGetAll_HSet, !decide_True by done. done. }
  split.
  - intros Hfirst%first_observation_test.
    subst r. unfold RateLimiter. fold key. fold bucket. rewrite Hfirst.
    split.
    + intros ->. unfold Exec. cbn [foldl fst snd verdict].
      split; [done|]. rewrite HGetAll_Expire, decide_True by done. split.
      * intros Hpos. destruct (Z.leb_spec (wrap64 (cfg_Window cfg * 2)) 0); [lia|].
        apply Hwrites.
      * intros Hneg. by destruct (Z.leb_spec (wrap64 (cfg_Window cfg * 2)) 0); [|lia].
    + intros [e ->]. done.
  - intros Hread Hne.
    pose proof (later_observation_test link bucket Hread Hne) as Hlater.
    subst r. unfold RateLimiter. fold key. fold bucket. rewrite Hlater.
    unfold refilled_tokens. fold capacity refillRate stored elapsed tokens.
    split.
    + intros ->. cbn [fst snd verdict written]. repeat split.
      * rewrite !gin_Header_Itoa.
        unfold Header_Get, Header_Values.
        rewrite Header_values_writeContentType by done.
        rewrite Header_values_Set. by rewrite decide_True.
      * rewrite !gin_Header_Itoa. unfold gin_Header.
        change (String.eqb "0" "") with false. cbv iota.
        unfold Header_Get, Header_Values.
        rewrite Header_values_writeContentType by done.
        rewrite !Header_values_Set.
        rewrite decide_False by done. rewrite decide_False by done.
        by rewrite decide_True.
    + intros ->. split.
      * intros ->. unfold Exec. cbn [foldl fst snd verdict written].
        assert (Hrem : Header_Get
                         (gin_Header
                            (gin_Header
                               (gin_Header (Writer_Header c) "X-RateLimit-Limit"
                                  (Itoa (cfg_Requests cfg)))
                               "X-RateLimit-Remaining"
                               (Itoa (int_of_float64 (f64_sub tokens f64_one))))
                            "X-RateLimit-Reset"
                            (Itoa (wrap64 (now + int_of_float64
                                                   (Duration_Seconds (cfg_Window cfg))))))
                         "X-RateLimit-Remaining"
                       = Itoa (int_of_float64 (f64_sub tokens f64_one))).
        { rewrite !gin_Header_Itoa.
          unfold Header_Get, Header_Values. rewrite !Header_values_Set.
          rewrite decide_False by done. by rewrite decide_True. }
        split; [done|]. split; [apply Hwrites|]. split; [exact Hrem|].
        intros n Hfloor Hn. rewrite Hrem. f_equal.
        by apply int_of_float64_floor.
      * intros [e ->]. done.
Qed.

End RateLimiterProperties.

(** C4, as stated, fails: on the first observation of a client whose
    bucket cannot be written, the request is aborted with status 500. *)
Lemma C4_counterexample_store_down :
  HGetAll (∅ : Redis) "ratelimit:10.0.0.7" = ∅
  /\ verdict (fst (@RateLimiter integer_text ipv4_text ∅ example_limits example_context
                     1700000000 link_write_down))
     = Abort 500 "Rate limiter error".
Proof. split; vm_compute; reflexivity. Qed.

Lemma math_Min_lt x y : f64_lt x y = true -> math_Min x y = x.
Proof.
  unfold math_Min, f64_lt, f64_eq, SFltb, SFeqb. intros Hlt.
  destruct (f64_is_inf x true) eqn:Hx.
  { destruct x as [|[]| |]; done. }
  destruct (f64_is_inf y true) eqn:Hy.
  { destruct y as [|[]| |]; try done. by destruct x as [|[]| |[]]. }
  simpl.
  destruct (f64_is_nan x) eqn:Hnx; [by destruct x|].
  destruct (f64_is_nan y) eqn:Hny; [by destruct y; try done; destruct x|].
  simpl.
  destruct (SFcompare x y) as [[]|] eqn:Hc; try done.
  rewrite andb_false_r. done.
Qed.

Lemma f64_lt_add_zero x y :
  f64_lt x y = true -> f64_lt x (f64_add f64_zero y) = true.
Proof.
  destruct y as [s|s| |s m e]; try done.
  unfold f64_lt, SFltb. by destruct x, s.
Qed.

(** No refill on top of no tokens is less than one token, whatever the
    capacity. *)
Lemma math_Min_no_tokens capacity rate :
  f64_is_nan capacity = false ->
  f64_is_nan rate = false ->
  f64_is_inf rate false = false ->
  f64_is_inf rate true = false ->
  f64_lt (math_Min capacity (f64_add f64_zero (f64_mul (float64_of_int 0) rate)))
         f64_one = true.
Proof.
  intros Hcap Hnan Hinf Hninf.
  assert (Hz : f64_add f64_zero (f64_mul (float64_of_int 0) rate) = f64_zero).
  { destruct rate as [[]|[]| |[] m e]; done. }
  rewrite Hz. destruct capacity as [[]|[]| |[] m e]; done.
Qed.

Section CorruptBucket.
Context `{FloatText} `{NetIP}.

(** The verdict and the store after a later observation, by the refilled
    token count. *)
Lemma RateLimiter_later_observation redis cfg c now link :
  let key := ("ratelimit:" ++ ClientIP c)%string in
  let bucket := HGetAll redis key in
  let r := RateLimiter redis cfg c now link in
  let tokens := refilled_tokens cfg bucket now in
  read_err link = None ->
  bucket <> ∅ ->
  (f64_lt tokens f64_one = true ->
     verdict (fst r)
     = Abort StatusTooManyRequests "Rate limit exceeded. Please try again later.")
  /\ (f64_lt tokens f64_one = false ->
      (write_err link = None ->
         verdict (fst r) = Next
         /\ HGetAll (snd r) key
            = <["timestamp"%string := Itoa now]>
                (<["tokens"%string := FormatFloat (f64_sub tokens f64_one)]> bucket))
      /\ (is_Some (write_err link) ->
         verdict (fst r) = Abort StatusInternalServerError "Rate limiter error")).
Proof.
  intros key bucket r tokens Hread Hne.
  pose proof (later_observation_test link bucket Hread Hne) as Hlater.
  subst r. unfold RateLimiter. fold key bucket. rewrite Hlater. fold tokens.
  split; [by intros ->|]. intros ->. split.
  - intros ->. unfold Exec. cbn [foldl fst snd verdict]. split; [done|].
    rewrite !HGetAll_HSet, !decide_True by done. done.
  - intros [e ->]. done.
Qed.

(** C10 (amended).  For a stored bucket that could be read: a tokens
    field that is no number counts as zero tokens, and a timestamp field
    that is no number counts as the Unix epoch (the elapsed time is the
    current time); the request is rejected with 429 exactly when the
    token count refilled from these values is below one.  When both
    fields are no numbers, the refill since the epoch exceeds the
    capacity, the capacity is at least one and the write succeeds, the
    token count is the capacity and the request goes on with
    [capacity - 1] tokens written.  When the tokens field is no number
    and the timestamp is the current second, the token count is below
    one for every finite refill rate, and the request is rejected. *)
Theorem C10_unparsable_fields_count_as_zero redis cfg c now link :
  let key := ("ratelimit:" ++ ClientIP c)%string in
  let bucket := HGetAll redis key in
  let r := RateLimiter redis cfg c now link in
  let capacity := float64_of_int (cfg_Requests cfg) in
  let refillRate := f64_div capacity (Duration_Seconds (cfg_Window cfg)) in
  let tokensStr := default ""%string (bucket !! "tokens"%string) in
  let timestampStr := default ""%string (bucket !! "timestamp"%string) in
  read_err link = None ->
  bucket <> ∅ ->
  (ParseFloat tokensStr = ErrSyntax ->
     refilled_tokens cfg bucket now
     = math_Min capacity
         (f64_add f64_zero
            (f64_mul
               (float64_of_int (wrap64 (now - parsed_value 0 (ParseInt timestampStr))))
               refillRate)))
  /\ (ParseInt timestampStr = ErrSyntax ->
     refilled_tokens cfg bucket now
     = math_Min capacity
         (f64_add (parsed_value f64_zero (ParseFloat tokensStr))
            (f64_mul (float64_of_int (wrap64 now)) refillRate)))
  /\ (verdict (fst r)
      = Abort StatusTooManyRequests "Rate limit exceeded. Please try again later."
      <-> f64_lt (refilled_tokens cfg bucket now) f64_one = true)
  /\ (ParseFloat tokensStr = ErrSyntax ->
      ParseInt timestampStr = ErrSyntax ->
      f64_lt capacity (f64_mul (float64_of_int (wrap64 now)) refillRate) = true ->
      f64_lt capacity f64_one = false ->
      write_err link = None ->
      refilled_tokens cfg bucket now = capacity
      /\ verdict (fst r) = Next
      /\ HGetAll (snd r) key
         = <["timestamp"%string := Itoa now]>
             (<["tokens"%string := FormatFloat (f64_sub capacity f64_one)]> bucket))
  /\ (ParseFloat tokensStr = ErrSyntax ->
      parsed_value 0 (ParseInt timestampStr) = now ->
      f64_is_nan capacity = false ->
      f64_is_nan refillRate = false ->
      f64_is_inf refillRate false = false ->
      f64_is_inf refillRate true = false ->
      verdict (fst r)
      = Abort StatusTooManyRequests "Rate limit exceeded. Please try again later.").
Proof.
  intros key bucket r capacity refillRate tokensStr timestampStr Hread Hne.
  assert (Htokens : ParseFloat tokensStr = ErrSyntax ->
            refilled_tokens cfg bucket now
            = math_Min capacity
                (f64_add f64_zero
                   (f64_mul
                      (float64_of_int
                         (wrap64 (now - parsed_value 0 (ParseInt timestampStr))))
                      refillRate))).
  { intros Hf. unfold refilled_tokens. fold tokensStr timestampStr. by rewrite Hf. }
  assert (Hstamp : ParseInt timestampStr = ErrSyntax ->
            refilled_tokens cfg bucket now
            = math_Min capacity
                (f64_add (parsed_value f64_zero (ParseFloat tokensStr))
                   (f64_mul (float64_of_int (wrap64 now)) refillRate))).
  { intros Hi. unfold refilled_tokens. fold tokensStr timestampStr.
    rewrite Hi. simpl. by rewrite Z.sub_0_r. }
  destruct (RateLimiter_later_observation redis cfg c now link Hread Hne)
    as [Hreject Hpass].
  fold key bucket r in Hreject, Hpass.
  split; [done|]. split; [done|]. split; [|split].
  - split.
    + intros Hv. destruct (f64_lt (refilled_tokens cfg bucket now) f64_one) eqn:E;
        [done|].
      destruct (Hpass eq_refl) as [Hok Hdown].
      destruct (write_err link) as [e|] eqn:Hw.
      * rewrite Hdown in Hv by (by eexists). discriminate.
      * destruct Hok as [Hv' _]; [done|]. rewrite Hv' in Hv. discriminate.
    + intros Hlt. by apply Hreject.
  - intros Hf Hi Hrefill Hcap Hw.
    assert (Hfull : refilled_tokens cfg bucket now = capacity).
    { rewrite Htokens by done. rewrite Hi. simpl. rewrite Z.sub_0_r.
      apply math_Min_lt. by apply f64_lt_add_zero. }
    split; [done|].
    rewrite Hfull in Hpass. destruct (Hpass Hcap) as [Hok _].
    destruct (Hok Hw) as (Hv & Hstore). done.
  - intros Hf Hlast Hcap Hnan Hinf Hninf. apply Hreject.
    rewrite Htokens by done. rewrite Hlast, Z.sub_diag.
    change (wrap64 0) with 0. by apply math_Min_no_tokens.
Qed.

End CorruptBucket.

Lemma C10_unparsable_fields_count_as_zero_witness :
  @refilled_tokens integer_text example_limits
    (HGetAll (bucket_of "abc" "xyz") "ratelimit:10.0.0.7") 1700000000
  = float64_of_int 100
  /\ verdict (fst (@RateLimiter integer_text ipv4_text (bucket_of "abc" "xyz") example_limits
                     example_context 1700000000 link_up))
     = Next
  /\ HGetAll (snd (@RateLimiter integer_text ipv4_text (bucket_of "abc" "xyz") example_limits
                     example_context 1700000000 link_up)) "ratelimit:10.0.0.7"
     = <["timestamp"%string := "1700000000"%string]>
         (<["tokens"%string := "99"%string]>
            (HGetAll (bucket_of "abc" "xyz") "ratelimit:10.0.0.7")).
Proof.
  destruct (@C10_unparsable_fields_count_as_zero integer_text ipv4_text
              (bucket_of "abc" "xyz") example_limits example_context 1700000000
              link_up) as (_ & _ & _ & Hfull & _).
  - reflexivity.
  - vm_compute. discriminate.
  - apply Hfull; vm_compute; reflexivity.
Defined.

(** C10, as stated, fails: with a tokens field that is no number and a
    current timestamp the bucket counts as empty and the request is
    rejected. *)
Lemma C10_counterexample_corrupt_tokens :
  @ParseFloat integer_text "abc" = ErrSyntax
  /\ ParseInt "1700000000" = Parsed 1700000000
  /\ @refilled_tokens integer_text example_limits
       (HGetAll (bucket_of "abc" "1700000000") "ratelimit:10.0.0.7") 1700000000
     = f64_zero
  /\ verdict (fst (@RateLimiter integer_text ipv4_text (bucket_of "abc" "1700000000")
                     example_limits example_context 1700000000 link_up))
     = Abort 429 "Rate limit exceeded. Please try again later.".
Proof. repeat split; vm_compute; reflexivity. Qed.

(* ===================================================================== *)
(** * Part II, continued: further properties of the code                  *)
(* ===================================================================== *)

(** ** The registry: registration, lookup, activation *)

(** X1.  A registered service is found under its name, active, with the
    URLs and health URL given, whatever was registered under the name
    before (an inactive entry included); no other name is affected. *)
Theorem X1_Register_then_Get r name urls healthURL :
  Get (Register r name urls healthURL) name
  = Ok (mkService name urls healthURL true)
  /\ forall name', name' <> name ->
       Get (Register r name urls healthURL) name' = Get r name'.
Proof.
  unfold Get, Register. simpl. split.
  - by rewrite lookup_insert_eq.
  - intros name' Hne. by rewrite lookup_insert_ne.
Qed.

Lemma foldl_Register_lookup svcs r name :
  services
    (foldl (fun r svc => Register r (cfg_Name svc) (cfg_URLs svc) (cfg_HealthURL svc))
       r svcs) !! name
  = match last (filter (fun c => cfg_Name c = name) svcs) with
    | Some c => Some (mkService name (cfg_URLs c) (cfg_HealthURL c) true)
    | None => services r !! name
    end.
Proof.
  revert r. induction svcs as [|c svcs IH]; intros r; [done|].
  simpl. rewrite IH. rewrite filter_cons.
  destruct (decide (cfg_Name c = name)) as [E|NE].
  - rewrite last_cons.
    destruct (last (filter _ svcs)); [done|].
    unfold Register. simpl. rewrite E. by rewrite lookup_insert_eq.
  - destruct (last (filter _ svcs)); [done|].
    unfold Register. simpl. by rewrite lookup_insert_ne.
Qed.

(** X2.  The registry built from the configuration answers a lookup with
    the last configured entry of that name (a later entry replaces an
    earlier one), active; a name that is not configured is not found. *)
Theorem X2_NewRegistry_last_entry_wins svcs name :
  Get (NewRegistry svcs) name
  = match last (filter (fun c => cfg_Name c = name) svcs) with
    | Some c => Ok (mkService name (cfg_URLs c) (cfg_HealthURL c) true)
    | None => Err (errors_New "service not found")
    end.
Proof.
  unfold Get, NewRegistry. rewrite foldl_Register_lookup.
  destruct (last _); [done|]. simpl. by rewrite lookup_empty.
Qed.

(** X3.  [SetActive] on a registered name succeeds and changes the
    activity flag of that entry only: a deactivated service is refused by
    [Get] with "service is inactive", an activated one is returned;
    deactivating and re-activating an active service restores the
    registry.  On a name that is not registered it fails and changes
    nothing. *)
Theorem X3_SetActive r name active :
  (services r !! name = None ->
     SetActive r name active = (Some (errors_New "service not found"), r))
  /\ (forall svc,
        services r !! name = Some svc ->
        let r' := snd (SetActive r name active) in
        fst (SetActive r name active) = None
        /\ Get r' name
           = (if active
              then Ok (mkService (Name svc) (URLs svc) (HealthURL svc) true)
              else Err (errors_New "service is inactive"))
        /\ (forall name', name' <> name -> services r' !! name' = services r !! name')
        /\ (Active svc = true ->
            snd (SetActive (snd (SetActive r name false)) name true) = r)).
Proof.
  split.
  - intros Hnone. unfold SetActive. by rewrite Hnone.
  - intros svc Hsvc r'. subst r'. unfold SetActive at 1 2 3. rewrite Hsvc. simpl.
    split; [done|]. split; [|split].
    + unfold Get. simpl. rewrite lookup_insert_eq. by destruct active.
    + intros name' Hne. by rewrite lookup_insert_ne.
    + intros Hact. unfold SetActive. rewrite Hsvc. simpl.
      rewrite lookup_insert_eq. simpl. rewrite insert_insert_eq.
      destruct r as [m]. simpl in *. f_equal.
      apply insert_id. rewrite Hsvc. f_equal. destruct svc. simpl in *. by subst.
Qed.

(** X4.  Registering a name and unregistering it again succeeds and
    leaves the registry without that name; when the name was not
    registered before, the registry is back to what it was, and a second
    unregistration fails. *)
Theorem X4_Register_then_Unregister r name urls healthURL :
  fst (Unregister (Register r name urls healthURL) name) = None
  /\ services (snd (Unregister (Register r name urls healthURL) name))
     = delete name (services r)
  /\ (services r !! name = None ->
      Unregister (Register r name urls healthURL) name = (None, r)
      /\ Unregister r name = (Some (errors_New "service not found"), r)).
Proof.
  unfold Unregister, Register. simpl. rewrite lookup_insert_eq. simpl.
  split; [done|]. split; [apply delete_insert_eq|].
  intros Hnone. rewrite Hnone. split; [|done].
  f_equal. destruct r as [m]. simpl in *. f_equal.
  rewrite delete_insert_eq. by apply delete_id.
Qed.

Lemma foldl_snoc_snd {A B} (l : list (A * B)) (acc : list B) :
  foldl (fun services kv => services ++ [snd kv]) acc l = acc ++ l.*2.
Proof.
  revert acc. induction l as [|kv l IH]; intros acc; simpl.
  - by rewrite app_nil_r.
  - rewrite IH. by rewrite <- app_assoc.
Qed.

(** X5.  [List] returns every entry of the registry exactly once,
    whatever its activity flag (an inactive service, which [Get] refuses,
    is listed), in the order of the map iteration: as many elements as
    there are registered names, and the empty list for an empty
    registry. *)
Theorem X5_List_all_entries range_services r :
  range_services (services r) ≡ₚ map_to_list (services r) ->
  List range_services r ≡ₚ (map_to_list (services r)).*2
  /\ length (List range_services r) = size (services r)
  /\ (forall svc,
        svc ∈ List range_services r
        <-> exists name, services r !! name = Some svc)
  /\ (services r = ∅ -> List range_services r = []).
Proof.
  intros Hrange. unfold List. rewrite foldl_snoc_snd. simpl.
  assert (HP : (range_services (services r)).*2 ≡ₚ (map_to_list (services r)).*2).
  { by rewrite Hrange. }
  split; [done|]. split; [|split].
  - rewrite HP, length_fmap. apply length_map_to_list.
  - intros svc. rewrite HP. rewrite list_elem_of_fmap. split.
    + intros [[name s] [-> Hin]]. exists name. by apply elem_of_map_to_list.
    + intros [name Hname]. exists (name, svc). split; [done|].
      by apply elem_of_map_to_list.
  - intros Hempty. apply Permutation_nil_r. symmetry. rewrite HP, Hempty.
    by rewrite map_to_list_empty.
Qed.

Lemma X5_List_all_entries_witness :
  length (List map_to_list (registry inactive_handler)) = 1%nat
  /\ Get (registry inactive_handler) "users" = Err (errors_New "service is inactive").
Proof.
  split.
  - destruct (X5_List_all_entries map_to_list (registry inactive_handler))
      as (_ & Hlen & _); [reflexivity|].
    rewrite Hlen. vm_compute. reflexivity.
  - vm_compute. reflexivity.
Defined.

(** ** The load balancer: independence of the services *)

Lemma RoundRobin_frame lb service name :
  name <> Name service ->
  counter_of (snd (RoundRobin lb service)) name = counter_of lb name.
Proof.
  intros Hne. unfold RoundRobin.
  destruct (len (URLs service) =? 0); [done|].
  destruct (index _ _); [|done]. simpl.
  rewrite counter_of_insert. by rewrite decide_False.
Qed.

Lemma RoundRobin_counter_only lb lb' service :
  counter_of lb (Name service) = counter_of lb' (Name service) ->
  fst (RoundRobin lb service) = fst (RoundRobin lb' service)
  /\ counter_of (snd (RoundRobin lb service)) (Name service)
     = counter_of (snd (RoundRobin lb' service)) (Name service).
Proof.
  intros Hc. unfold RoundRobin. rewrite Hc.
  destruct (len (URLs service) =? 0); [done|].
  destruct (index _ _); [|done]. simpl.
  rewrite !counter_of_insert. by rewrite !decide_True.
Qed.

Lemma RoundRobin_each_independent name calls lb lb' :
  counter_of lb name = counter_of lb' name ->
  (filter (fun sr => Name (fst sr) = name) (zip calls (fst (RoundRobin_each lb calls)))).*2
  = fst (RoundRobin_each lb' (filter (fun s => Name s = name) calls))
  /\ counter_of (snd (RoundRobin_each lb calls)) name
     = counter_of (snd (RoundRobin_each lb' (filter (fun s => Name s = name) calls))) name.
Proof.
  revert lb lb'. induction calls as [|service calls IH]; intros lb lb' Hc; [done|].
  cbn [RoundRobin_each]. rewrite filter_cons.
  destruct (decide (Name service = name)) as [E|NE].
  - cbn [RoundRobin_each]. subst name.
    destruct (RoundRobin_counter_only lb lb' service Hc) as [Hr Hc1].
    destruct (RoundRobin lb service) as [r lb1].
    destruct (RoundRobin lb' service) as [r' lb1']. simpl in Hr, Hc1. subst r'.
    destruct (IH lb1 lb1' Hc1) as [IH1 IH2].
    destruct (RoundRobin_each lb1 calls) as [rs lb2].
    destruct (RoundRobin_each lb1' _) as [rs' lb2']. simpl in *.
    rewrite filter_cons. simpl. rewrite decide_True by done. simpl.
    split; [|done]. f_equal. exact IH1.
  - pose proof (RoundRobin_frame lb service name) as Hf.
    destruct (RoundRobin lb service) as [r lb1]. simpl in Hf.
    assert (Hc1 : counter_of lb1 name = counter_of lb' name).
    { rewrite Hf by done. done. }
    destruct (IH lb1 lb' Hc1) as [IH1 IH2].
    destruct (RoundRobin_each lb1 calls) as [rs lb2]. simpl in *.
    rewrite filter_cons. simpl. rewrite decide_False by done. done.
Qed.

(** X6.  The cursors are per service name: in any sequence of
    selections, the URLs returned for the services of one name, and the
    final cursor of that name, are those of the same selections made
    alone; selections for other names in between change nothing. *)
Theorem X6_RoundRobin_per_service name calls lb :
  (filter (fun sr => Name (fst sr) = name) (zip calls (fst (RoundRobin_each lb calls)))).*2
  = fst (RoundRobin_each lb (filter (fun s => Name s = name) calls))
  /\ counter_of (snd (RoundRobin_each lb calls)) name
     = counter_of (snd (RoundRobin_each lb (filter (fun s => Name s = name) calls))) name
  /\ (forall service, name <> Name service ->
        counters (snd (RoundRobin lb service)) !! name = counters lb !! name).
Proof.
  destruct (RoundRobin_each_independent name calls lb lb eq_refl) as [H1 H2].
  split; [done|]. split; [done|].
  intros service Hne. unfold RoundRobin.
  destruct (len (URLs service) =? 0); [done|].
  destruct (index _ _); [|done]. simpl. by rewrite lookup_insert_ne.
Qed.

(** ** The load balancer: whole cycles *)

Lemma selected_period service c i :
  1 <= len (URLs service) ->
  selected service c (i + length (URLs service)) = selected service c i.
Proof.
  intros Hk. unfold selected. f_equal.
  rewrite Nat2Z.inj_add. fold (len (URLs service)).
  rewrite Z.add_assoc, <- Zplus_mod_idemp_r, Z_mod_same_full, Z.add_0_r. done.
Qed.

Lemma selected_cycles service c m :
  1 <= len (URLs service) ->
  selected service c <$> seq 0 (m * length (URLs service))
  = mjoin (replicate m (selected service c <$> seq 0 (length (URLs service)))).
Proof.
  intros Hk. induction m as [|m IH]; [done|].
  simpl. rewrite seq_app, fmap_app. f_equal.
  rewrite <- IH. simpl.
  replace (seq (length (URLs service)) (m * length (URLs service)))
    with (Nat.add (length (URLs service)) <$> seq 0 (m * length (URLs service)))
    by (rewrite fmap_add_seq; f_equal; lia).
  rewrite <- list_fmap_compose.
  apply list_fmap_ext. intros _ i _. simpl.
  rewrite Nat.add_comm. by apply selected_period.
Qed.

(** X7.  For a service with [k >= 1] instances and any [m], [m * k]
    consecutive selections on a reachable balancer return the list of
    URLs rotated to the stored cursor, [m] times over (so every instance
    is selected exactly [m] times), and leave a cursor that selects what
    the first call selected. *)
Theorem X7_RoundRobin_whole_cycles lb service m :
  lb_reachable lb ->
  1 <= len (URLs service) <= max_int ->
  let k := length (URLs service) in
  let c := counter_of lb (Name service) in
  fst (RoundRobin_calls (m * k) lb service)
  = (fun url => Return (Ok url))
      <$> mjoin (replicate m (rotate (Z.to_nat c) (URLs service)))
  /\ counter_of (snd (RoundRobin_calls (m * k) lb service)) (Name service)
       mod len (URLs service)
     = c mod len (URLs service).
Proof.
  intros Hr Hk k c.
  pose proof (lb_reachable_counter lb (Name service) Hr) as Hc. fold c in Hc.
  destruct (RoundRobin_calls_selected (m * k) lb service Hc Hk) as [Hrets Hcur].
  fold c in Hrets, Hcur. split.
  - rewrite Hrets. subst k. rewrite selected_cycles by lia.
    rewrite selected_rotate by lia.
    clear. induction m as [|m IH]; [done|]. simpl. rewrite fmap_app. by rewrite IH.
  - rewrite Hcur. destruct (m * k)%nat eqn:E; [done|]. rewrite <- E.
    rewrite Z.mod_mod by lia. subst k.
    rewrite Nat2Z.inj_mul. fold (len (URLs service)).
    by rewrite Z.mod_add by lia.
Qed.

Lemma X7_RoundRobin_whole_cycles_witness :
  let service := mkService "users" ["u0"; "u1"; "u2"]%string "/health" true in
  let lb := snd (RoundRobin NewLoadBalancer service) in
  fst (RoundRobin_calls 6 lb service)
  = [Return (Ok "u1"); Return (Ok "u2"); Return (Ok "u0");
     Return (Ok "u1"); Return (Ok "u2"); Return (Ok "u0")]%string.
Proof.
  intros service lb.
  assert (Hr : lb_reachable lb).
  { apply lb_reach_call; [apply lb_reach_new | vm_compute; discriminate]. }
  assert (Hk : 1 <= len (URLs service) <= max_int).
  { vm_compute. split; discriminate. }
  destruct (X7_RoundRobin_whole_cycles lb service 2 Hr Hk) as [H1 _].
  exact H1.
Defined.

(** ** The breaker manager *)

(** X8.  [GetBreaker] creates the breaker of a service name on the first
    call and returns the stored one, as it is, on every later call,
    whatever the time; a stored breaker is never replaced, and the
    breakers of other names and the configuration are never touched. *)
Theorem X8_GetBreaker_once bm name now now' :
  let b := fst (GetBreaker bm name now) in
  let bm1 := snd (GetBreaker bm name now) in
  GetBreaker bm1 name now' = (b, bm1)
  /\ breakers bm1 !! name = Some b
  /\ (forall name', name' <> name -> breakers bm1 !! name' = breakers bm !! name')
  /\ config bm1 = config bm
  /\ (forall b0, breakers bm !! name = Some b0 -> b = b0 /\ bm1 = bm)
  /\ (forall name' b', breakers bm !! name' = Some b' ->
        breakers bm1 !! name' = Some b')
  /\ (breakers bm !! name = None ->
      b = NewCircuitBreaker (breaker_settings bm name) now).
Proof.
  intros b bm1. subst b bm1.
  destruct (breakers bm !! name) as [b0|] eqn:E.
  - assert (HG : GetBreaker bm name now = (b0, bm)).
    { unfold GetBreaker. by rewrite E. }
    rewrite HG. simpl.
    split; [unfold GetBreaker; by rewrite E|].
    split; [done|]. split; [done|]. split; [done|]. split; [|split].
    + by intros b1 [= <-].
    + done.
    + intros Hnone. congruence.
  - assert (HG : GetBreaker bm name now
                 = (NewCircuitBreaker (breaker_settings bm name) now,
                    mkBreakerManager
                      (<[name := NewCircuitBreaker (breaker_settings bm name) now]>
                         (breakers bm)) (config bm))).
    { unfold GetBreaker. by rewrite E. }
    rewrite HG. simpl.
    split; [unfold GetBreaker; simpl; by rewrite lookup_insert_eq|].
    split; [apply lookup_insert_eq|].
    split; [intros name' Hne; by apply lookup_insert_ne|].
    split; [done|]. split; [|split; [|done]].
    + intros b1 Hb1. congruence.
    + intros name' b' Hb'. rewrite lookup_insert_ne; [done|]. congruence.
Qed.

(** ** The proxy: service name and remaining path *)

Lemma substring_all s : String.substring 0 (String.length s) s = s.
Proof. induction s as [|c s IH]; [done|]. simpl. by rewrite IH. Qed.

Lemma TrimPrefix_slash s : TrimPrefix (String "/" s) "/" = s.
Proof.
  unfold TrimPrefix. simpl. rewrite Nat.sub_0_r.
  replace (String.prefix "" s) with true by (by destruct s).
  apply substring_all.
Qed.

Lemma index_0_cons sep a s :
  String.index 0 sep (String a s)
  = if String.prefix sep (String a s) then Some 0%nat
    else match String.index 0 sep s with
         | Some n => Some (S n)
         | None => None
         end.
Proof. reflexivity. Qed.

Lemma prefix_slash a s : String.prefix "/" (String a s) = Ascii.eqb a "/".
Proof.
  cbn [String.prefix]. destruct (ascii_dec "/" a) as [<-|Hne].
  - by destruct s.
  - symmetry. apply Ascii.eqb_neq. congruence.
Qed.

Lemma index_no_slash name : no_slash name = true -> String.index 0 "/" name = None.
Proof.
  induction name as [|a name IH]; [done|].
  unfold no_slash in *. cbn [string_forallb]. intros [Ha Hn]%andb_true_iff.
  rewrite index_0_cons, prefix_slash.
  apply negb_true_iff in Ha. rewrite Ha. by rewrite IH.
Qed.

Lemma append_nil s : ("" ++ s)%string = s.
Proof. reflexivity. Qed.

Lemma append_cons a s t : (String a s ++ t)%string = String a (s ++ t).
Proof. reflexivity. Qed.

Lemma index_first_slash name rest :
  no_slash name = true ->
  String.index 0 "/" (name ++ String "/" rest) = Some (String.length name).
Proof.
  induction name as [|a name IH].
  - intros _. by rewrite append_nil, index_0_cons, prefix_slash.
  - unfold no_slash in *. cbn [string_forallb]. intros [Ha Hn]%andb_true_iff.
    rewrite append_cons, index_0_cons, prefix_slash.
    apply negb_true_iff in Ha. rewrite Ha. by rewrite IH.
Qed.

Lemma substring_app_l name s :
  String.substring 0 (String.length name) (name ++ s) = name.
Proof.
  induction name as [|a name IH].
  - rewrite append_nil. by destruct s.
  - rewrite append_cons. simpl. by rewrite IH.
Qed.

Lemma substring_app_r name s n m :
  String.substring (String.length name + n) m (name ++ s) = String.substring n m s.
Proof.
  induction name as [|a name IH]; [done|]. rewrite append_cons. simpl. apply IH.
Qed.

Lemma length_app_string (s t : string) :
  String.length (s ++ t) = (String.length s + String.length t)%nat.
Proof.
  induction s as [|a s IH]; [done|]. rewrite append_cons. simpl. by rewrite IH.
Qed.

Lemma SplitN_first_slash name rest :
  no_slash name = true ->
  SplitN (name ++ String "/" rest) "/" 2 = [name; rest].
Proof.
  intros Hname. unfold SplitN. simpl.
  replace (Z.to_nat (Z.min 2 (Z.of_nat (String.length (name ++ String "/" rest)) + 1) - 1))
    with 1%nat by (rewrite length_app_string; simpl; lia).
  cbn [split_loop]. rewrite index_first_slash by done.
  rewrite substring_app_l. f_equal.
  change (String.length "/") with 1%nat.
  rewrite substring_app_r. simpl.
  rewrite length_app_string. simpl.
  replace (String.length name + S (String.length rest) - (String.length name + 1))%nat
    with (String.length rest) by lia.
  by rewrite substring_all.
Qed.

Lemma SplitN_no_slash name :
  no_slash name = true -> SplitN name "/" 2 = [name].
Proof.
  intros Hname. unfold SplitN. simpl.
  destruct name as [|a name]; [done|].
  replace (Z.to_nat (Z.min 2 (Z.of_nat (String.length (String a name)) + 1) - 1))
    with 1%nat by (simpl String.length; lia).
  cbn [split_loop]. by rewrite index_no_slash.
Qed.

Section ProxyPath.
Context `{External}.

Lemma ProxyRequest_routed p c clk :
  ProxyRequest p c clk
  = ProxyRequest_for p c clk (request_serviceName c) (request_remainingPath c).
Proof.
  unfold ProxyRequest, ProxyRequest_for, request_serviceName, request_remainingPath,
    path_parts.
  destruct (SplitN_2 (TrimPrefix (Param c "path") "/")) as [->|(a & b & ->)]; done.
Qed.


(** ** The proxy: what a request does to the handler *)


(** X11.  When the service is found, the balancer's cursor for it moves
    on whether or not the breaker admits the call and whatever the
    backend does; only the breaker of that service name is touched, and
    it exists afterwards when the service has a URL.  A service
    registered without any URL is answered 503 "No available instances"
    and nothing changes. *)
Theorem X11_ProxyRequest_effects p c clk svc :
  Get (registry p) (request_serviceName c) = Ok svc ->
  let p' := snd (ProxyRequest p c clk) in
  registry p' = registry p
  /\ loadBalancer p' = snd (RoundRobin (loadBalancer p) svc)
  /\ (URLs svc = [] ->
      ProxyRequest p c clk
      = (Return (ErrorResponse StatusServiceUnavailable "No available instances"), p))
  /\ (forall name', name' <> request_serviceName c ->
        breakers (breakerManager p') !! name' = breakers (breakerManager p) !! name')
  /\ config (breakerManager p') = config (breakerManager p)
  /\ (lb_reachable (loadBalancer p) -> URLs svc <> [] ->
      is_Some (breakers (breakerManager p') !! request_serviceName c)).
Proof.
  intros HG p'. subst p'. rewrite ProxyRequest_routed. unfold ProxyRequest_for.
  rewrite HG.
  assert (Hstep : lb_reachable (loadBalancer p) -> URLs svc <> [] ->
            exists url lb, RoundRobin (loadBalancer p) svc = (Return (Ok url), lb)).
  { intros Hlb Hne.
    pose proof (lb_reachable_counter _ (Name svc) Hlb) as Hc.
    destruct (RoundRobin_step (loadBalancer p) svc Hc) as (url & _ & HRR).
    - unfold len. destruct (URLs svc); [done|]. simpl. lia.
    - by eexists _, _. }
  assert (Hempty : URLs svc = [] ->
            RoundRobin (loadBalancer p) svc
            = (Return (Err (errors_New "no URLs available for service")),
               loadBalancer p)).
  { intros E. unfold RoundRobin. by rewrite E. }
  destruct (RoundRobin (loadBalancer p) svc) as [[[targetURL|e]|] lb] eqn:HRR; simpl.
  - destruct (GetBreaker (breakerManager p) (request_serviceName c) (now_create clk))
      as [breaker bm] eqn:HGB.
    assert (Hbm : (forall name', name' <> request_serviceName c ->
                     breakers bm !! name' = breakers (breakerManager p) !! name')
                  /\ config bm = config (breakerManager p)).
    { unfold GetBreaker in HGB.
      destruct (breakers (breakerManager p) !! request_serviceName c);
        injection HGB as <- <-; [done|]. simpl. split; [|done].
      intros name' Hne. by apply lookup_insert_ne. }
    destruct Hbm as [Hbm1 Hbm2].
    destruct (Execute _ _ _ _) as [[response|e] breaker']; simpl.
    + split; [done|]. split; [done|]. split; [|split; [|split; [done|]]].
      * intros E. specialize (Hempty E). congruence.
      * intros name' Hne. rewrite lookup_insert_ne by done. by apply Hbm1.
      * intros _ _. rewrite lookup_insert_eq. by eexists.
    + split; [done|]. split; [done|]. split; [|split; [|split; [done|]]].
      * intros E. specialize (Hempty E). congruence.
      * intros name' Hne. rewrite lookup_insert_ne by done. by apply Hbm1.
      * intros _ _. rewrite lookup_insert_eq. by eexists.
  - split; [done|]. split; [done|]. split; [|split; [done|split; [done|]]].
    + intros E. specialize (Hempty E). injection Hempty as _ ->. by destruct p.
    + intros Hlb Hne. destruct (Hstep Hlb Hne) as (url & lb' & Hurl). congruence.
  - split; [done|]. split; [done|]. split; [|split; [done|split; [done|]]].
    + intros E. specialize (Hempty E). congruence.
    + intros Hlb Hne. destruct (Hstep Hlb Hne) as (url & lb' & Hurl). congruence.
Qed.

End ProxyPath.

Lemma example_handler_ok : handler_ok example_handler.
Proof.
  split.
  - apply NewRegistry_ok. repeat constructor. vm_compute. discriminate.
  - apply lb_reach_new.
Qed.



Lemma X11_ProxyRequest_effects_witness :
  loadBalancer
    (snd (@ProxyRequest failing_backend example_handler example_context example_clock))
  = snd (RoundRobin NewLoadBalancer
           (mkService "users" ["http://u0"%string] "/health" true)).
Proof.
  destruct (@X11_ProxyRequest_effects failing_backend example_handler example_context
              example_clock (mkService "users" ["http://u0"%string] "/health" true))
    as (_ & Hlb & _).
  - reflexivity.
  - exact Hlb.
Defined.

(** ** The proxy: hop-by-hop names *)

Lemma ascii_fold_eq_lower c d :
  is_ascii c = true -> is_ascii d = true ->
  ascii_fold_eq c d = Ascii.eqb (to_lower c) (to_lower d).
Proof.
  revert c d.
  assert (Hc : forall c d,
             implb (is_ascii c && is_ascii d)
               (Bool.eqb (ascii_fold_eq c d) (Ascii.eqb (to_lower c) (to_lower d)))
             = true).
  { apply ascii_forall2. vm_compute. reflexivity. }
  intros c d Hc1 Hd1. specialize (Hc c d). rewrite Hc1, Hd1 in Hc. simpl in Hc.
  by apply Bool.eqb_prop.
Qed.

Lemma EqualFold_ToLower fr s t :
  string_forallb is_ascii s = true -> string_forallb is_ascii t = true ->
  EqualFold fr s t = String.eqb (ToLower s) (ToLower t).
Proof.
  revert t. induction s as [|c s IH]; intros t Hs Ht.
  - by destruct t.
  - destruct t as [|d t]; [done|].
    simpl in Hs, Ht.
    apply andb_true_iff in Hs as [Hc Hs]. apply andb_true_iff in Ht as [Hd Ht].
    simpl. rewrite (is_ascii_128 c Hc), (is_ascii_128 d Hd). simpl.
    rewrite ascii_fold_eq_lower by done.
    destruct (Ascii.eqb (to_lower c) (to_lower d)); [by apply IH | done].
Qed.

(** X12.  A header name of ASCII bytes is hop-by-hop exactly when,
    letter case aside, it is one of Connection, Keep-Alive,
    Proxy-Authenticate, Proxy-Authorization, Te, Trailers,
    Transfer-Encoding and Upgrade. *)
Theorem X12_isHopByHopHeader_names fr header :
  string_forallb is_ascii header = true ->
  isHopByHopHeader fr header = true <-> ToLower header ∈ hopByHopHeaders_lower.
Proof.
  intros Ha. unfold isHopByHopHeader, hopByHopHeaders. cbn [existsb].
  rewrite orb_false_r.
  rewrite !(EqualFold_ToLower fr header) by done.
  change (ToLower "Connection") with "connection"%string.
  change (ToLower "Keep-Alive") with "keep-alive"%string.
  change (ToLower "Proxy-Authenticate") with "proxy-authenticate"%string.
  change (ToLower "Proxy-Authorization") with "proxy-authorization"%string.
  change (ToLower "Te") with "te"%string.
  change (ToLower "Trailers") with "trailers"%string.
  change (ToLower "Transfer-Encoding") with "transfer-encoding"%string.
  change (ToLower "Upgrade") with "upgrade"%string.
  rewrite !orb_true_iff, !String.eqb_eq.
  unfold hopByHopHeaders_lower. rewrite !elem_of_cons, elem_of_nil.
  tauto.
Qed.

Lemma X12_isHopByHopHeader_names_witness :
  isHopByHopHeader (fun _ _ => false) "keep-ALIVE" = true
  /\ ~ isHopByHopHeader (fun _ _ => false) "Trailer" = true.
Proof.
  split.
  - apply (X12_isHopByHopHeader_names (fun _ _ => false) "keep-ALIVE" eq_refl).
    unfold hopByHopHeaders_lower. apply elem_of_cons. right.
    apply elem_of_cons. by left.
  - intros Hhop.
    apply (X12_isHopByHopHeader_names (fun _ _ => false) "Trailer" eq_refl) in Hhop.
    unfold hopByHopHeaders_lower in Hhop.
    rewrite !elem_of_cons, elem_of_nil in Hhop.
    vm_compute in Hhop. intuition discriminate.
Defined.

(** ** The proxy: the relayed response headers *)

Lemma gin_Header_all_lookup w key values k :
  foldl (fun w value => gin_Header w key value) w values !! k
  = if decide (CanonicalMIMEHeaderKey key = k)
    then match last values with
         | None => w !! k
         | Some v => if String.eqb v "" then None else Some [v]
         end
    else w !! k.
Proof.
  induction values as [|v values IH] using rev_ind.
  - simpl. by destruct (decide _).
  - rewrite foldl_app. simpl. rewrite last_snoc. unfold gin_Header at 1.
    destruct (String.eqb v "").
    + unfold Header_Del. rewrite lookup_delete.
      destruct (decide (CanonicalMIMEHeaderKey key = k)); [done|].
      by rewrite IH.
    + unfold Header_Set. rewrite lookup_insert.
      destruct (decide (CanonicalMIMEHeaderKey key = k)); [done|].
      by rewrite IH.
Qed.

Lemma relay_headers_cons key values entries w :
  relay_headers ((key, values) :: entries) w
  = relay_headers entries (foldl (fun w value => gin_Header w key value) w values).
Proof. done. Qed.

Lemma relay_headers_other entries w k :
  (forall key values, (key, values) ∈ entries -> CanonicalMIMEHeaderKey key <> k) ->
  relay_headers entries w !! k = w !! k.
Proof.
  revert w. induction entries as [|[key values] entries IH]; intros w Hother; [done|].
  rewrite relay_headers_cons, IH.
  - rewrite gin_Header_all_lookup, decide_False; [done|].
    apply (Hother key values). apply elem_of_cons. by left.
  - intros key' values' Hin. apply (Hother key' values').
    apply elem_of_cons. by right.
Qed.

Lemma relay_headers_entry entries w key values :
  NoDup (CanonicalMIMEHeaderKey <$> entries.*1) ->
  (key, values) ∈ entries ->
  relay_headers entries w !! CanonicalMIMEHeaderKey key
  = match last values with
    | None => w !! CanonicalMIMEHeaderKey key
    | Some v => if String.eqb v "" then None else Some [v]
    end.
Proof.
  revert w. induction entries as [|[key' values'] entries IH]; intros w Hnodup Hin.
  - by apply elem_of_nil in Hin.
  - rewrite !fmap_cons in Hnodup. simpl in Hnodup.
    apply NoDup_cons in Hnodup as [Hfresh Hnodup].
    rewrite relay_headers_cons.
    apply elem_of_cons in Hin as [[= -> ->]|Hin].
    + rewrite relay_headers_other.
      * by rewrite gin_Header_all_lookup, decide_True.
      * intros key2 values2 Hin2 Heq. apply Hfresh. rewrite <- Heq.
        apply list_elem_of_fmap_2.
        by apply (list_elem_of_fmap_2 fst _ (key2, values2)).
    + rewrite IH by done.
      destruct (last values); [done|].
      rewrite gin_Header_all_lookup, decide_False; [done|].
      intros Heq. apply Hfresh. rewrite Heq.
      apply list_elem_of_fmap_2.
      by apply (list_elem_of_fmap_2 fst _ (key, values)).
Qed.

Section ProxyRelay.
Context `{External}.

(** X13.  The loop that copies the headers of the backend response
    (whose names net/http has made canonical) onto the response writer
    keeps, for each name, the last value only: an earlier value of a
    repeated header is overwritten, and a last value that is empty
    removes the header, also one set before by the middleware.  Names
    that are not in the backend response keep what the middleware has
    set; no name is filtered, hop-by-hop names included. *)
Theorem X13_relay_headers_last_value h w k :
  range_Header h ≡ₚ map_to_list h ->
  (forall key, is_Some (h !! key) -> CanonicalMIMEHeaderKey key = key) ->
  relay_headers (range_Header h) w !! k
  = match h !! k with
    | None => w !! k
    | Some values =>
        match last values with
        | None => w !! k
        | Some v => if String.eqb v "" then None else Some [v]
        end
    end.
Proof.
  intros Hrange Hcanon.
  assert (Hmem : forall key values,
             (key, values) ∈ range_Header h <-> h !! key = Some values).
  { intros key values. rewrite Hrange. apply elem_of_map_to_list. }
  assert (Hnodup : NoDup (CanonicalMIMEHeaderKey <$> (range_Header h).*1)).
  { replace (CanonicalMIMEHeaderKey <$> (range_Header h).*1)
      with ((range_Header h).*1).
    - rewrite Hrange. apply NoDup_fst_map_to_list.
    - rewrite <- (list_fmap_id ((range_Header h).*1)) at 1.
      apply list_fmap_ext. intros _ key Hkey%list_elem_of_lookup_2.
      apply list_elem_of_fmap in Hkey as [[key' values] [-> Hin]]. simpl.
      symmetry. apply Hcanon. apply Hmem in Hin. by eexists. }
  destruct (h !! k) as [values|] eqn:Hk.
  - rewrite <- (Hcanon k) at 1 by (by eexists).
    rewrite (relay_headers_entry _ w k values Hnodup) by (by apply Hmem).
    by rewrite Hcanon by (by eexists).
  - apply relay_headers_other. intros key values Hin%Hmem Heq.
    rewrite Hcanon in Heq by (by eexists). congruence.
Qed.

(** ** The proxy: the outbound request *)

Lemma copy_headers_origin entries out k v :
  v ∈ Header_values (copy_headers entries out) k ->
  v ∈ Header_values out k
  \/ exists key values,
       (key, values) ∈ entries /\ CanonicalMIMEHeaderKey key = k
       /\ isHopByHopHeader fold_runes key = false /\ v ∈ values.
Proof.
  revert out. induction entries as [|[key values] entries IH]; intros out; [by left|].
  rewrite copy_headers_cons. intros [Hv|(key' & values' & Hin & ?)]%IH.
  - destruct (isHopByHopHeader fold_runes key) eqn:Hkey; simpl in Hv; [by left|].
    rewrite Header_values_Add_all in Hv.
    destruct (decide (CanonicalMIMEHeaderKey key = k)) as [Hk|_]; [|by left].
    apply elem_of_app in Hv as [Hv|Hv]; [by left|].
    right. exists key, values. split; [apply elem_of_cons; by left|done].
  - right. exists key', values'. split; [apply elem_of_cons; by right|done].
Qed.

(** X14.  The outbound request has the method and the body of the
    inbound one; X-Forwarded-Proto and X-Forwarded-Host carry exactly
    one value each, the protocol version and the host of the inbound
    request; and no other header value is invented: every value under
    another name is a value of an inbound header of that canonical name
    that is not hop-by-hop. *)
Theorem X14_outbound_request_origin c targetURL path req :
  range_Header (Headers c) ≡ₚ map_to_list (Headers c) ->
  outbound_request c targetURL path = Ok req ->
  req_Method req = Method c
  /\ Body c = Ok (req_Body req)
  /\ req_Header req !! "X-Forwarded-Proto"%string = Some [Proto c]
  /\ req_Header req !! "X-Forwarded-Host"%string = Some [Host c]
  /\ forall k v,
       v ∈ Header_values (req_Header req) k ->
       k ∉ forwarding_headers ->
       exists key values,
         Headers c !! key = Some values
         /\ CanonicalMIMEHeaderKey key = k
         /\ isHopByHopHeader fold_runes key = false
         /\ v ∈ values.
Proof.
  intros Hrange Hreq.
  pose proof (outbound_request_header _ _ _ _ Hreq) as Hhdr.
  unfold outbound_request in Hreq.
  destruct (url_Parse _) as [fullURL|]; [|done].
  destruct (Body c) as [body|] eqn:Hbody; [|done].
  destruct (NewRequest_err _ _); [done|].
  injection Hreq as <-. simpl in Hhdr |- *.
  split; [done|]. split; [done|]. split; [|split].
  - unfold Header_Set. rewrite lookup_insert_ne by done. apply lookup_insert_eq.
  - unfold Header_Set. apply lookup_insert_eq.
  - intros k v Hv Hfw.
    rewrite !Header_values_Set in Hv.
    repeat match type of Hv with
           | context [decide (?a = k)] =>
               destruct (decide (a = k)) as [E|_];
               [exfalso; apply Hfw; rewrite <- E; unfold forwarding_headers;
                rewrite !elem_of_cons; auto|]
           end.
    apply copy_headers_origin in Hv as [Hv|(key & values & Hin & Hrest)].
    + unfold Header_values in Hv. rewrite lookup_empty in Hv.
      by apply elem_of_nil in Hv.
    + exists key, values. split; [|done].
      rewrite Hrange in Hin. by apply elem_of_map_to_list in Hin.
Qed.

End ProxyRelay.

Lemma X13_relay_headers_last_value_witness :
  relay_headers (@range_Header failing_backend cookie_headers)
     (<["X-Empty" := ["kept"]]> ∅) !! "Set-Cookie"%string
  = Some ["b=2"%string].
Proof.
  rewrite (@X13_relay_headers_last_value failing_backend cookie_headers).
  - reflexivity.
  - reflexivity.
  - intros key [values Hkey]. unfold cookie_headers in Hkey.
    rewrite !lookup_insert in Hkey.
    repeat (destruct (decide _) as [<-|_] in Hkey; [reflexivity|]).
    by rewrite lookup_empty in Hkey.
Defined.

Lemma X14_outbound_request_origin_witness :
  req_Header example_request !! "X-Forwarded-Proto"%string = Some ["HTTP/1.1"%string]
  /\ req_Header example_request !! "X-Forwarded-Host"%string
     = Some ["gateway.local"%string].
Proof.
  destruct (@X14_outbound_request_origin failing_backend example_context
              "http://u0" "/1" example_request) as (_ & _ & H3 & H4 & _).
  - reflexivity.
  - exact example_request_built.
  - split; [exact H3 | exact H4].
Defined.

(** ** The administration of services *)

Section ProxyAdmin.
Context `{External}.

(** X15.  [UnregisterService] of a registered name answers 200; from
    then on a proxied request for that name is answered 404 "Service not
    found" and changes nothing, and a second [UnregisterService] of the
    name is answered 404 with the registry's message.  The balancer and
    the breakers are not touched: a cursor or a breaker of the name
    outlives the registration. *)
Theorem X15_UnregisterService_then_requests p c c' clk :
  is_Some (services (registry p) !! Param c "name") ->
  request_serviceName c' = Param c "name" ->
  let p' := snd (UnregisterService p c) in
  fst (UnregisterService p c)
  = SuccessResponse StatusOK "Service unregistered successfully"
  /\ loadBalancer p' = loadBalancer p
  /\ breakerManager p' = breakerManager p
  /\ ProxyRequest p' c' clk
     = (Return (ErrorResponse StatusNotFound "Service not found"), p')
  /\ UnregisterService p' c
     = (ErrorResponse StatusNotFound "service not found", p').
Proof.
  intros [svc Hsvc] Hname p'. subst p'.
  assert (HU : UnregisterService p c
               = (SuccessResponse StatusOK "Service unregistered successfully",
                  mkProxyHandler
                    (mkRegistry (delete (Param c "name") (services (registry p))))
                    (loadBalancer p) (breakerManager p))).
  { unfold UnregisterService, Unregister. by rewrite Hsvc. }
  rewrite HU. simpl.
  split; [done|]. split; [done|]. split; [done|]. split.
  - apply (ProxyRequest_lookup_failure _ c' clk (errors_New "service not found")).
    rewrite Hname. unfold Get. simpl. by rewrite lookup_delete_eq.
  - unfold UnregisterService, Unregister. simpl. by rewrite lookup_delete_eq.
Qed.

End ProxyAdmin.

Lemma X15_UnregisterService_then_requests_witness :
  fst (UnregisterService example_handler delete_users_context)
  = SuccessResponse 200 "Service unregistered successfully"
  /\ fst (@ProxyRequest failing_backend
            (snd (UnregisterService example_handler delete_users_context))
            example_context example_clock)
     = Return (ErrorResponse 404 "Service not found").
Proof.
  destruct (@X15_UnregisterService_then_requests failing_backend example_handler
              delete_users_context example_context example_clock)
    as (H1 & _ & _ & H4 & _).
  - vm_compute. by eexists.
  - reflexivity.
  - split; [exact H1|]. by rewrite H4.
Defined.

(** ** Decimal text and the configuration *)

Lemma of_uint_acc_ge d acc : (acc <= Pos.of_uint_acc d acc)%positive.
Proof.
  revert acc. induction d as [|d IH|d IH|d IH|d IH|d IH|d IH|d IH|d IH|d IH|d IH];
    intros acc; simpl; [lia|..];
    (etrans; [|apply IH]); lia.
Qed.

Lemma ParseUint_loop_acc d acc :
  Z.pos acc <= 2 ^ 64 - 1 ->
  ParseUint_loop (NilEmpty.string_of_uint d) (Z.pos acc)
  = if Z.pos (Pos.of_uint_acc d acc) <=? 2 ^ 64 - 1
    then Parsed (Z.pos (Pos.of_uint_acc d acc))
    else ErrRange (2 ^ 64 - 1).
Proof.
  revert acc.
  assert (Hstep : forall (c : ascii) (k : Z) (l : Decimal.uint) (acc next : positive),
             digit_val c = Some k -> 0 <= k <= 9 ->
             Z.pos next = Z.pos acc * 10 + k ->
             (forall acc', Z.pos acc' <= 2 ^ 64 - 1 ->
                ParseUint_loop (NilEmpty.string_of_uint l) (Z.pos acc')
                = if Z.pos (Pos.of_uint_acc l acc') <=? 2 ^ 64 - 1
                  then Parsed (Z.pos (Pos.of_uint_acc l acc'))
                  else ErrRange (2 ^ 64 - 1)) ->
             Z.pos acc <= 2 ^ 64 - 1 ->
             ParseUint_loop (String c (NilEmpty.string_of_uint l)) (Z.pos acc)
             = if Z.pos (Pos.of_uint_acc l next) <=? 2 ^ 64 - 1
               then Parsed (Z.pos (Pos.of_uint_acc l next))
               else ErrRange (2 ^ 64 - 1)).
  { intros c k l acc next Hc Hk Hnext IH Hacc.
    cbn [ParseUint_loop]. rewrite Hc.
    pose proof (of_uint_acc_ge l next) as Hge.
    assert (Hge' : Z.pos next <= Z.pos (Pos.of_uint_acc l next)) by lia.
    change ((2 ^ 64 - 1) / 10 + 1) with 1844674407370955162.
    change (2 ^ 64 - 1) with 18446744073709551615 in *.
    destruct (Z.leb_spec 1844674407370955162 (Z.pos acc)).
    { destruct (Z.leb_spec (Z.pos (Pos.of_uint_acc l next)) 18446744073709551615);
        [lia|done]. }
    destruct (Z.ltb_spec 18446744073709551615 (Z.pos acc * 10 + k)).
    { destruct (Z.leb_spec (Z.pos (Pos.of_uint_acc l next)) 18446744073709551615);
        [lia|done]. }
    rewrite <- Hnext. apply IH. lia. }
  induction d as [|d IH|d IH|d IH|d IH|d IH|d IH|d IH|d IH|d IH|d IH];
    intros acc Hacc.
  - simpl. destruct (Z.leb_spec (Z.pos acc) (2 ^ 64 - 1)); [done|lia].
  - apply (Hstep "0"%char 0 d acc (10 * acc)%positive); [done|lia|lia|done|done].
  - apply (Hstep "1"%char 1 d acc (1 + 10 * acc)%positive); [done|lia|lia|done|done].
  - apply (Hstep "2"%char 2 d acc (2 + 10 * acc)%positive); [done|lia|lia|done|done].
  - apply (Hstep "3"%char 3 d acc (3 + 10 * acc)%positive); [done|lia|lia|done|done].
  - apply (Hstep "4"%char 4 d acc (4 + 10 * acc)%positive); [done|lia|lia|done|done].
  - apply (Hstep "5"%char 5 d acc (5 + 10 * acc)%positive); [done|lia|lia|done|done].
  - apply (Hstep "6"%char 6 d acc (6 + 10 * acc)%positive); [done|lia|lia|done|done].
  - apply (Hstep "7"%char 7 d acc (7 + 10 * acc)%positive); [done|lia|lia|done|done].
  - apply (Hstep "8"%char 8 d acc (8 + 10 * acc)%positive); [done|lia|lia|done|done].
  - apply (Hstep "9"%char 9 d acc (9 + 10 * acc)%positive); [done|lia|lia|done|done].
Qed.

Lemma ParseUint_loop_zero d :
  ParseUint_loop (NilEmpty.string_of_uint d) 0
  = if Z.of_N (Pos.of_uint d) <=? 2 ^ 64 - 1
    then Parsed (Z.of_N (Pos.of_uint d))
    else ErrRange (2 ^ 64 - 1).
Proof.
  induction d as [|d IH|d IH|d IH|d IH|d IH|d IH|d IH|d IH|d IH|d IH];
    [done|exact IH|..];
    cbn [NilEmpty.string_of_uint ParseUint_loop Pos.of_uint];
    match goal with
    | |- context [digit_val ?c] =>
        let v := eval vm_compute in (digit_val c) in
        change (digit_val c) with v
    end;
    cbv iota beta;
    match goal with
    | |- context [ParseUint_loop _ (0 * 10 + ?k)] =>
        change (0 * 10 + k) with k;
        change ((2 ^ 64 - 1) / 10 + 1 <=? 0) with false;
        change (2 ^ 64 - 1 <? k) with false;
        cbv iota
    end;
    (rewrite ParseUint_loop_acc by (vm_compute; discriminate)); done.
Qed.

Lemma string_of_uint_nonnil d :
  d <> Decimal.Nil ->
  NilZero.string_of_uint d = NilEmpty.string_of_uint d
  /\ exists c s, NilEmpty.string_of_uint d = String c s
                 /\ Ascii.eqb c "+" = false /\ Ascii.eqb c "-" = false.
Proof.
  destruct d; [done|..]; intros _; (split; [done|]); simpl; eauto.
Qed.

Lemma ParseUint_digits p :
  ParseUint (NilEmpty.string_of_uint (Pos.to_uint p))
  = if Z.pos p <=? 2 ^ 64 - 1 then Parsed (Z.pos p) else ErrRange (2 ^ 64 - 1).
Proof.
  destruct (string_of_uint_nonnil (Pos.to_uint p)) as [_ (c & s & Hs & _)].
  { apply Unsigned.to_uint_nonnil. }
  unfold ParseUint. rewrite Hs, <- Hs.
  rewrite ParseUint_loop_zero, Unsigned.of_to. done.
Qed.

(** The text [strconv.Itoa] writes is read back by [ParseInt] as the
    same integer; an integer beyond the 64-bit range is an error, with
    the nearest bound. *)
Lemma ParseInt_Itoa n :
  ParseInt (Itoa n)
  = if n <? min_int then ErrRange min_int
    else if max_int <? n then ErrRange max_int
    else Parsed n.
Proof.
  unfold Itoa, min_int, max_int.
  change (- 2 ^ 63) with (-9223372036854775808).
  change (2 ^ 63 - 1) with 9223372036854775807.
  destruct n as [|p|p]; [done|..]; cbn [Z.to_int NilZero.string_of_int].
  - destruct (string_of_uint_nonnil (Pos.to_uint p)) as [-> (c & s & Hs & Hp & Hm)].
    { apply Unsigned.to_uint_nonnil. }
    unfold ParseInt. rewrite Hs, Hp, Hm, <- Hs. cbn [orb negb andb].
    rewrite ParseUint_digits.
    change (2 ^ 64 - 1) with 18446744073709551615.
    change (2 ^ 63) with 9223372036854775808.
    destruct (Z.ltb_spec (Z.pos p) (-9223372036854775808)); [lia|].
    destruct (Z.leb_spec (Z.pos p) 18446744073709551615);
      destruct (Z.ltb_spec 9223372036854775807 (Z.pos p)); try lia.
    + destruct (Z.leb_spec 9223372036854775808 (Z.pos p)); [done|lia].
    + destruct (Z.leb_spec 9223372036854775808 (Z.pos p)); [lia|done].
    + done.
  - destruct (string_of_uint_nonnil (Pos.to_uint p)) as [-> (c & s & Hs & Hp & Hm)].
    { apply Unsigned.to_uint_nonnil. }
    unfold ParseInt. change (Ascii.eqb "-" "+") with false.
    change (Ascii.eqb "-" "-") with true. cbn [orb negb andb].
    rewrite ParseUint_digits.
    change (2 ^ 64 - 1) with 18446744073709551615.
    change (2 ^ 63) with 9223372036854775808.
    destruct (Z.ltb_spec (Z.neg p) (-9223372036854775808));
      destruct (Z.leb_spec (Z.pos p) 18446744073709551615); try lia.
    + destruct (Z.ltb_spec 9223372036854775808 (Z.pos p)); [done|lia].
    + done.
    + destruct (Z.ltb_spec 9223372036854775808 (Z.pos p)); [lia|].
      destruct (Z.ltb_spec 9223372036854775807 (Z.neg p)); [lia|done].
Qed.

Lemma ParseUint_loop_non_digit s acc v :
  string_forallb is_digit s = false -> ParseUint_loop s acc <> Parsed v.
Proof.
  revert acc. induction s as [|c s IH]; intros acc; [done|].
  cbn [string_forallb ParseUint_loop]. unfold digit_val. fold (is_digit c).
  destruct (is_digit c); [|done]. simpl. intros Hs.
  destruct (_ <=? acc); [done|]. destruct (_ <? _); [done|]. by apply IH.
Qed.

Lemma ParseUint_loop_ErrRange s acc v :
  ParseUint_loop s acc = ErrRange v -> v = 2 ^ 64 - 1.
Proof.
  revert acc. induction s as [|c s IH]; intros acc; [done|].
  cbn [ParseUint_loop]. destruct (digit_val c); [|done].
  destruct (_ <=? acc); [by intros [= <-]|].
  destruct (_ <? _); [by intros [= <-]|]. apply IH.
Qed.

Lemma ParseUint_ErrRange s v : ParseUint s = ErrRange v -> v = 2 ^ 64 - 1.
Proof. destruct s; [done|]. apply ParseUint_loop_ErrRange. Qed.

(** ** Package config *)

(** X16.  [getEnvAsInt] returns the integer whose decimal text the
    variable holds, when that integer is an [int]; it returns the
    default when the variable is not set or empty, when the integer is
    out of the 64-bit range (it is not clamped), and when the text,
    after one leading sign, has a byte that is not a decimal digit
    (a space included). *)
Theorem X16_getEnvAsInt env key defaultValue :
  (forall n, env key = Itoa n ->
     getEnvAsInt env key defaultValue
     = if (min_int <=? n) && (n <=? max_int) then n else defaultValue)
  /\ (env key = ""%string -> getEnvAsInt env key defaultValue = defaultValue)
  /\ (string_forallb is_digit (unsigned_part (env key)) = false ->
      getEnvAsInt env key defaultValue = defaultValue).
Proof.
  unfold getEnvAsInt, Atoi. split; [|split].
  - intros n ->. rewrite ParseInt_Itoa.
    destruct (Z.ltb_spec n min_int); destruct (Z.leb_spec min_int n); try lia;
      [done|].
    destruct (Z.ltb_spec max_int n); destruct (Z.leb_spec n max_int); try lia; done.
  - by intros ->.
  - destruct (env key) as [|c s]; [done|]. unfold ParseInt, unsigned_part.
    intros Hbad.
    destruct (ParseUint (if Ascii.eqb c "+" || Ascii.eqb c "-" then s else String c s))
      as [un| |un] eqn:HP; [|done|].
    + exfalso. unfold ParseUint in HP.
      destruct (if Ascii.eqb c "+" || Ascii.eqb c "-" then s else String c s) eqn:E;
        [done|]. by apply ParseUint_loop_non_digit in HP.
    + apply ParseUint_ErrRange in HP as ->.
      by destruct (Ascii.eqb c "-").
Qed.

(** ** The rate limiter: what a request leaves alone *)

Lemma redis_apply_other db cmd key key' :
  match cmd with HSet k _ _ | Expire k _ => k end = key ->
  key' <> key ->
  redis_apply db cmd !! key' = db !! key'.
Proof.
  intros Hk Hne. destruct cmd as [k f v|k e]; simpl in *; subst k.
  - by rewrite lookup_insert_ne.
  - destruct (db !! key); [|done].
    destruct (formatSec e <=? 0); [by rewrite lookup_delete_ne | by rewrite lookup_insert_ne].
Qed.

Lemma gin_Header_other w key value k :
  CanonicalMIMEHeaderKey key <> k ->
  gin_Header w key value !! k = w !! k.
Proof.
  intros Hne. unfold gin_Header, Header_Del, Header_Set.
  destruct (String.eqb value ""); [by rewrite lookup_delete_ne | by rewrite lookup_insert_ne].
Qed.

Lemma ttl_HSet db key field value key' :
  redis_apply db (HSet key field value) !! key' ≫= ttl = db !! key' ≫= ttl.
Proof.
  simpl. rewrite lookup_insert. destruct (decide (key = key')) as [<-|]; done.
Qed.

Lemma ttl_Expire db key expiration :
  is_Some (db !! key) ->
  0 < expiration ->
  redis_apply db (Expire key expiration) !! key ≫= ttl = Some (formatSec expiration).
Proof.
  intros [entry Hentry] Hpos. simpl. rewrite Hentry, formatSec_nonpos.
  destruct (Z.leb_spec expiration 0); [lia|]. by rewrite lookup_insert_eq.
Qed.

Lemma deleted_by_Expire db key expiration :
  expiration <= 0 ->
  redis_apply db (Expire key expiration) !! key = None.
Proof.
  intros Hneg. simpl. destruct (db !! key) as [entry|] eqn:Hentry; [|done].
  rewrite formatSec_nonpos.
  destruct (Z.leb_spec expiration 0); [|lia]. apply lookup_delete_eq.
Qed.

Lemma is_Some_HSet db key field value :
  is_Some (redis_apply db (HSet key field value) !! key).
Proof. simpl. rewrite lookup_insert_eq. by eexists. Qed.

Section RateLimiterFrame.
Context `{FloatText} `{NetIP}.

(** X17.  A request changes no bucket but that of its own client
    address: the bucket of another client is left exactly as it was.
    Of the response headers it changes none but X-RateLimit-Limit,
    X-RateLimit-Remaining, X-RateLimit-Reset, Retry-After and
    Content-Type; the Content-Type is left as it was when the request
    goes on, and when the request is aborted [c.JSON] sets it to
    "application/json; charset=utf-8" unless the response has one. *)
Theorem X17_RateLimiter_frame redis cfg c now link :
  let r := RateLimiter redis cfg c now link in
  (forall key', key' <> ("ratelimit:" ++ ClientIP c)%string ->
     snd r !! key' = redis !! key')
  /\ (forall c', ClientIP c' <> ClientIP c ->
        snd r !! ("ratelimit:" ++ ClientIP c')%string
        = redis !! ("ratelimit:" ++ ClientIP c')%string)
  /\ (forall k, k ∉ ratelimit_headers -> k <> "Content-Type"%string ->
        written (fst r) !! k = Writer_Header c !! k)
  /\ (verdict (fst r) = Next ->
      written (fst r) !! "Content-Type"%string
      = Writer_Header c !! "Content-Type"%string)
  /\ (verdict (fst r) <> Next ->
      written (fst r) !! "Content-Type"%string
      = match Writer_Header c !! "Content-Type"%string with
        | Some (v :: values) => Some (v :: values)
        | _ => Some jsonContentType
        end).
Proof.
  intros r.
  assert (Hkeys : forall key', key' <> ("ratelimit:" ++ ClientIP c)%string ->
            snd r !! key' = redis !! key').
  { intros key' Hne. subst r. unfold RateLimiter.
    destruct (_ || _).
    - unfold Exec. destruct (write_err link); [done|]. cbn [foldl snd].
      rewrite !(redis_apply_other _ _ ("ratelimit:" ++ ClientIP c)%string key');
        done.
    - destruct (f64_lt _ _); [done|].
      unfold Exec. destruct (write_err link); [done|]. cbn [foldl snd].
      rewrite !(redis_apply_other _ _ ("ratelimit:" ++ ClientIP c)%string key');
        done. }
  split; [done|]. split; [|split; [|split]].
  - intros c' Hne. apply Hkeys. intros Heq. apply Hne.
    by injection Heq.
  - intros k Hk Hct. unfold ratelimit_headers in Hk.
    rewrite !not_elem_of_cons in Hk. destruct Hk as (H1 & H2 & H3 & H4 & _).
    subst r. unfold RateLimiter.
    destruct (_ || _).
    + unfold Exec. destruct (write_err link); [|done].
      cbn [fst written]. by rewrite writeContentType_other.
    + destruct (f64_lt _ _).
      * cbn [fst written]. rewrite writeContentType_other by done.
        rewrite !gin_Header_other; done.
      * unfold Exec. destruct (write_err link).
        -- cbn [fst written]. by rewrite writeContentType_other.
        -- cbn [fst written]. rewrite !gin_Header_other; done.
  - subst r. unfold RateLimiter.
    destruct (_ || _).
    + unfold Exec. by destruct (write_err link).
    + destruct (f64_lt _ _); [done|].
      unfold Exec. destruct (write_err link); [done|]. intros _.
      cbn [fst written]. rewrite !gin_Header_other; done.
  - subst r. unfold RateLimiter.
    destruct (_ || _).
    + unfold Exec. destruct (write_err link); [|done]. intros _.
      cbn [fst written]. apply writeContentType_Content_Type.
    + destruct (f64_lt _ _).
      * intros _. cbn [fst written]. rewrite writeContentType_Content_Type.
        rewrite !gin_Header_other; done.
      * unfold Exec. destruct (write_err link); [|done]. intros _.
        cbn [fst written]. apply writeContentType_Content_Type.
Qed.


End RateLimiterFrame.

(** ** The rate limiter: the bucket never overflows *)

Lemma SFltb_irrefl x : SFltb x x = false.
Proof.
  unfold SFltb. destruct x as [s|[]| |[] m e]; simpl; try done.
  - rewrite Z.compare_refl.
    change (PosDef.Pos.compare_cont Eq m m) with (Pos.compare m m).
    by rewrite Pos.compare_refl.
  - rewrite Z.compare_refl.
    change (PosDef.Pos.compare_cont Eq m m) with (Pos.compare m m).
    by rewrite Pos.compare_refl.
Qed.

Section RateLimiterBounds.
Context `{FloatText} `{NetIP}.

(** X19.  Whatever the bucket holds and however long the client has
    been away, the token count after the refill is never greater than
    the capacity [float64(cfg.Requests)]. *)
Theorem X19_refilled_tokens_capped cfg bucketData now :
  f64_lt (float64_of_int (cfg_Requests cfg)) (refilled_tokens cfg bucketData now)
  = false.
Proof.
  unfold refilled_tokens.
  match goal with |- f64_lt ?a (math_Min ?a ?t) = false =>
    generalize t as y; generalize a as x end.
  intros x y.
  unfold math_Min.
  destruct (f64_is_inf x true || f64_is_inf y true).
  { by destruct x as [[]|[]| |[]]. }
  destruct (f64_is_nan x || f64_is_nan y).
  { by destruct x as [[]|[]| |[]]. }
  destruct (f64_eq x f64_zero && f64_eq x y) eqn:Hz.
  - destruct (f64_signbit x); [apply SFltb_irrefl|].
    apply andb_true_iff in Hz as [_ Hxy]. unfold f64_eq, SFeqb in Hxy.
    unfold f64_lt, SFltb. by destruct (SFcompare x y) as [[]|].
  - destruct (f64_lt x y) eqn:Hlt; [apply SFltb_irrefl | done].
Qed.

(** ** The rate limiter: two requests *)

Lemma RateLimiter_rejects_iff redis cfg c now link :
  read_err link = None ->
  HGetAll redis ("ratelimit:" ++ ClientIP c) <> ∅ ->
  verdict (fst (RateLimiter redis cfg c now link))
  = Abort StatusTooManyRequests "Rate limit exceeded. Please try again later."
  <-> f64_lt (refilled_tokens cfg (HGetAll redis ("ratelimit:" ++ ClientIP c)) now)
             f64_one = true.
Proof.
  intros Hread Hne.
  destruct (RateLimiter_later_observation redis cfg c now link Hread Hne)
    as [Hreject Hpass].
  split; [|done].
  intros Hv.
  destruct (f64_lt (refilled_tokens cfg _ now) f64_one) eqn:E; [done|].
  destruct (Hpass eq_refl) as [Hok Hdown].
  destruct (write_err link) as [e|] eqn:Hw.
  - rewrite Hdown in Hv by (by eexists). discriminate.
  - destruct Hok as [Hv' _]; [done|]. rewrite Hv' in Hv. discriminate.
Qed.

(** X20.  The first request of a client (no bucket yet, the store
    writable, the expiry -- twice the window -- positive, so that the
    store keeps the key) goes on and leaves a bucket that the next
    request of that client, made while the key is in the store, reads
    back: the timestamp written at [t1] is parsed as [t1],
    the elapsed time at [t2] is [t2 - t1], and the next request is
    rejected exactly when
    [min(capacity, stored + (t2 - t1) * refillRate) < 1], where [stored]
    is what [ParseFloat] makes of the text of [capacity - 1]. *)
Theorem X20_first_then_next_request redis cfg c t1 link :
  let key := ("ratelimit:" ++ ClientIP c)%string in
  let r1 := RateLimiter redis cfg c t1 link in
  let capacity := float64_of_int (cfg_Requests cfg) in
  let refillRate := f64_div capacity (Duration_Seconds (cfg_Window cfg)) in
  let stored :=
    parsed_value f64_zero (ParseFloat (Itoa (wrap64 (cfg_Requests cfg - 1)))) in
  HGetAll redis key = ∅ ->
  write_err link = None ->
  min_int <= t1 <= max_int ->
  0 < wrap64 (cfg_Window cfg * 2) ->
  verdict (fst r1) = Next
  /\ HGetAll (snd r1) key
     = <["timestamp"%string := Itoa t1]>
         {[ "tokens"%string := Itoa (wrap64 (cfg_Requests cfg - 1)) ]}
  /\ forall t2,
       refilled_tokens cfg (HGetAll (snd r1) key) t2
       = math_Min capacity
           (f64_add stored (f64_mul (float64_of_int (wrap64 (t2 - t1))) refillRate))
       /\ forall c2 link2,
            ClientIP c2 = ClientIP c ->
            read_err link2 = None ->
            (verdict (fst (RateLimiter (snd r1) cfg c2 t2 link2))
             = Abort StatusTooManyRequests "Rate limit exceeded. Please try again later."
             <-> f64_lt
                   (math_Min capacity
                      (f64_add stored
                         (f64_mul (float64_of_int (wrap64 (t2 - t1))) refillRate)))
                   f64_one = true).
Proof.
  intros key r1 capacity refillRate stored Hempty Hw Ht1 Hexpiry.
  assert (Hfirst : bool_decide (is_Some (read_err link))
                   || (Z.of_nat (size (HGetAll redis key)) =? 0) = true).
  { apply first_observation_test. by right. }
  assert (Hr1 : verdict (fst r1) = Next
                /\ HGetAll (snd r1) key
                   = <["timestamp"%string := Itoa t1]>
                       {[ "tokens"%string := Itoa (wrap64 (cfg_Requests cfg - 1)) ]}).
  { subst r1. unfold RateLimiter. fold key. rewrite Hfirst, Hw.
    unfold Exec. cbn [foldl fst snd verdict]. split; [done|].
    rewrite HGetAll_Expire, !HGetAll_HSet, !decide_True by done.
    destruct (Z.leb_spec (wrap64 (cfg_Window cfg * 2)) 0); [lia|].
    by rewrite Hempty, insert_empty. }
  destruct Hr1 as [Hv Hbucket]. split; [done|]. split; [done|].
  intros t2.
  assert (Htokens : refilled_tokens cfg (HGetAll (snd r1) key) t2
            = math_Min capacity
                (f64_add stored
                   (f64_mul (float64_of_int (wrap64 (t2 - t1))) refillRate))).
  { unfold refilled_tokens. rewrite Hbucket.
    rewrite lookup_insert_ne by done. rewrite lookup_singleton_eq.
    rewrite lookup_insert_eq. cbn [from_option id].
    rewrite ParseInt_Itoa.
    destruct (Z.ltb_spec t1 min_int); [lia|].
    destruct (Z.ltb_spec max_int t1); [lia|]. done. }
  split; [done|].
  intros c2 link2 Hip Hread. rewrite <- Htokens.
  unfold key. rewrite <- Hip. apply RateLimiter_rejects_iff; [done|].
  rewrite Hip. fold key. rewrite Hbucket.
  apply insert_non_empty.
Qed.

End RateLimiterBounds.


Lemma X20_first_then_next_request_witness :
  verdict (fst (@RateLimiter integer_text ipv4_text ∅ example_limits example_context
                  1700000000 link_up)) = Next
  /\ @refilled_tokens integer_text example_limits
       (HGetAll (snd (@RateLimiter integer_text ipv4_text ∅ example_limits example_context
                        1700000000 link_up)) "ratelimit:10.0.0.7") 1700000000
     = float64_of_int 99.
Proof.
  destruct (@X20_first_then_next_request integer_text ipv4_text ∅ example_limits
              example_context 1700000000 link_up) as (Hv & _ & Hnext).
  - reflexivity.
  - reflexivity.
  - vm_compute. split; discriminate.
  - reflexivity.
  - split; [exact Hv|].
    destruct (Hnext 1700000000) as [Htokens _].
    etrans; [exact Htokens|]. vm_compute. reflexivity.
Defined.

(** ** The rate limiter: the headers by outcome *)

Section RateLimiterHeaders.
Context `{FloatText} `{NetIP}.

(** X21.  The rate-limit headers by outcome.  The first request of a
    client (no bucket, or a failed read) that goes on leaves the
    response headers as they were.  A request aborted with 500 gets no
    rate-limit header: of the response headers only Content-Type is
    written, by [c.JSON].  A later request that goes on gets
    X-RateLimit-Limit, the capacity, and X-RateLimit-Reset, the current
    time plus the whole seconds of the window, and no Retry-After; a
    rejected one gets X-RateLimit-Limit and X-RateLimit-Reset, the
    current time plus the retry delay. *)
Theorem X21_RateLimiter_headers redis cfg c now link :
  let key := ("ratelimit:" ++ ClientIP c)%string in
  let bucket := HGetAll redis key in
  let r := RateLimiter redis cfg c now link in
  let tokens := refilled_tokens cfg bucket now in
  let refillRate :=
    f64_div (float64_of_int (cfg_Requests cfg)) (Duration_Seconds (cfg_Window cfg)) in
  let retryAfter :=
    int_of_float64 (math_Ceil (f64_div (f64_sub f64_one tokens) refillRate)) in
  (is_Some (read_err link) \/ bucket = ∅ -> verdict (fst r) = Next ->
   written (fst r) = Writer_Header c)
  /\ (verdict (fst r) = Abort StatusInternalServerError "Rate limiter error" ->
      written (fst r) = writeContentType (Writer_Header c) jsonContentType
      /\ forall k, k <> "Content-Type"%string ->
           written (fst r) !! k = Writer_Header c !! k)
  /\ (read_err link = None -> bucket <> ∅ ->
      (verdict (fst r) = Next ->
         written (fst r) !! "X-Ratelimit-Limit"%string = Some [Itoa (cfg_Requests cfg)]
         /\ written (fst r) !! "X-Ratelimit-Reset"%string
            = Some [Itoa (wrap64 (now + int_of_float64
                                          (Duration_Seconds (cfg_Window cfg))))]
         /\ written (fst r) !! "Retry-After"%string
            = Writer_Header c !! "Retry-After"%string)
      /\ (verdict (fst r)
          = Abort StatusTooManyRequests "Rate limit exceeded. Please try again later." ->
          written (fst r) !! "X-Ratelimit-Limit"%string
          = Some [Itoa (cfg_Requests cfg)]
          /\ written (fst r) !! "X-Ratelimit-Reset"%string
             = Some [Itoa (wrap64 (now + retryAfter))])).
Proof.
  intros key bucket r tokens refillRate retryAfter.
  split; [|split].
  - intros Hfirst%first_observation_test.
    subst r. unfold RateLimiter. fold key. fold bucket. rewrite Hfirst.
    unfold Exec. by destruct (write_err link).
  - subst r. unfold RateLimiter. fold key. fold bucket.
    destruct (_ || _).
    + unfold Exec. destruct (write_err link); [|done]. intros _.
      split; [done|]. intros k Hk. cbn [fst written].
      by apply writeContentType_other.
    + fold tokens. destruct (f64_lt tokens f64_one); [done|].
      unfold Exec. destruct (write_err link); [|done]. intros _.
      split; [done|]. intros k Hk. cbn [fst written].
      by apply writeContentType_other.
  - intros Hread Hne.
    pose proof (later_observation_test link bucket Hread Hne) as Hlater.
    subst r. unfold RateLimiter. fold key. fold bucket. rewrite Hlater.
    fold tokens refillRate. destruct (f64_lt tokens f64_one).
    + split; [done|]. intros _. cbn [fst written]. fold retryAfter.
      rewrite !writeContentType_other by done.
      rewrite !gin_Header_Itoa. unfold gin_Header.
      change (String.eqb "0" "") with false. cbv iota.
      unfold Header_Set. split.
      * rewrite !lookup_insert_ne by done. apply lookup_insert_eq.
      * rewrite lookup_insert_ne by done. apply lookup_insert_eq.
    + unfold Exec. destruct (write_err link); [done|]. split; [|done].
      intros _. cbn [fst written]. rewrite !gin_Header_Itoa.
      unfold Header_Set. split; [|split].
      * rewrite !lookup_insert_ne by done. apply lookup_insert_eq.
      * apply lookup_insert_eq.
      * by rewrite !lookup_insert_ne by done.
Qed.

End RateLimiterHeaders.

(** ** The rate limiter: a burst within one second *)

Lemma range_forallb (f : Z -> bool) (hi : Z) :
  forallb (fun i => f (Z.of_nat i)) (seq 0 (S (Z.to_nat hi))) = true ->
  forall n, 0 <= n <= hi -> f n = true.
Proof.
  intros Hall n Hn. rewrite forallb_forall in Hall.
  rewrite <- (Z2Nat.id n) by lia. apply Hall. apply in_seq. lia.
Qed.

Lemma float64_of_small_int n :
  1 <= n <= checked_capacity ->
  is_small_int_float n (float64_of_int n) = true.
Proof.
  intros Hn.
  assert (Hchk : (n =? 0) || is_small_int_float n (float64_of_int n) = true).
  { apply (range_forallb
             (fun n => (n =? 0) || is_small_int_float n (float64_of_int n))
             checked_capacity).
    - vm_compute. reflexivity.
    - lia. }
  destruct (Z.eqb_spec n 0); [lia | done].
Qed.

Lemma f64_sub_one_small n :
  1 <= n <= checked_capacity ->
  f64_sub (float64_of_int n) f64_one = float64_of_int (n - 1).
Proof.
  intros Hn.
  assert (Hchk : (n =? 0)
                 || match f64_sub (float64_of_int n) f64_one, float64_of_int (n - 1) with
                    | S754_finite s m e, S754_finite s' m' e' =>
                        Bool.eqb s s' && Pos.eqb m m' && Z.eqb e e'
                    | S754_zero s, S754_zero s' => Bool.eqb s s'
                    | _, _ => false
                    end = true).
  { apply (range_forallb
             (fun n => (n =? 0)
                       || match f64_sub (float64_of_int n) f64_one,
                                float64_of_int (n - 1) with
                          | S754_finite s m e, S754_finite s' m' e' =>
                              Bool.eqb s s' && Pos.eqb m m' && Z.eqb e e'
                          | S754_zero s, S754_zero s' => Bool.eqb s s'
                          | _, _ => false
                          end) checked_capacity).
    - vm_compute. reflexivity.
    - lia. }
  destruct (Z.eqb_spec n 0); [lia|]. simpl in Hchk.
  destruct (f64_sub _ _) as [s| | |s m e], (float64_of_int (n - 1)) as [s'| | |s' m' e'];
    try done.
  - apply Bool.eqb_prop in Hchk. by subst.
  - apply andb_true_iff in Hchk as [[Hs Hm]%andb_true_iff He].
    apply Bool.eqb_prop in Hs. apply Pos.eqb_eq in Hm. apply Z.eqb_eq in He.
    by subst.
Qed.

(** Two mantissas of 53 bits, of which the one of the smaller integer has
    the larger scale: impossible. *)
Lemma scaled_order a b q t ma mb :
  a <= b -> 0 < a -> 0 < q -> 2 <= t ->
  ma = a * q -> mb = b * q * t ->
  4503599627370496 <= ma -> mb < 9007199254740992 -> False.
Proof.
  intros Hab Ha Hq Ht -> -> Hlo Hhi.
  assert (H1 : a * q <= b * q) by (apply Z.mul_le_mono_nonneg_r; lia).
  assert (H2 : b * q * 2 <= b * q * t) by (apply Z.mul_le_mono_nonneg_l; lia).
  lia.
Qed.

(** Floats of small positive integers compare as the integers do. *)
Lemma f64_lt_small a b :
  1 <= a <= checked_capacity -> 1 <= b <= checked_capacity ->
  f64_lt (float64_of_int a) (float64_of_int b) = (a <? b).
Proof.
  intros Ha Hb.
  pose proof (float64_of_small_int a Ha) as Hfa.
  pose proof (float64_of_small_int b Hb) as Hfb.
  destruct (float64_of_int a) as [| | |[] ma ea]; try done.
  destruct (float64_of_int b) as [| | |[] mb eb]; try done.
  unfold is_small_int_float in Hfa, Hfb.
  repeat (apply andb_true_iff in Hfa as [Hfa ?]).
  repeat (apply andb_true_iff in Hfb as [Hfb ?]).
  repeat match goal with
         | H : (_ <=? _) = true |- _ => apply Z.leb_le in H
         | H : (_ <? _) = true |- _ => apply Z.ltb_lt in H
         | H : (_ =? _) = true |- _ => apply Z.eqb_eq in H
         end.
  change (2 ^ 52) with 4503599627370496 in *.
  change (2 ^ 53) with 9007199254740992 in *.
  assert (Hpa : 0 < 2 ^ (- ea)) by (apply Z.pow_pos_nonneg; lia).
  assert (Hpb : 0 < 2 ^ (- eb)) by (apply Z.pow_pos_nonneg; lia).
  unfold f64_lt, SFltb. cbn [SFcompare].
  change (PosDef.Pos.compare_cont Eq ma mb) with (Pos.compare ma mb).
  destruct (Z.compare_spec ea eb) as [He|He|He].
  - subst eb. rewrite Pos2Z.inj_compare.
    pose proof (Z.mul_lt_mono_pos_r (2 ^ (- ea)) a b Hpa) as [Hlt _].
    pose proof (Z.mul_le_mono_nonneg_r b a (2 ^ (- ea))) as Hge.
    destruct (Z.compare_spec (Z.pos ma) (Z.pos mb)) as [Hm|Hm|Hm];
      destruct (Z.ltb_spec a b) as [Hab|Hab]; try done; exfalso;
      [specialize (Hlt Hab) | specialize (Hge ltac:(lia) Hab)
       | specialize (Hlt Hab)]; lia.
  - destruct (Z.ltb_spec a b); [done|]. exfalso.
    apply (scaled_order b a (2 ^ (- eb)) (2 ^ (eb - ea)) (Z.pos mb) (Z.pos ma));
      try lia.
    + change 2 with (2 ^ 1) at 1. apply Z.pow_le_mono_r; lia.
    + rewrite <- Z.mul_assoc, <- Z.pow_add_r by lia.
      replace (- eb + (eb - ea)) with (- ea) by lia. lia.
  - destruct (Z.ltb_spec a b); [|done]. exfalso.
    apply (scaled_order a b (2 ^ (- ea)) (2 ^ (ea - eb)) (Z.pos ma) (Z.pos mb));
      try lia.
    + change 2 with (2 ^ 1) at 1. apply Z.pow_le_mono_r; lia.
    + rewrite <- Z.mul_assoc, <- Z.pow_add_r by lia.
      replace (- ea + (ea - eb)) with (- eb) by lia. lia.
Qed.

Lemma float64_of_small_int_finite n :
  1 <= n <= checked_capacity ->
  exists m e, float64_of_int n = S754_finite false m e.
Proof.
  intros Hn. pose proof (float64_of_small_int n Hn) as Hf.
  destruct (float64_of_int n) as [| | |[] m e]; try discriminate Hf.
  by eexists _, _.
Qed.

Lemma bucket_with_update n now v :
  <["timestamp"%string := Itoa now]> (<["tokens"%string := v]> (bucket_with n now))
  = <["timestamp"%string := Itoa now]> {[ "tokens"%string := v ]}.
Proof.
  unfold bucket_with. apply map_eq. intros k.
  destruct (decide (k = "timestamp"%string)) as [->|Hts].
  - by rewrite !lookup_insert_eq.
  - rewrite !(lookup_insert_ne _ "timestamp"%string) by done.
    destruct (decide (k = "tokens"%string)) as [->|Htk].
    + by rewrite lookup_insert_eq, lookup_singleton_eq.
    + rewrite lookup_insert_ne by done.
      rewrite (lookup_insert_ne _ "timestamp"%string) by done.
      by rewrite !lookup_singleton_ne by done.
Qed.

Section Burst.
Context `{FloatText} `{NetIP}.
Variable cfg : RateLimitConfig.
Variable c : Context.
Variable now : Z.

Let key := ("ratelimit:" ++ ClientIP c)%string.
Let capacity := float64_of_int (cfg_Requests cfg).
Let refillRate := f64_div capacity (Duration_Seconds (cfg_Window cfg)).
Let rejected :=
  Abort StatusTooManyRequests "Rate limit exceeded. Please try again later.".

Hypothesis Hcap : 1 <= cfg_Requests cfg <= checked_capacity.
Hypothesis Hparse :
  forall n, 0 <= n <= checked_capacity ->
    ParseFloat (Itoa n) = Parsed (float64_of_int n).
Hypothesis Hformat :
  forall n, 0 <= n <= checked_capacity ->
    FormatFloat (float64_of_int n) = Itoa n.
Hypothesis Hrate_nan : f64_is_nan refillRate = false.
Hypothesis Hrate_inf : f64_is_inf refillRate false = false.
Hypothesis Hrate_ninf : f64_is_inf refillRate true = false.
Hypothesis Hnow : min_int <= now <= max_int.

Lemma refilled_same_second n :
  0 <= n <= cfg_Requests cfg ->
  refilled_tokens cfg (bucket_with n now) now = float64_of_int n.
Proof using Hcap Hparse Hrate_nan Hrate_inf Hrate_ninf Hnow.
  intros Hn. unfold refilled_tokens, bucket_with.
  rewrite lookup_insert_ne by done. rewrite lookup_singleton_eq, lookup_insert_eq.
  cbn [from_option id]. rewrite Hparse by lia. rewrite ParseInt_Itoa.
  destruct (Z.ltb_spec now min_int); [lia|].
  destruct (Z.ltb_spec max_int now); [lia|]. cbn [parsed_value].
  rewrite Z.sub_diag. change (wrap64 0) with 0.
  fold capacity. fold refillRate.
  destruct (float64_of_small_int_finite (cfg_Requests cfg) Hcap) as (mc & ec & Hc).
  assert (Hadd : f64_mul (float64_of_int 0) refillRate = S754_zero false
                 \/ f64_mul (float64_of_int 0) refillRate = S754_zero true).
  { destruct refillRate as [[]|[]| |[] m e]; try done; auto. }
  destruct (decide (n = 0)) as [->|Hn0].
  - assert (Hsum : f64_add (float64_of_int 0) (f64_mul (float64_of_int 0) refillRate)
                   = S754_zero false).
    { by destruct Hadd as [-> | ->]. }
    rewrite Hsum. unfold capacity. rewrite Hc. done.
  - destruct (float64_of_small_int_finite n) as (m & e & Hf); [lia|].
    assert (Hsum : f64_add (float64_of_int n) (f64_mul (float64_of_int 0) refillRate)
                   = float64_of_int n).
    { rewrite Hf. by destruct Hadd as [-> | ->]. }
    rewrite Hsum.
    assert (Hlt : f64_lt capacity (float64_of_int n) = false).
    { unfold capacity. rewrite f64_lt_small by lia. apply Z.ltb_ge. lia. }
    unfold math_Min. rewrite Hlt. unfold capacity. rewrite Hc, Hf. done.
Qed.

Lemma RateLimiter_empty_bucket redis :
  HGetAll redis key = bucket_with 0 now ->
  RateLimiter redis cfg c now link_up
  = (mkLimited rejected
       (fst (RateLimiter redis cfg c now link_up)).(written), redis).
Proof using Hcap Hparse Hrate_nan Hrate_inf Hrate_ninf Hnow.
  intros Hbucket. unfold RateLimiter at 1 2. fold key. rewrite Hbucket.
  replace (bool_decide (is_Some (read_err link_up))
           || (Z.of_nat (size (bucket_with 0 now)) =? 0)) with false
    by (symmetry; apply later_observation_test; [done|apply insert_non_empty]).
  rewrite refilled_same_second by lia.
  change (f64_lt (float64_of_int 0) f64_one) with true. done.
Qed.

Lemma RateLimiter_token_taken redis n :
  1 <= n <= cfg_Requests cfg ->
  HGetAll redis key = bucket_with n now ->
  verdict (fst (RateLimiter redis cfg c now link_up)) = Next
  /\ HGetAll (snd (RateLimiter redis cfg c now link_up)) key
     = bucket_with (n - 1) now.
Proof using Hcap Hparse Hformat Hrate_nan Hrate_inf Hrate_ninf Hnow.
  intros Hn Hbucket.
  destruct (RateLimiter_later_observation redis cfg c now link_up)
    as [_ Hpass]; [done| |].
  { fold key. rewrite Hbucket. apply insert_non_empty. }
  fold key in Hpass. rewrite Hbucket in Hpass.
  rewrite refilled_same_second in Hpass by lia.
  destruct Hpass as [Hok _].
  { change f64_one with (float64_of_int 1).
    rewrite f64_lt_small by (unfold checked_capacity in *; lia).
    apply Z.ltb_ge. lia. }
  destruct (Hok eq_refl) as [Hv Hstore]. split; [done|].
  rewrite Hstore, f64_sub_one_small by lia. rewrite Hformat by lia.
  apply bucket_with_update.
Qed.

Lemma RateLimiter_calls_empty_bucket m redis :
  HGetAll redis key = bucket_with 0 now ->
  RateLimiter_calls m redis cfg c now = (replicate m rejected, redis).
Proof using Hcap Hparse Hrate_nan Hrate_inf Hrate_ninf Hnow.
  intros Hbucket. induction m as [|m IH]; [done|].
  cbn [RateLimiter_calls]. rewrite (RateLimiter_empty_bucket redis Hbucket).
  by rewrite IH.
Qed.

Lemma RateLimiter_calls_bucket n m redis :
  Z.of_nat n <= cfg_Requests cfg ->
  HGetAll redis key = bucket_with (Z.of_nat n) now ->
  fst (RateLimiter_calls (n + m) redis cfg c now)
  = replicate n Next ++ replicate m rejected.
Proof using Hcap Hparse Hformat Hrate_nan Hrate_inf Hrate_ninf Hnow.
  revert redis. induction n as [|n IH]; intros redis Hn Hbucket.
  - simpl. by rewrite RateLimiter_calls_empty_bucket.
  - cbn [RateLimiter_calls Nat.add].
    destruct (RateLimiter_token_taken redis (Z.of_nat (S n))) as [Hv Hstore];
      [lia|done|].
    destruct (RateLimiter redis cfg c now link_up) as [l redis1].
    simpl in Hv, Hstore.
    specialize (IH redis1).
    destruct (RateLimiter_calls (n + m) redis1 cfg c now) as [vs redis2].
    simpl in *. rewrite Hv. f_equal. apply IH; [lia|].
    rewrite Hstore. f_equal. lia.
Qed.

End Burst.


Lemma integer_text_FormatFloat n :
  0 <= n <= checked_capacity ->
  @FormatFloat integer_text (float64_of_int n) = Itoa n.
Proof.
  intros Hn.
  apply String.eqb_eq.
  apply (range_forallb
           (fun n => String.eqb (@FormatFloat integer_text (float64_of_int n)) (Itoa n))
           checked_capacity).
  - vm_compute. reflexivity.
  - lia.
Qed.

Lemma integer_text_ParseFloat n :
  0 <= n <= checked_capacity ->
  @ParseFloat integer_text (Itoa n) = Parsed (float64_of_int n).
Proof.
  intros Hn. simpl. rewrite ParseInt_Itoa.
  unfold checked_capacity, min_int, max_int in *.
  destruct (Z.ltb_spec n (- 2 ^ 63)); [lia|].
  destruct (Z.ltb_spec (2 ^ 63 - 1) n); [lia|]. done.
Qed.


Section NoExpiry.
Context `{FloatText} `{NetIP}.

(** X26.  A window whose double is not a positive duration switches
    the limiter off.  Every request of a client without a bucket is a
    first observation: the bucket it writes is deleted by [EXPIRE] in
    the same transaction, so however many requests the client makes,
    all go on and the store holds no bucket for it afterwards. *)
Theorem X26_no_expiry_no_limit cfg c now redis n :
  let key := ("ratelimit:" ++ ClientIP c)%string in
  wrap64 (cfg_Window cfg * 2) <= 0 ->
  HGetAll redis key = ∅ ->
  fst (RateLimiter_calls n redis cfg c now) = replicate n Next
  /\ HGetAll (snd (RateLimiter_calls n redis cfg c now)) key = ∅
  /\ (0 < n -> snd (RateLimiter_calls n redis cfg c now) !! key = None)%nat.
Proof.
  intros key Hexpiry. revert redis.
  induction n as [|n IH]; intros redis Hempty.
  - split; [done|]. split; [done|]. lia.
  - cbn [RateLimiter_calls].
    assert (Hfirst : bool_decide (is_Some (read_err link_up))
                     || (Z.of_nat (size (HGetAll redis key)) =? 0) = true).
    { apply first_observation_test. by right. }
    assert (Hr1 : verdict (fst (RateLimiter redis cfg c now link_up)) = Next
                  /\ snd (RateLimiter redis cfg c now link_up) !! key = None).
    { unfold RateLimiter. fold key. rewrite Hfirst.
      unfold Exec. cbn [write_err link_up foldl fst snd verdict]. split; [done|].
      by apply deleted_by_Expire. }
    destruct Hr1 as [Hv Hgone].
    destruct (RateLimiter redis cfg c now link_up) as [l redis1].
    simpl in Hv, Hgone.
    assert (Hempty1 : HGetAll redis1 key = ∅) by (unfold HGetAll; by rewrite Hgone).
    destruct (IH redis1 Hempty1) as (Hvs & Hstore & Hkey).
    destruct (RateLimiter_calls n redis1 cfg c now) as [vs redis2] eqn:Ecalls.
    cbn [fst snd] in *. rewrite Hv, Hvs. split; [done|]. split; [done|]. intros _.
    destruct n as [|n']; [|apply Hkey; lia].
    cbn [RateLimiter_calls] in Ecalls. by injection Ecalls as _ <-.
Qed.

End NoExpiry.

Lemma X26_no_expiry_no_limit_witness :
  fst (@RateLimiter_calls integer_text ipv4_text 3 ∅ negative_window_limits
         example_context 1700000000)
  = [Next; Next; Next].
Proof.
  destruct (@X26_no_expiry_no_limit integer_text ipv4_text negative_window_limits
              example_context 1700000000 ∅ 3) as [Hverdicts _].
  - vm_compute. discriminate.
  - reflexivity.
  - exact Hverdicts.
Defined.

(** ** The request identifier *)

Lemma letters_alphabet j b :
  String.get j letters = Some b -> is_lower b || is_digit b = true.
Proof.
  assert (Hall : forallb (fun j => match String.get j letters with
                                   | Some b => is_lower b || is_digit b
                                   | None => true
                                   end) (seq 0 36) = true).
  { vm_compute. reflexivity. }
  rewrite forallb_forall in Hall.
  destruct (decide (j < 36)%nat) as [Hj|Hj].
  - intros Hb. specialize (Hall j). rewrite Hb in Hall. apply Hall.
    apply in_seq. lia.
  - intros Hb. exfalso.
    assert (Hlen : (String.length letters <= j)%nat) by (simpl; lia).
    clear Hj Hall. revert j Hb Hlen. generalize letters.
    intros s. induction s as [|a s IH]; intros j Hb Hlen; [by destruct j|].
    destruct j as [|j]; simpl in *; [lia|]. apply (IH j); [done|lia].
Qed.

Lemma string_index_letters x :
  0 <= x ->
  exists b,
    string_index letters (Z.rem x (Z.of_nat (String.length letters))) = Return b
    /\ String.get (Z.to_nat (x mod 36)) letters = Some b.
Proof.
  intros Hx. change (Z.of_nat (String.length letters)) with 36.
  rewrite Z.rem_mod_nonneg by lia.
  pose proof (Z.mod_pos_bound x 36) as Hb.
  unfold string_index. change (Z.of_nat (String.length letters)) with 36.
  replace ((0 <=? x mod 36) && (x mod 36 <? 36)) with true
    by (symmetry; apply andb_true_iff; split; [apply Z.leb_le|apply Z.ltb_lt]; lia).
  destruct (String.get (Z.to_nat (x mod 36)) letters) as [b|] eqn:E; [by exists b|].
  exfalso.
  assert (Hall : forallb (fun j => match String.get j letters with
                                   | Some _ => true
                                   | None => false
                                   end) (seq 0 36) = true).
  { vm_compute. reflexivity. }
  rewrite forallb_forall in Hall.
  specialize (Hall (Z.to_nat (x mod 36))). rewrite E in Hall.
  discriminate Hall. apply in_seq. lia.
Qed.

Lemma randString_from_ok i n UnixNano :
  (forall j, (i <= j < i + n)%nat -> 0 <= UnixNano j) ->
  exists s,
    randString_from i n UnixNano = Return s
    /\ String.length s = n
    /\ (forall j, (j < n)%nat ->
          String.get j s
          = String.get (Z.to_nat (UnixNano (i + j)%nat mod 36)) letters)
    /\ string_forallb (fun b => is_lower b || is_digit b) s = true.
Proof.
  revert i. induction n as [|n IH]; intros i Hclock.
  - exists ""%string. split; [done|]. split; [done|]. split; [|done].
    intros j Hj. lia.
  - cbn [randString_from].
    destruct (string_index_letters (UnixNano i)) as (b & -> & Hb).
    { apply Hclock. lia. }
    destruct (IH (S i)) as (s & -> & Hlen & Hget & Hall).
    { intros j Hj. apply Hclock. lia. }
    exists (String b s). split; [done|]. split; [simpl; by rewrite Hlen|]. split.
    + intros [|j] Hj; simpl.
      * by rewrite Nat.add_0_r.
      * rewrite Hget by lia.
        by replace (S i + j)%nat with (i + S j)%nat by lia.
    + simpl. rewrite Hall, andb_true_r. by eapply letters_alphabet.
Qed.

Lemma randString_8 UnixNano :
  (forall j, (j < 8)%nat -> 0 <= UnixNano j) ->
  exists r,
    randString 8 UnixNano = Return r
    /\ String.length r = 8%nat
    /\ string_forallb (fun b => is_lower b || is_digit b) r = true.
Proof.
  intros Hclock.
  destruct (randString_from_ok 0 8 UnixNano) as (r & Hr & Hlen & _ & Hall).
  { intros j Hj. apply Hclock. lia. }
  by exists r.
Qed.

(** X23.  [randString(n)] for [n >= 0], with the clock never before
    1970, returns [n] bytes, each a lower-case letter or a digit: the
    byte at index [i] is the letter at position [t_i mod 36] of the
    alphabet, [t_i] being the clock reading, in nanoseconds, of the
    iteration, so the string is a function of the clock.  For a
    negative [n] it panics. *)
Theorem X23_randString n UnixNano :
  (n < 0 -> randString n UnixNano = Panic)
  /\ (0 <= n ->
      (forall j, (j < Z.to_nat n)%nat -> 0 <= UnixNano j) ->
      exists s,
        randString n UnixNano = Return s
        /\ Z.of_nat (String.length s) = n
        /\ (forall j, (j < Z.to_nat n)%nat ->
              String.get j s = String.get (Z.to_nat (UnixNano j mod 36)) letters)
        /\ string_forallb (fun b => is_lower b || is_digit b) s = true).
Proof.
  unfold randString. split.
  - intros Hn. by destruct (Z.ltb_spec n 0); [|lia].
  - intros Hn Hclock. destruct (Z.ltb_spec n 0); [lia|].
    destruct (randString_from_ok 0 (Z.to_nat n) UnixNano) as (s & Hs & Hlen & Hget & Hall).
    { intros j Hj. apply Hclock. lia. }
    exists s. split; [done|]. split; [lia|]. split; [|done].
    intros j Hj. by rewrite Hget.
Qed.

(** X24.  [RequestID] echoes the first X-Request-ID value of the
    request when it is not empty, and otherwise generates the timestamp,
    a dash and eight bytes of [randString]; either way the identifier is
    not empty and the response carries it as the only value of
    X-Request-Id, replacing what was there. *)
Theorem X24_RequestID c formatted UnixNano :
  (forall j, (j < 8)%nat -> 0 <= UnixNano j) ->
  exists id,
    RequestID c formatted UnixNano
    = Return (id, Header_Set (Writer_Header c) "X-Request-ID" id)
    /\ Header_Set (Writer_Header c) "X-Request-ID" id !! "X-Request-Id"%string
       = Some [id]
    /\ id <> ""%string
    /\ (Header_Get (Headers c) "X-Request-ID" <> ""%string ->
        id = Header_Get (Headers c) "X-Request-ID")
    /\ (Header_Get (Headers c) "X-Request-ID" = ""%string ->
        exists r, id = (formatted ++ "-" ++ r)%string
                  /\ String.length r = 8%nat
                  /\ string_forallb (fun b => is_lower b || is_digit b) r = true).
Proof.
  intros Hclock. unfold RequestID.
  destruct (String.eqb_spec (Header_Get (Headers c) "X-Request-ID") "") as [E|NE].
  - unfold generateRequestID.
    destruct (randString_8 UnixNano Hclock) as (r & -> & Hlen & Hall).
    assert (Hne : (formatted ++ "-" ++ r)%string <> ""%string).
    { clear. induction formatted; done. }
    exists (formatted ++ "-" ++ r)%string.
    unfold gin_Header. apply String.eqb_neq in Hne. rewrite Hne.
    split; [done|]. split; [apply lookup_insert_eq|].
    split; [by apply String.eqb_neq|]. split; [done|]. intros _. by exists r.
  - exists (Header_Get (Headers c) "X-Request-ID").
    unfold gin_Header. apply String.eqb_neq in NE. rewrite NE.
    split; [done|]. split; [apply lookup_insert_eq|].
    split; [by apply String.eqb_neq|]. split; [done|].
    intros E. rewrite E in NE. discriminate.
Qed.

Lemma X24_RequestID_witness :
  exists id,
    RequestID example_context "20231114221320" example_nanos
    = Return (id, Header_Set (Writer_Header example_context) "X-Request-ID" id)
    /\ id <> ""%string.
Proof.
  destruct (X24_RequestID example_context "20231114221320" example_nanos)
    as (id & HR & _ & Hne & _).
  - intros j Hj. unfold example_nanos. lia.
  - exists id. split; [exact HR | exact Hne].
Defined.

(** ** The proxy: what the client is answered *)

Section ProxyOutcome.
Context `{External}.

Lemma range_canonical_NoDup h :
  range_Header h ≡ₚ map_to_list h ->
  (forall key, is_Some (h !! key) -> CanonicalMIMEHeaderKey key = key) ->
  NoDup (CanonicalMIMEHeaderKey <$> (range_Header h).*1).
Proof.
  intros Hrange Hcanon.
  replace (CanonicalMIMEHeaderKey <$> (range_Header h).*1) with ((range_Header h).*1).
  - rewrite Hrange. apply NoDup_fst_map_to_list.
  - rewrite <- (list_fmap_id ((range_Header h).*1)) at 1.
    apply list_fmap_ext. intros _ key Hkey%list_elem_of_lookup_2.
    apply list_elem_of_fmap in Hkey as [[key' values] [-> Hin]]. simpl.
    symmetry. apply Hcanon. rewrite Hrange in Hin.
    apply elem_of_map_to_list in Hin. by eexists.
Qed.

Lemma relay_headers_canonical h w k :
  range_Header h ≡ₚ map_to_list h ->
  (forall key, is_Some (h !! key) -> CanonicalMIMEHeaderKey key = key) ->
  CanonicalMIMEHeaderKey k = k ->
  relay_headers (range_Header h) w !! k
  = match last (Header_values h k) with
    | None => w !! k
    | Some v => if String.eqb v "" then None else Some [v]
    end.
Proof.
  intros Hrange Hcanon Hk. unfold Header_values.
  destruct (h !! k) as [values|] eqn:Hhk; cbn [default from_option id].
  - rewrite <- Hk. rewrite (relay_headers_entry _ w k values).
    + done.
    + by apply range_canonical_NoDup.
    + rewrite Hrange. by apply elem_of_map_to_list.
  - apply relay_headers_other. intros key values Hin Heq.
    rewrite Hrange in Hin. apply elem_of_map_to_list in Hin.
    rewrite Hcanon in Heq by (by eexists). congruence.
Qed.

(** X25.  What the client is answered once the service is found and a
    URL selected.  When the breaker admits the call and the backend
    answers, [c.Data] is called with the status code of the backend,
    whatever it is, with the body read from it and with the first
    Content-Type value of the backend, on the response headers that the
    copy loop has left.  [c.Data] writes its content type only when the
    response has none, so the Content-Type that the client gets (for a
    backend response with canonical names) is the last Content-Type
    value of the backend; it is the first one when the last is empty,
    and without any it is what the middleware had set, or else the empty
    text.  When the breaker admits the call and [forwardRequest] fails,
    and when the breaker rejects the call, the answer is the same 503
    "Service temporarily unavailable". *)
Theorem X25_ProxyRequest_outcome p c clk svc targetURL lb :
  Get (registry p) (request_serviceName c) = Ok svc ->
  RoundRobin (loadBalancer p) svc = (Return (Ok targetURL), lb) ->
  let breaker :=
    fst (GetBreaker (breakerManager p) (request_serviceName c) (now_create clk)) in
  (forall generation cb1 req resp body,
     beforeRequest breaker (now_before clk) = (Ok generation, cb1) ->
     outbound_request c targetURL (request_remainingPath c) = Ok req ->
     client_Do req = Ok resp ->
     resp_Body resp = Ok body ->
     let relayed := relay_headers (range_Header (resp_Header resp)) (Writer_Header c) in
     let contentType := Header_Get (resp_Header resp) "Content-Type" in
     fst (ProxyRequest p c clk)
     = Return (Data (resp_StatusCode resp) relayed contentType body)
     /\ (range_Header (resp_Header resp) ≡ₚ map_to_list (resp_Header resp) ->
         (forall key, is_Some (resp_Header resp !! key) ->
            CanonicalMIMEHeaderKey key = key) ->
         writeContentType relayed [contentType] !! "Content-Type"%string
         = match last (Header_values (resp_Header resp) "Content-Type") with
           | Some v => if String.eqb v "" then Some [contentType] else Some [v]
           | None =>
               match Writer_Header c !! "Content-Type"%string with
               | Some (v :: values) => Some (v :: values)
               | _ => Some [""%string]
               end
           end))
  /\ (forall generation cb1 err,
        beforeRequest breaker (now_before clk) = (Ok generation, cb1) ->
        forwardRequest c targetURL (request_remainingPath c) = Err err ->
        fst (ProxyRequest p c clk)
        = Return (ErrorResponse StatusServiceUnavailable
                    "Service temporarily unavailable"))
  /\ (forall err cb1,
        beforeRequest breaker (now_before clk) = (Err err, cb1) ->
        fst (ProxyRequest p c clk)
        = Return (ErrorResponse StatusServiceUnavailable
                    "Service temporarily unavailable")).
Proof.
  intros HG HRR breaker.
  assert (HP : forall result cb',
            Execute breaker (now_before clk) (now_after clk)
              (fun _ => forwardRequest c targetURL (request_remainingPath c))
            = (result, cb') ->
            fst (ProxyRequest p c clk)
            = match result with
              | Err _ =>
                  Return (ErrorResponse StatusServiceUnavailable
                            "Service temporarily unavailable")
              | Ok response =>
                  Return (Data (StatusCode response)
                            (relay_headers (range_Header (pr_Headers response))
                               (Writer_Header c))
                            (ContentType response) (pr_Body response))
              end).
  { intros result cb' HE. rewrite ProxyRequest_routed. unfold ProxyRequest_for.
    rewrite HG, HRR. subst breaker.
    destruct (GetBreaker _ _ _) as [b bm]. simpl in HE. rewrite HE.
    by destruct result. }
  split; [|split].
  - intros generation cb1 req resp body Hadmit Hreq Hdo Hbody relayed contentType.
    split.
    + erewrite HP; [|unfold Execute; rewrite Hadmit; reflexivity].
      by rewrite (forwardRequest_answered _ _ _ _ _ _ Hreq Hdo Hbody).
    + intros Hrange Hcanon. rewrite writeContentType_Content_Type.
      subst relayed. rewrite relay_headers_canonical by done.
      subst contentType. unfold Header_Get, Header_Values.
      change (CanonicalMIMEHeaderKey "Content-Type") with "Content-Type"%string.
      destruct (Header_values (resp_Header resp) "Content-Type")
        as [|v0 values] eqn:Hvalues using rev_ind.
      * cbn [last].
        by destruct (Writer_Header c !! "Content-Type"%string) as [[|]|].
      * rewrite last_snoc. by destruct (String.eqb v0 "").
  - intros generation cb1 err Hadmit Hfail.
    erewrite HP; [|unfold Execute; rewrite Hadmit; reflexivity].
    by rewrite Hfail.
  - intros err cb1 Hreject.
    erewrite HP; [|unfold Execute; rewrite Hreject; reflexivity]. done.
Qed.

End ProxyOutcome.

Lemma X25_ProxyRequest_outcome_witness :
  fst (@ProxyRequest failing_backend example_handler example_context example_clock)
  = Return (Data 500
              (relay_headers
                 (@range_Header failing_backend
                    (<["Content-Type" := ["text/plain"]]> ∅)%string) ∅)
              "text/plain" "internal error")
  /\ writeContentType
       (relay_headers
          (@range_Header failing_backend
             (<["Content-Type" := ["text/plain"]]> ∅)%string) ∅)
       ["text/plain"%string] !! "Content-Type"%string
     = Some ["text/plain"%string].
Proof.
  destruct (@X25_ProxyRequest_outcome failing_backend example_handler example_context
              example_clock (mkService "users" ["http://u0"%string] "/health" true)
              "http://u0"
              (snd (RoundRobin NewLoadBalancer
                      (mkService "users" ["http://u0"%string] "/health" true))))
    as (Hrelay & _ & _).
  - vm_compute. reflexivity.
  - vm_compute. reflexivity.
  - destruct (Hrelay 1
                (snd (beforeRequest
                        (fst (GetBreaker (breakerManager example_handler)
                                (request_serviceName example_context)
                                (now_create example_clock)))
                        (now_before example_clock)))
                example_request
                (mkBackendResponse 500 (<["Content-Type" := ["text/plain"]]> ∅)
                   (Ok "internal error"))%string "internal error"%string)
      as [Hanswer Hheader].
    + vm_compute. reflexivity.
    + etrans; [|exact example_request_built]. vm_compute. reflexivity.
    + reflexivity.
    + reflexivity.
    + split.
      * etrans; [exact Hanswer|]. vm_compute. reflexivity.
      * etrans; [apply Hheader|].
        -- reflexivity.
        -- intros key [values Hkey]. cbn [resp_Header] in Hkey.
           apply lookup_insert_Some in Hkey as [[<- _]|[_ Hkey]]; [reflexivity|].
           by rewrite lookup_empty in Hkey.
        -- vm_compute. reflexivity.
Defined.
